(** * Match-data aggregation engine (src/lib/analytics.ts)

    A shallow embedding of the analytics service of rift-duo-coach and the
    properties of its aggregation function [aggregateMatchData].

    Conventions of the embedding.
    - The integer-valued fields of a match (the data model makes kills,
      deaths, assists, durations, time stamps and the other counters
      integers) are [Z]; sums and counters over them are computed in [Z],
      which is what the JavaScript additions compute on safe integers.
    - Every value produced by a division is a [number]: a binary64
      value, given by the rational it is, or one of the three non-finite
      values of JavaScript.  The four operations round their exact
      result to the nearest binary64 value, ties to the even mantissa,
      and overflow to an infinity.  The sign of zero is not
      represented.
    - [Map] objects whose iteration order reaches the output are
      association lists in insertion order; maps used for lookup only are
      [gmap]s.  A plain object used as a dictionary is the list of its
      own properties in the order in which [Object.entries] lists them.
    - A statement that can throw (a property read on [undefined]) is a
      computation in the [option] monad, [None] standing for the
      exception. *)

From stdpp Require Import base option list sorting strings gmap.
From Stdlib Require Import ZArith QArith Qround Qabs Qpower Lia Lqa Ascii DecimalString.
From Stdlib Require DecimalPos DecimalZ.

Open Scope Z_scope.

(** ** JavaScript numbers *)

Inductive number : Type :=
  | Num (q : Q)
  | Infinity
  | NegInfinity
  | NaN.

(** The number an integer is.  The counters and the sums of the program
    are computed in [Z]: they are the JavaScript values as long as they
    stay within [2^53], where binary64 holds every integer. *)
Definition ofZ (z : Z) : number := Num (inject_Z z).

(** The infinity carrying the sign [c], [NaN] for a zero sign. *)
Definition signedInfinity (c : comparison) : number :=
  match c with
  | Gt => Infinity
  | Lt => NegInfinity
  | Eq => NaN
  end.

Definition negate (c : comparison) : comparison :=
  match c with
  | Gt => Lt
  | Lt => Gt
  | Eq => Eq
  end.

(** *** Rounding to binary64 *)

(** [2^e], for any integer [e]. *)
Definition pow2 (e : Z) : Q := (2 ^ e)%Q.

(** The integer part of the binary logarithm of a positive number. *)
Definition ilog2 (q : Q) : Z :=
  let k := Z.log2 (Qnum q) - Z.log2 (Zpos (Qden q)) in
  if Qle_bool (pow2 k) q then k else k - 1.

(** The nearest integer, the even one of two. *)
Definition roundHalfEven (x : Q) : Z :=
  let f := Qfloor x in
  match (x - inject_Z f ?= 1 # 2)%Q with
  | Lt => f
  | Gt => f + 1
  | Eq => if Z.even f then f else f + 1
  end.

(** The exponent of the last mantissa bit of the binary64 values around
    [a]: 52 below the binary logarithm, and -1074 for the subnormal
    numbers. *)
Definition ulpExponent (a : Q) : Z := Z.max (ilog2 a - 52) (-1074).

(** A positive number rounded to a multiple of its last mantissa
    bit. *)
Definition roundPos (a : Q) : Q :=
  let e := ulpExponent a in
  (inject_Z (roundHalfEven (a / pow2 e)) * pow2 e)%Q.

(** The binary64 value of an exact result: the nearest one, of two the
    one with the even mantissa, and an infinity from [2^1024 - 2^970]
    on. *)
Definition round64 (q : Q) : number :=
  if Qeq_bool q 0 then Num 0
  else
    let r := roundPos (Qabs q) in
    if Qle_bool (pow2 1024) r then (if Qle_bool 0 q then Infinity else NegInfinity)
    else Num (Qred (if Qle_bool 0 q then r else - r)).

(** [a / b].  A zero divisor is the positive zero: every divisor of the
    program is a sum started at [0] or a counter. *)
Definition div (a b : number) : number :=
  match a, b with
  | NaN, _ | _, NaN => NaN
  | Num p, Num q =>
      if Qeq_bool q 0 then signedInfinity (Qcompare p 0) else round64 (p / q)
  | Num _, _ => Num 0
  | Infinity, Num q => if Qle_bool 0 q then Infinity else NegInfinity
  | NegInfinity, Num q => if Qle_bool 0 q then NegInfinity else Infinity
  | _, _ => NaN
  end.

(** [a * b]. *)
Definition mul (a b : number) : number :=
  match a, b with
  | NaN, _ | _, NaN => NaN
  | Num p, Num q => round64 (p * q)
  | Num p, Infinity | Infinity, Num p => signedInfinity (Qcompare p 0)
  | Num p, NegInfinity | NegInfinity, Num p => signedInfinity (negate (Qcompare p 0))
  | Infinity, Infinity | NegInfinity, NegInfinity => Infinity
  | _, _ => NegInfinity
  end.

(** [a - b]. *)
Definition sub (a b : number) : number :=
  match a, b with
  | NaN, _ | _, NaN => NaN
  | Num p, Num q => round64 (p - q)
  | Num _, Infinity => NegInfinity
  | Num _, NegInfinity => Infinity
  | Infinity, Infinity | NegInfinity, NegInfinity => NaN
  | Infinity, _ => Infinity
  | NegInfinity, _ => NegInfinity
  end.

(** [a + b]. *)
Definition add (a b : number) : number :=
  match a, b with
  | NaN, _ | _, NaN => NaN
  | Num p, Num q => round64 (p + q)
  | Num _, Infinity => Infinity
  | Num _, NegInfinity => NegInfinity
  | Infinity, NegInfinity | NegInfinity, Infinity => NaN
  | Infinity, _ => Infinity
  | NegInfinity, _ => NegInfinity
  end.

(** [a > b]: false as soon as one side is [NaN]. *)
Definition gt (a b : number) : bool :=
  match a, b with
  | NaN, _ | _, NaN => false
  | Num p, Num q => negb (Qle_bool p q)
  | Infinity, Infinity => false
  | Infinity, _ => true
  | _, NegInfinity => match a with NegInfinity => false | _ => true end
  | _, _ => false
  end.

(** ** Arrays and Maps *)

Section Arrays.
Context {A : Type}.

(** [Array.prototype.sort(comparefn)].  The language fixes no algorithm
    but requires the sort to be stable, so for a consistent comparator
    the result is the one stable sorted arrangement; it is computed by
    insertion.  An element moves behind another one only when the
    comparator is positive ([NaN] counts as [0]). *)
Fixpoint Array_insert (comparefn : A -> A -> number) (x : A) (l : list A) : list A :=
  match l with
  | [] => [x]
  | y :: l' =>
      if gt (comparefn x y) (ofZ 0) then y :: Array_insert comparefn x l'
      else x :: l
  end.

Fixpoint Array_sort (comparefn : A -> A -> number) (l : list A) : list A :=
  match l with
  | [] => []
  | x :: l' => Array_insert comparefn x (Array_sort comparefn l')
  end.

(** [forEach] with a callback that may throw. *)
Fixpoint forEach {S : Type} (f : S -> A -> option S) (l : list A) (s : S) : option S :=
  match l with
  | [] => Some s
  | x :: l' => s' ← f s x; forEach f l' s'
  end.
End Arrays.

(** A [Map]: the entries in insertion order, one per key. *)
Abbreviation Map K V := (list (K * V)).

Section Maps.
Context {K V : Type} `{EqDecision K}.

Fixpoint Map_get (k : K) (m : Map K V) : option V :=
  match m with
  | [] => None
  | (k', v) :: m' => if decide (k = k') then Some v else Map_get k m'
  end.

Definition Map_has (k : K) (m : Map K V) : bool :=
  match Map_get k m with
  | Some _ => true
  | None => false
  end.

(** [set] overwrites the value of a present key where it stands and
    appends an absent key. *)
Fixpoint Map_set (k : K) (v : V) (m : Map K V) : Map K V :=
  match m with
  | [] => [(k, v)]
  | (k', v') :: m' =>
      if decide (k = k') then (k, v) :: m' else (k', v') :: Map_set k v m'
  end.

Definition Map_values (m : Map K V) : list V := m.*2.
Definition Map_entries (m : Map K V) : list (K * V) := m.
End Maps.

(** ** Strings *)

(** [String(z)] for an integer. *)
Definition String_ (z : Z) : string := NilZero.string_of_int (Z.to_int z).

(** [s.padStart(n, c)] for a one-character filler. *)
Definition padStart (n : nat) (c : Ascii.ascii) (s : string) : string :=
  Nat.iter (n - String.length s) (String c) s.

(** ** Objects used as dictionaries *)

(** The array index that a property key spells, if it spells one: the
    canonical numeral of an integer from 0 to [2^32 - 2]. *)
Definition arrayIndex (key : string) : option Z :=
  match NilZero.uint_of_string key with
  | Some d =>
      let z := Z.of_uint d in
      if decide (String_ z = key ∧ z < 2 ^ 32 - 1) then Some z else None
  | None => None
  end.

(** Whether a new key is listed before the key [other] of the same
    object: array indices come first, in ascending order; the other
    keys follow in the order of their creation. *)
Definition listedBefore (key other : string) : bool :=
  match arrayIndex key, arrayIndex other with
  | Some i, Some j => i <? j
  | Some _, None => true
  | None, _ => false
  end.

(** A plain object holding one value per own key, as the list of its
    own properties in the order in which [Object.keys] and
    [Object.entries] list them.  Only own properties are held: a key
    that names a property of [Object.prototype] is outside of what the
    list tells. *)
Record JSObject (V : Type) : Type := { ownProperties : Map string V }.
Arguments Build_JSObject {V} _.
Arguments ownProperties {V} _.

Section Objects.
Context {V : Type}.

(** The place of a key that the object does not have yet. *)
Fixpoint createProperty (key : string) (v : V) (l : Map string V) : Map string V :=
  match l with
  | [] => [(key, v)]
  | (k, w) :: rest =>
      if listedBefore key k then (key, v) :: l
      else (k, w) :: createProperty key v rest
  end.

(** [o[key]], with [None] for [undefined]. *)
Definition Object_get (key : string) (o : JSObject V) : option V :=
  Map_get key (ownProperties o).

(** [o[key] = v]: the value of an own key is overwritten where it
    stands, a new key takes its place in the order of the keys. *)
Definition Object_set (key : string) (v : V) (o : JSObject V) : JSObject V :=
  {| ownProperties :=
       if Map_has key (ownProperties o) then Map_set key v (ownProperties o)
       else createProperty key v (ownProperties o) |}.

Definition Object_entries (o : JSObject V) : list (string * V) := ownProperties o.
Definition Object_keys (o : JSObject V) : list string := (ownProperties o).*1.

#[global] Instance JSObject_lookup : Lookup string V (JSObject V) := Object_get.
#[global] Instance JSObject_empty : Empty (JSObject V) := {| ownProperties := [] |}.
End Objects.

(** ** Data model *)

Record Participant : Type := {
  puuid : string;
  championId : Z;
  championName : string;
  kills : Z;
  deaths : Z;
  assists : Z;
  win : bool;
  visionScore : Z;
  totalDamageDealt : Z;
  goldEarned : Z;
  totalMinionsKilled : Z;
  role : string;
  lane : string;
  items : list Z
}.

Record MatchDetails : Type := {
  matchId : string;
  gameCreation : Z;
  gameDuration : Z;
  gameMode : string;
  queueId : Z;
  participant : Participant
}.

Record EnrichedMastery : Type := {
  em_championId : Z;
  em_championName : string;
  championLevel : Z;
  championPoints : Z;
  lastPlayTime : Z;
  championPointsSinceLastLevel : Z;
  championPointsUntilNextLevel : Z;
  chestGranted : bool;
  tokensEarned : Z;
  summonerId : string
}.

Record ChampionStat : Type := {
  cs_championId : Z;
  cs_championName : string;
  cs_games : Z;
  cs_wins : Z;
  cs_losses : Z;
  cs_winRate : number;
  cs_avgKDA : number;
  cs_avgKills : number;
  cs_avgDeaths : number;
  cs_avgAssists : number;
  cs_totalPlaytime : number;
  masteryLevel : option Z;
  masteryPoints : option Z
}.

Record MonthlyData : Type := {
  month : string;
  md_games : Z;
  md_wins : Z;
  md_losses : Z;
  md_winRate : number
}.

Record WeeklyData : Type := {
  week : string;
  wd_games : Z;
  wd_wins : Z;
  wd_losses : Z;
  wd_winRate : number
}.

Record Overview : Type := {
  totalGames : Z;
  totalWins : Z;
  totalLosses : Z;
  winRate : number;
  avgKDA : number;
  avgKills : number;
  avgDeaths : number;
  avgAssists : number;
  totalPlaytime : number
}.

Record TemporalTrends : Type := {
  monthlyWinRate : list MonthlyData;
  weeklyPerformance : list WeeklyData;
  bestMonth : string;
  worstMonth : string
}.

Record PerformanceMetrics : Type := {
  avgVisionScore : number;
  avgDamagePerMinute : number;
  avgGoldPerMinute : number;
  avgCSPerMinute : number
}.

Inductive StreakType : Type := Win | Loss.

Record CurrentStreak : Type := {
  type : StreakType;
  count : Z
}.

Record Streaks : Type := {
  longestWinStreak : Z;
  longestLossStreak : Z;
  currentStreak : CurrentStreak
}.

Record HighlightMatches : Type := {
  bestKDA : option MatchDetails;
  mostKills : option MatchDetails;
  longestGame : option MatchDetails;
  highestDamage : option MatchDetails
}.

Record PlayerAnalytics : Type := {
  overview : Overview;
  championStats : list ChampionStat;
  temporalTrends : TemporalTrends;
  performanceMetrics : PerformanceMetrics;
  streaks : Streaks;
  roleDistribution : JSObject Z;
  highlightMatches : HighlightMatches
}.

(** The accumulator kept per champion in [championMap]. *)
Record ChampionAcc : Type := {
  acc_championId : Z;
  acc_championName : string;
  acc_games : Z;
  acc_wins : Z;
  acc_kills : Z;
  acc_deaths : Z;
  acc_assists : Z;
  acc_playtime : Z
}.

(** The accumulator kept per month and per week. *)
Record Bucket : Type := {
  bk_games : Z;
  bk_wins : Z
}.

(** What the engine uses of the host: [Date] in the local time zone and
    the locale's string comparison.  A date is its time value, the
    milliseconds since the epoch; [newDate y m d] is the time value of
    [new Date(y, m, d)]. *)
Record Host : Type := {
  getFullYear : Z -> Z;
  getMonth : Z -> Z;
  getDay : Z -> Z;
  newDate : Z -> Z -> Z -> Z;
  localeCompare : string -> string -> Z
}.

(** ** The engine *)

(** [calculateKDA] *)
Definition calculateKDA (kills deaths assists : Z) : number :=
  if deaths =? 0 then add (ofZ kills) (ofZ assists)
  else div (add (ofZ kills) (ofZ assists)) (ofZ deaths).

(** The value returned for an empty match list. *)
Definition emptyAnalytics : PlayerAnalytics := {|
  overview := {|
    totalGames := 0;
    totalWins := 0;
    totalLosses := 0;
    winRate := ofZ 0;
    avgKDA := ofZ 0;
    avgKills := ofZ 0;
    avgDeaths := ofZ 0;
    avgAssists := ofZ 0;
    totalPlaytime := ofZ 0
  |};
  championStats := [];
  temporalTrends := {|
    monthlyWinRate := [];
    weeklyPerformance := [];
    bestMonth := "";
    worstMonth := ""
  |};
  performanceMetrics := {|
    avgVisionScore := ofZ 0;
    avgDamagePerMinute := ofZ 0;
    avgGoldPerMinute := ofZ 0;
    avgCSPerMinute := ofZ 0
  |};
  streaks := {|
    longestWinStreak := 0;
    longestLossStreak := 0;
    currentStreak := {| type := Win; count := 0 |}
  |};
  roleDistribution := ∅;
  highlightMatches := {|
    bestKDA := None;
    mostKills := None;
    longestGame := None;
    highestDamage := None
  |}
|}.

(** *** Champion statistics *)

Definition newChampionAcc (p : Participant) : ChampionAcc := {|
  acc_championId := championId p;
  acc_championName := championName p;
  acc_games := 0;
  acc_wins := 0;
  acc_kills := 0;
  acc_deaths := 0;
  acc_assists := 0;
  acc_playtime := 0
|}.

(** The updates made to the [stats] object of a match's champion. *)
Definition addMatch (stats : ChampionAcc) (match_ : MatchDetails) : ChampionAcc :=
  let p := participant match_ in {|
  acc_championId := acc_championId stats;
  acc_championName := acc_championName stats;
  acc_games := acc_games stats + 1;
  acc_wins := if win p then acc_wins stats + 1 else acc_wins stats;
  acc_kills := acc_kills stats + kills p;
  acc_deaths := acc_deaths stats + deaths p;
  acc_assists := acc_assists stats + assists p;
  acc_playtime := acc_playtime stats + gameDuration match_
|}.

(** One round of the loop that fills [championMap].  [stats] is the
    object held by the map, so updating it updates the map's entry where
    it stands; had [get] answered [undefined] the first update would
    throw. *)
Definition championStep (championMap : Map Z ChampionAcc) (match_ : MatchDetails)
    : option (Map Z ChampionAcc) :=
  let p := participant match_ in
  let championMap :=
    if negb (Map_has (championId p) championMap)
    then Map_set (championId p) (newChampionAcc p) championMap
    else championMap in
  stats ← Map_get (championId p) championMap;
  Some (Map_set (championId p) (addMatch stats match_) championMap).

Definition buildMasteryMap (masteries : list EnrichedMastery) : gmap Z EnrichedMastery :=
  fold_left (λ masteryMap mastery, <[em_championId mastery := mastery]> masteryMap)
    masteries ∅.

Definition toChampionStat (masteryMap : gmap Z EnrichedMastery) (stats : ChampionAcc)
    : ChampionStat :=
  let mastery := masteryMap !! acc_championId stats in {|
  cs_championId := acc_championId stats;
  cs_championName := acc_championName stats;
  cs_games := acc_games stats;
  cs_wins := acc_wins stats;
  cs_losses := acc_games stats - acc_wins stats;
  cs_winRate := mul (div (ofZ (acc_wins stats)) (ofZ (acc_games stats))) (ofZ 100);
  cs_avgKDA := calculateKDA (acc_kills stats) (acc_deaths stats) (acc_assists stats);
  cs_avgKills := div (ofZ (acc_kills stats)) (ofZ (acc_games stats));
  cs_avgDeaths := div (ofZ (acc_deaths stats)) (ofZ (acc_games stats));
  cs_avgAssists := div (ofZ (acc_assists stats)) (ofZ (acc_games stats));
  cs_totalPlaytime := div (ofZ (acc_playtime stats)) (ofZ 3600);
  masteryLevel := championLevel <$> mastery;
  masteryPoints := championPoints <$> mastery
|}.

Definition byGamesDesc (a b : ChampionStat) : number := ofZ (cs_games b - cs_games a).

(** *** Highlight matches *)

Record HighlightScan : Type := {
  hs_bestKDA : option MatchDetails;
  bestKDAValue : number;
  hs_mostKills : option MatchDetails;
  mostKillsValue : Z;
  hs_longestGame : option MatchDetails;
  longestGameDuration : Z;
  hs_highestDamage : option MatchDetails;
  highestDamageValue : Z
}.

Definition highlightSeed : HighlightScan := {|
  hs_bestKDA := None;
  bestKDAValue := ofZ (-1);
  hs_mostKills := None;
  mostKillsValue := -1;
  hs_longestGame := None;
  longestGameDuration := -1;
  hs_highestDamage := None;
  highestDamageValue := -1
|}.

Definition matchKDA (match_ : MatchDetails) : number :=
  let p := participant match_ in calculateKDA (kills p) (deaths p) (assists p).

Definition highlightStep (s : HighlightScan) (match_ : MatchDetails) : HighlightScan :=
  let p := participant match_ in
  let kda := matchKDA match_ in
  let better_kda := gt kda (bestKDAValue s) in
  let more_kills := mostKillsValue s <? kills p in
  let longer := longestGameDuration s <? gameDuration match_ in
  let more_damage := highestDamageValue s <? totalDamageDealt p in {|
  hs_bestKDA := if better_kda then Some match_ else hs_bestKDA s;
  bestKDAValue := if better_kda then kda else bestKDAValue s;
  hs_mostKills := if more_kills then Some match_ else hs_mostKills s;
  mostKillsValue := if more_kills then kills p else mostKillsValue s;
  hs_longestGame := if longer then Some match_ else hs_longestGame s;
  longestGameDuration := if longer then gameDuration match_ else longestGameDuration s;
  hs_highestDamage := if more_damage then Some match_ else hs_highestDamage s;
  highestDamageValue := if more_damage then totalDamageDealt p else highestDamageValue s
|}.

(** *** Streaks *)

Record StreakScan : Type := {
  scan_longestWinStreak : Z;
  scan_longestLossStreak : Z;
  currentWinStreak : Z;
  currentLossStreak : Z
}.

Definition streakStep (s : StreakScan) (match_ : MatchDetails) : StreakScan :=
  if win (participant match_) then {|
    scan_longestWinStreak := Z.max (scan_longestWinStreak s) (currentWinStreak s + 1);
    scan_longestLossStreak := scan_longestLossStreak s;
    currentWinStreak := currentWinStreak s + 1;
    currentLossStreak := 0
  |} else {|
    scan_longestWinStreak := scan_longestWinStreak s;
    scan_longestLossStreak := Z.max (scan_longestLossStreak s) (currentLossStreak s + 1);
    currentWinStreak := 0;
    currentLossStreak := currentLossStreak s + 1
  |}.

Definition byCreationAsc (a b : MatchDetails) : number :=
  ofZ (gameCreation a - gameCreation b).

(** [calculateStreaks] *)
Definition calculateStreaks (matches : list MatchDetails) : Streaks :=
  if decide (length matches = 0%nat) then {|
    longestWinStreak := 0;
    longestLossStreak := 0;
    currentStreak := {| type := Win; count := 0 |}
  |} else
  let sortedMatches := Array_sort byCreationAsc matches in
  let s := fold_left streakStep sortedMatches
             {| scan_longestWinStreak := 0; scan_longestLossStreak := 0;
                currentWinStreak := 0; currentLossStreak := 0 |} in
  {|
    longestWinStreak := scan_longestWinStreak s;
    longestLossStreak := scan_longestLossStreak s;
    currentStreak :=
      if 0 <? currentWinStreak s
      then {| type := Win; count := currentWinStreak s |}
      else {| type := Loss; count := currentLossStreak s |}
  |}.

(** *** Role distribution *)

(** [calculateRoleDistribution].  [roleMap] is an object used as a
    dictionary: [roleMap[role]] is read as an own property, so the
    labels are taken not to be names that every object inherits. *)
Definition calculateRoleDistribution (matches : list MatchDetails) : JSObject Z :=
  fold_left (λ (roleMap : JSObject Z) match_,
      let role := if decide (role (participant match_) = "") then "UNKNOWN"
                  else role (participant match_) in
      Object_set role (default 0 (roleMap !! role) + 1) roleMap)
    matches ∅.

(** *** Temporal trends *)

Definition bucketStep (key : MatchDetails -> string) (buckets : Map string Bucket)
    (match_ : MatchDetails) : option (Map string Bucket) :=
  let k := key match_ in
  let buckets :=
    if negb (Map_has k buckets)
    then Map_set k {| bk_games := 0; bk_wins := 0 |} buckets
    else buckets in
  stats ← Map_get k buckets;
  Some (Map_set k
          {| bk_games := bk_games stats + 1;
             bk_wins := if win (participant match_) then bk_wins stats + 1
                        else bk_wins stats |}
          buckets).

Definition bucketWinRate (stats : Bucket) : number :=
  mul (div (ofZ (bk_wins stats)) (ofZ (bk_games stats))) (ofZ 100).

Definition toMonthlyData (entry : string * Bucket) : MonthlyData :=
  let '(month, stats) := entry in {|
  month := month;
  md_games := bk_games stats;
  md_wins := bk_wins stats;
  md_losses := bk_games stats - bk_wins stats;
  md_winRate := bucketWinRate stats
|}.

Definition toWeeklyData (entry : string * Bucket) : WeeklyData :=
  let '(week, stats) := entry in {|
  week := week;
  wd_games := bk_games stats;
  wd_wins := bk_wins stats;
  wd_losses := bk_games stats - bk_wins stats;
  wd_winRate := bucketWinRate stats
|}.

Definition byWinRateDesc (a b : MonthlyData) : number :=
  sub (md_winRate b) (md_winRate a).

(** The months with at least 5 games. *)
Definition significant (monthlyWinRate : list MonthlyData) : list MonthlyData :=
  filter (λ m, 5 ≤ md_games m) monthlyWinRate.

(** The best and the worst month of a month table. *)
Definition bestAndWorst (monthlyWinRate : list MonthlyData) : option (string * string) :=
  let significantMonths := significant monthlyWinRate in
  if decide (0 < length significantMonths)%nat then
    let sortedByWinRate := Array_sort byWinRateDesc significantMonths in
    first ← sortedByWinRate !! 0%nat;
    last ← sortedByWinRate !! (length sortedByWinRate - 1)%nat;
    Some (month first, month last)
  else Some ("", "").

Section Engine.
Variable host : Host.

(** [getMonthString] *)
Definition getMonthString (timestamp : Z) : string :=
  let year := getFullYear host timestamp in
  let month := padStart 2 "0"%char (String_ (getMonth host timestamp + 1)) in
  String_ year +:+ "-" +:+ month.

(** [getWeekString] *)
Definition getWeekString (timestamp : Z) : string :=
  let year := getFullYear host timestamp in
  let firstDayOfYear := newDate host year 0 1 in
  let pastDaysOfYear := (inject_Z (timestamp - firstDayOfYear) / inject_Z 86400000)%Q in
  let weekNumber :=
    Qceiling ((pastDaysOfYear + inject_Z (getDay host firstDayOfYear) + 1) / 7)%Q in
  String_ year +:+ "-W" +:+ padStart 2 "0"%char (String_ weekNumber).

Definition byMonth (a b : MonthlyData) : number :=
  ofZ (localeCompare host (month a) (month b)).

Definition byWeek (a b : WeeklyData) : number :=
  ofZ (localeCompare host (week a) (week b)).

(** [calculateTemporalTrends] *)
Definition calculateTemporalTrends (matches : list MatchDetails) : option TemporalTrends :=
  if decide (length matches = 0%nat) then Some {|
    monthlyWinRate := [];
    weeklyPerformance := [];
    bestMonth := "";
    worstMonth := ""
  |} else
  monthlyMap ← forEach (bucketStep (λ m, getMonthString (gameCreation m))) matches [];
  let monthlyWinRate := Array_sort byMonth (toMonthlyData <$> Map_entries monthlyMap) in
  '(bestMonth, worstMonth) ← bestAndWorst monthlyWinRate;
  weeklyMap ← forEach (bucketStep (λ m, getWeekString (gameCreation m))) matches [];
  let weeklyPerformance := Array_sort byWeek (toWeeklyData <$> Map_entries weeklyMap) in
  Some {|
    monthlyWinRate := monthlyWinRate;
    weeklyPerformance := weeklyPerformance;
    bestMonth := bestMonth;
    worstMonth := worstMonth
  |}.

(** [aggregateMatchData] *)
Definition aggregateMatchData (matches : list MatchDetails)
    (masteries : list EnrichedMastery) : option PlayerAnalytics :=
  if decide (length matches = 0%nat) then Some emptyAnalytics else
  let masteryMap := buildMasteryMap masteries in
  let totalGames := Z.of_nat (length matches) in
  let totalWins := Z.of_nat (length (List.filter (λ m, win (participant m)) matches)) in
  let totalLosses := totalGames - totalWins in
  let winRate :=
    if 0 <? totalGames then mul (div (ofZ totalWins) (ofZ totalGames)) (ofZ 100)
    else ofZ 0 in
  let totalKills := fold_left (λ sum m, sum + kills (participant m)) matches 0 in
  let totalDeaths := fold_left (λ sum m, sum + deaths (participant m)) matches 0 in
  let totalAssists := fold_left (λ sum m, sum + assists (participant m)) matches 0 in
  let avgKills := div (ofZ totalKills) (ofZ totalGames) in
  let avgDeaths := div (ofZ totalDeaths) (ofZ totalGames) in
  let avgAssists := div (ofZ totalAssists) (ofZ totalGames) in
  let avgKDA := calculateKDA totalKills totalDeaths totalAssists in
  let totalPlaytime :=
    div (ofZ (fold_left (λ sum m, sum + gameDuration m) matches 0)) (ofZ 3600) in
  championMap ← forEach championStep matches [];
  let championStats :=
    Array_sort byGamesDesc (toChampionStat masteryMap <$> Map_values championMap) in
  let totalVisionScore := fold_left (λ sum m, sum + visionScore (participant m)) matches 0 in
  let totalDamage := fold_left (λ sum m, sum + totalDamageDealt (participant m)) matches 0 in
  let totalGold := fold_left (λ sum m, sum + goldEarned (participant m)) matches 0 in
  let totalCS := fold_left (λ sum m, sum + totalMinionsKilled (participant m)) matches 0 in
  let totalGameTimeMinutes :=
    div (ofZ (fold_left (λ sum m, sum + gameDuration m) matches 0)) (ofZ 60) in
  let performanceMetrics := {|
    avgVisionScore := div (ofZ totalVisionScore) (ofZ totalGames);
    avgDamagePerMinute := div (ofZ totalDamage) totalGameTimeMinutes;
    avgGoldPerMinute := div (ofZ totalGold) totalGameTimeMinutes;
    avgCSPerMinute := div (ofZ totalCS) totalGameTimeMinutes
  |} in
  let scan := fold_left highlightStep matches highlightSeed in
  let highlightMatches := {|
    bestKDA := hs_bestKDA scan;
    mostKills := hs_mostKills scan;
    longestGame := hs_longestGame scan;
    highestDamage := hs_highestDamage scan
  |} in
  temporalTrends ← calculateTemporalTrends matches;
  let streaks := calculateStreaks matches in
  let roleDistribution := calculateRoleDistribution matches in
  Some {|
    overview := {|
      totalGames := totalGames;
      totalWins := totalWins;
      totalLosses := totalLosses;
      winRate := winRate;
      avgKDA := avgKDA;
      avgKills := avgKills;
      avgDeaths := avgDeaths;
      avgAssists := avgAssists;
      totalPlaytime := totalPlaytime
    |};
    championStats := championStats;
    temporalTrends := temporalTrends;
    performanceMetrics := performanceMetrics;
    streaks := streaks;
    roleDistribution := roleDistribution;
    highlightMatches := highlightMatches
  |}.
End Engine.

(** ** A concrete host: UTC and code-unit collation

    The calendar of [Date] for a host whose time zone is UTC, by the usual
    days-to-civil conversion on the proleptic Gregorian calendar, and a
    [localeCompare] that orders strings by their code units (what every
    collation gives on the zero-padded keys built here). *)

Definition civilFromDays (days : Z) : Z * Z * Z :=
  let z := days + 719468 in
  let era := z / 146097 in
  let doe := z - era * 146097 in
  let yoe := (doe - doe / 1460 + doe / 36524 - doe / 146096) / 365 in
  let doy := doe - (365 * yoe + yoe / 4 - yoe / 100) in
  let mp := (5 * doy + 2) / 153 in
  let d := doy - (153 * mp + 2) / 5 + 1 in
  let m := if mp <? 10 then mp + 3 else mp - 9 in
  (yoe + era * 400 + (if m <=? 2 then 1 else 0), m, d).

Definition daysFromCivil (y m d : Z) : Z :=
  let y := if m <=? 2 then y - 1 else y in
  let era := y / 400 in
  let yoe := y - era * 400 in
  let doy := (153 * (if 2 <? m then m - 3 else m + 9) + 2) / 5 + d - 1 in
  let doe := yoe * 365 + yoe / 4 - yoe / 100 + doy in
  era * 146097 + doe - 719468.

Definition utcHost : Host := {|
  getFullYear t := (civilFromDays (t / 86400000)).1.1;
  getMonth t := (civilFromDays (t / 86400000)).1.2 - 1;
  getDay t := (t / 86400000 + 4) mod 7;
  newDate year monthIndex day :=
    let year := if (0 <=? year) && (year <=? 99) then 1900 + year else year in
    daysFromCivil year (monthIndex + 1) day * 86400000;
  localeCompare a b :=
    match String.compare a b with
    | Lt => -1
    | Eq => 0
    | Gt => 1
    end
|}.

(** ** Auxiliary notions used to state the properties *)

(** The sum of a list of integers. *)
Definition sumZ (l : list Z) : Z := foldr Z.add 0 l.

(** The position of the first element of [l] whose key is [k]. *)
Definition firstAt {A K : Type} `{EqDecision K} (key : A → K) (k : K) (l : list A)
    : option nat :=
  fst <$> list_find (λ x, key x = k) l.

(** The position at which champion [id] is first encountered. *)
Definition firstSeenAt (id : Z) (matches : list MatchDetails) : option nat :=
  firstAt (λ m, championId (participant m)) id matches.

(** The relation decided by a comparator: [decides comparefn R x y] says
    that the verdict of [comparefn] on [x] and [y] agrees with [R]. *)
Definition decides {A : Type} (comparefn : A → A → number) (R : relation A) (x y : A)
    : Prop :=
  if gt (comparefn x y) (ofZ 0) then R y x else R x y.

(** The three loops that group matches (by champion, by month, by week)
    share one shape: create the entry of the key when it is missing,
    fetch it, update it. *)
Section Grouping.
Context {A K V : Type} `{EqDecision K}.
Context (key : A → K) (init : A → V) (upd : V → A → V).

Definition groupStep (m : Map K V) (x : A) : option (Map K V) :=
  let m := if negb (Map_has (key x) m) then Map_set (key x) (init x) m else m in
  stats ← Map_get (key x) m;
  Some (Map_set (key x) (upd stats x) m).

(** What a round does to the map. *)
Definition upsert (m : Map K V) (x : A) : Map K V :=
  Map_set (key x) (upd (default (init x) (Map_get (key x) m)) x) m.

(** The value a key must hold after the elements of [l]: the updates
    of the elements carrying the key, applied to the entry created at
    the first of them. *)
Definition groupValue (k : K) (l : list A) : option V :=
  match filter (λ x, key x = k) l with
  | [] => None
  | x :: g => Some (fold_left upd (x :: g) (init x))
  end.

(** The map built from an empty one by the elements of [l]. *)
Definition grouped (l : list A) : Map K V := fold_left upsert l [].
End Grouping.

(** The key of the champion loop, and the matches of one champion. *)
Definition championOf (match_ : MatchDetails) : Z := championId (participant match_).

Definition matchesOf (id : Z) (matches : list MatchDetails) : list MatchDetails :=
  filter (λ m, championOf m = id) matches.

(** [championMap] as the loop leaves it. *)
Definition championMapOf (matches : list MatchDetails) : Map Z ChampionAcc :=
  grouped championOf (λ m, newChampionAcc (participant m)) addMatch matches.

(** The month and week tables as the loops leave them. *)
Definition addToBucket (stats : Bucket) (match_ : MatchDetails) : Bucket := {|
  bk_games := bk_games stats + 1;
  bk_wins := if win (participant match_) then bk_wins stats + 1 else bk_wins stats
|}.

Definition bucketsOf (key : MatchDetails → string) (matches : list MatchDetails)
    : Map string Bucket :=
  grouped key (λ _, {| bk_games := 0; bk_wins := 0 |}) addToBucket matches.

(** A running maximum with a strict comparison: the score and the
    element that reached it. *)
Definition maxStep {A V : Type} (gtb : V → V → bool) (score : A → V)
    (s : V * option A) (x : A) : V * option A :=
  if gtb (score x) s.1 then (score x, Some x) else s.

Definition Qgtb (a b : Q) : bool := negb (Qle_bool a b).

Definition Zgtb (a b : Z) : bool := b <? a.

(** A finite binary64 value: a mantissa below [2^53] at an exponent
    from -1074 to 971. *)
Definition binary64 (r : Q) : Prop :=
  ∃ m e : Z, Z.abs m < 2 ^ 53 ∧ -1074 ≤ e ≤ 971 ∧ (r == inject_Z m * pow2 e)%Q.

(** [r] is a binary64 value nearest to [x]: what an operation of exact
    result [x] returns. *)
Definition nearest64 (x r : Q) : Prop :=
  binary64 r ∧ ∀ r', binary64 r' → (Qabs (r - x) <= Qabs (r' - x))%Q.

(** An integer that binary64 holds together with its neighbours. *)
Definition safeInteger (z : Z) : Prop := Z.abs z < 2 ^ 53.

(** A number that takes part in comparisons. *)
Definition ordered (n : number) : Prop := n ≠ NaN.

(** The month table before the best and worst months are picked. *)
Definition monthTable (host : Host) (matches : list MatchDetails) : list MonthlyData :=
  Array_sort (byMonth host)
    (toMonthlyData <$> bucketsOf (λ m, getMonthString host (gameCreation m)) matches).

Definition weekTable (host : Host) (matches : list MatchDetails) : list WeeklyData :=
  Array_sort (byWeek host)
    (toWeeklyData <$> bucketsOf (λ m, getWeekString host (gameCreation m)) matches).

(** The sum of a field over the matches. *)
Definition total (f : MatchDetails → Z) (matches : list MatchDetails) : Z :=
  sumZ (f <$> matches).

(** ** Sample data *)

(** A ranked match of champion [id] created at [t]. *)
Definition sampleMatch (t id : Z) (won : bool) (k d a duration damage : Z) : MatchDetails := {|
  matchId := "NA1_4881203345";
  gameCreation := t;
  gameDuration := duration;
  gameMode := "CLASSIC";
  queueId := 420;
  participant := {|
    puuid := "player";
    championId := id;
    championName := "Champion";
    kills := k;
    deaths := d;
    assists := a;
    win := won;
    visionScore := 20;
    totalDamageDealt := damage;
    goldEarned := 9000;
    totalMinionsKilled := 150;
    role := "SOLO";
    lane := "TOP";
    items := []
  |}
|}.

Definition sampleMastery (id level points : Z) : EnrichedMastery := {|
  em_championId := id;
  em_championName := "Champion";
  championLevel := level;
  championPoints := points;
  lastPlayTime := 0;
  championPointsSinceLastLevel := 0;
  championPointsUntilNextLevel := 0;
  chestGranted := false;
  tokensEarned := 0;
  summonerId := "summoner"
|}.

(** Two matches that lasted no time at all. *)
Definition zeroLengthMatches : list MatchDetails :=
  [sampleMatch 1705276800000 1 true 4 2 6 0 12000;
   sampleMatch 1705363200000 2 false 1 5 3 0 0].

(** A match as the data model describes it: no negative count. *)
Definition conforming (m : MatchDetails) : Prop :=
  0 ≤ kills (participant m) ∧ 0 ≤ deaths (participant m) ∧
  0 ≤ assists (participant m) ∧ 0 ≤ gameDuration m ∧
  0 ≤ totalDamageDealt (participant m).

(** [found] is the first of the elements of [l] that no other element
    beats: nothing precedes it with a score as good. *)
Definition firstMaximum {A V : Type} (gtb : V → V → bool) (score : A → V)
    (l : list A) (found : option A) : Prop :=
  match found with
  | None => l = []
  | Some b =>
      ∃ i : nat,
        l !! i = Some b ∧
        (∀ x, x ∈ l → gtb (score x) (score b) = false) ∧
        (∀ (j : nat) x, l !! j = Some x → (j < i)%nat → gtb (score b) (score x) = true)
  end.

(** [found] is the last of the elements of [l] that beats no other
    element: nothing follows it with a score as bad. *)
Definition lastMinimum {A V : Type} (gtb : V → V → bool) (score : A → V)
    (l : list A) (found : option A) : Prop :=
  match found with
  | None => l = []
  | Some w =>
      ∃ i : nat,
        l !! i = Some w ∧
        (∀ x, x ∈ l → gtb (score w) (score x) = false) ∧
        (∀ (j : nat) x, l !! j = Some x → (i < j)%nat → gtb (score x) (score w) = true)
  end.

(** Three matches, the last two sharing the highest kill count. *)
Definition tiedKills : list MatchDetails :=
  [sampleMatch 1705276800000 1 true 7 2 6 1800 12000;
   sampleMatch 1705363200000 2 false 9 5 3 1500 9000;
   sampleMatch 1705449600000 3 true 9 1 8 2100 15000].

(** The matches in chronological order, and their results. *)
Definition chronological (matches : list MatchDetails) : list MatchDetails :=
  Array_sort byCreationAsc matches.

Definition results (matches : list MatchDetails) : list bool :=
  (λ m, win (participant m)) <$> matches.

(** [l] holds [n] consecutive results [b]. *)
Definition isRun (b : bool) (n : nat) (l : list bool) : Prop :=
  ∃ before after, l = before ++ replicate n b ++ after.

(** The length of the run of [b] at the head of [l], and at its end. *)
Fixpoint leading (b : bool) (l : list bool) : nat :=
  match l with
  | x :: l' => if decide (x = b) then S (leading b l') else 0
  | [] => 0
  end.

Definition trailing (b : bool) (l : list bool) : nat := leading b (rev l).

(** The counters of the streak scan for the result [b]. *)
Definition currentOf (b : bool) (s : StreakScan) : Z :=
  if b then currentWinStreak s else currentLossStreak s.

Definition longestOf (b : bool) (s : StreakScan) : Z :=
  if b then scan_longestWinStreak s else scan_longestLossStreak s.

Definition streakSeed : StreakScan := {|
  scan_longestWinStreak := 0; scan_longestLossStreak := 0;
  currentWinStreak := 0; currentLossStreak := 0
|}.

(** Win, win, loss, win, handed over out of order. *)
Definition shuffledSeason : list MatchDetails :=
  [sampleMatch 1705449600000 1 false 2 7 3 1800 9000;
   sampleMatch 1705276800000 1 true 7 2 6 1800 12000;
   sampleMatch 1705536000000 2 true 9 1 8 2100 15000;
   sampleMatch 1705363200000 2 true 5 5 5 1500 9000].

(** The win rate of a month as a rational. *)
Definition rateOf (m : MonthlyData) : Q :=
  match md_winRate m with
  | Num q => q
  | _ => 0%Q
  end.

Definition isFinite (n : number) : bool :=
  match n with
  | Num _ => true
  | _ => false
  end.

Definition finiteRate (m : MonthlyData) : Prop := isFinite (md_winRate m) = true.

(** A month whose rate is a binary64 value. *)
Definition binaryRate (m : MonthlyData) : Prop :=
  ∃ q, md_winRate m = Num q ∧ binary64 q.

(** The months whose rate is that of [b]. *)
Definition sameRate (b m : MonthlyData) : Prop :=
  finiteRate m ∧ Qeq_bool (rateOf m) (rateOf b) = true.

#[global] Instance sameRate_dec (b m : MonthlyData) : Decision (sameRate b m).
Proof. unfold sameRate, finiteRate. apply _. Defined.

(** The comparator of a sort by win rate in ascending order. *)
Definition byWinRateAsc (a b : MonthlyData) : number :=
  sub (md_winRate a) (md_winRate b).

(** Five defeats in January 2024 and five in February 2024. *)
Definition tiedMonths : list MatchDetails :=
  [sampleMatch 1704445200000 1 false 2 7 3 1800 9000;
   sampleMatch 1704531600000 1 false 3 6 4 1750 9500;
   sampleMatch 1704618000000 2 false 1 8 2 1600 7000;
   sampleMatch 1704704400000 2 false 4 5 6 1900 11000;
   sampleMatch 1704790800000 1 false 0 9 1 1500 6000;
   sampleMatch 1707123600000 1 false 2 7 3 1800 9000;
   sampleMatch 1707210000000 3 false 3 6 4 1750 9500;
   sampleMatch 1707296400000 3 false 1 8 2 1600 7000;
   sampleMatch 1707382800000 2 false 4 5 6 1900 11000;
   sampleMatch 1707469200000 1 false 0 9 1 1500 6000].

(** Six matches in January 2024, four of them won, and three in
    February 2024, one of them won. *)
Definition januaryAndFebruary : list MatchDetails :=
  [sampleMatch 1704445200000 1 true 7 2 6 1800 12000;
   sampleMatch 1704531600000 1 true 8 3 5 1750 12500;
   sampleMatch 1704618000000 2 false 1 8 2 1600 7000;
   sampleMatch 1704704400000 2 true 9 1 6 1900 14000;
   sampleMatch 1704790800000 1 false 0 9 1 1500 6000;
   sampleMatch 1704877200000 1 true 6 2 9 2000 13000;
   sampleMatch 1707123600000 1 false 2 7 3 1800 9000;
   sampleMatch 1707210000000 3 true 9 2 4 1750 13500;
   sampleMatch 1707296400000 3 false 1 8 2 1600 7000].

(** ** Notions used by the further properties *)

(** The role under which a match is counted. *)
Definition roleOf (match_ : MatchDetails) : string :=
  if decide (role (participant match_) = "") then "UNKNOWN"
  else role (participant match_).

(** The names every object inherits from [Object.prototype]: read as
    keys of [roleMap] they would not answer [undefined]. *)
Definition objectPrototypeNames : list string :=
  ["constructor"; "toString"; "toLocaleString"; "valueOf"; "hasOwnProperty";
   "isPrototypeOf"; "propertyIsEnumerable"; "__proto__"; "__defineGetter__";
   "__defineSetter__"; "__lookupGetter__"; "__lookupSetter__"].

Definition ownRole (match_ : MatchDetails) : Prop :=
  roleOf match_ ∉ objectPrototypeNames.

(** The sum of the counts of a role table. *)
Definition mapSum (m : JSObject Z) : Z := foldr (λ entry acc, entry.2 + acc) 0 (Object_entries m).

(** The number of matches that satisfy [p]. *)
Definition countIf (p : MatchDetails → bool) (matches : list MatchDetails) : Z :=
  Z.of_nat (length (List.filter p matches)).

Definition won (match_ : MatchDetails) : bool := win (participant match_).

(** A finite number between 0 and 100. *)
Definition isPercentage (n : number) : Prop :=
  ∃ q, n = Num q ∧ (0 <= q)%Q ∧ (q <= 100)%Q.

(** [n] is the quotient of [a] by [b] as binary64 has it: a value
    nearest to the exact quotient. *)
Definition isQuotient (n : number) (a b : Z) : Prop :=
  ∃ q, n = Num q ∧ nearest64 (inject_Z a / inject_Z b) q.

(** [n] is the share of [w] in [g] as a percentage, in the two steps of
    the code: the quotient rounded, then its product with 100
    rounded. *)
Definition isPercentOf (n : number) (w g : Z) : Prop :=
  ∃ p q, nearest64 (inject_Z w / inject_Z g) p ∧ n = Num q ∧ nearest64 (p * 100) q.

(** [n] is a finite number within [2^-51] of [x], in proportion. *)
Definition isCloseTo (n : number) (x : Q) : Prop :=
  ∃ q, n = Num q ∧ (Qabs (q - x) <= pow2 (-51) * x)%Q.

(** The parts of the result on a non-empty match list. *)
Definition overviewOf (matches : list MatchDetails) : Overview :=
  let n := Z.of_nat (length matches) in {|
  totalGames := n;
  totalWins := countIf won matches;
  totalLosses := n - countIf won matches;
  winRate := mul (div (ofZ (countIf won matches)) (ofZ n)) (ofZ 100);
  avgKDA :=
    calculateKDA (total (λ m, kills (participant m)) matches)
      (total (λ m, deaths (participant m)) matches)
      (total (λ m, assists (participant m)) matches);
  avgKills := div (ofZ (total (λ m, kills (participant m)) matches)) (ofZ n);
  avgDeaths := div (ofZ (total (λ m, deaths (participant m)) matches)) (ofZ n);
  avgAssists := div (ofZ (total (λ m, assists (participant m)) matches)) (ofZ n);
  totalPlaytime := div (ofZ (total gameDuration matches)) (ofZ 3600)
|}.

Definition championStatsOf (matches : list MatchDetails)
    (masteries : list EnrichedMastery) : list ChampionStat :=
  Array_sort byGamesDesc
    (toChampionStat (buildMasteryMap masteries) <$> Map_values (championMapOf matches)).

Definition trendsOf (host : Host) (matches : list MatchDetails) : TemporalTrends :=
  let sortedByWinRate := Array_sort byWinRateDesc (significant (monthTable host matches)) in {|
  monthlyWinRate := monthTable host matches;
  weeklyPerformance := weekTable host matches;
  bestMonth := from_option month "" (head sortedByWinRate);
  worstMonth := from_option month "" (last sortedByWinRate)
|}.

Definition performanceOf (matches : list MatchDetails) : PerformanceMetrics :=
  let minutes := div (ofZ (total gameDuration matches)) (ofZ 60) in {|
  avgVisionScore :=
    div (ofZ (total (λ m, visionScore (participant m)) matches))
      (ofZ (Z.of_nat (length matches)));
  avgDamagePerMinute :=
    div (ofZ (total (λ m, totalDamageDealt (participant m)) matches)) minutes;
  avgGoldPerMinute := div (ofZ (total (λ m, goldEarned (participant m)) matches)) minutes;
  avgCSPerMinute :=
    div (ofZ (total (λ m, totalMinionsKilled (participant m)) matches)) minutes
|}.

Definition highlightsOf (matches : list MatchDetails) : HighlightMatches :=
  let scan := fold_left highlightStep matches highlightSeed in {|
  bestKDA := hs_bestKDA scan;
  mostKills := hs_mostKills scan;
  longestGame := hs_longestGame scan;
  highestDamage := hs_highestDamage scan
|}.

(** A match with an empty role label and two with one. *)
Definition sampleRoles : list MatchDetails :=
  [{| matchId := "NA1_4881203345"; gameCreation := 1705276800000; gameDuration := 1800;
      gameMode := "CLASSIC"; queueId := 420;
      participant := {|
        puuid := "player"; championId := 1; championName := "Annie";
        kills := 7; deaths := 2; assists := 6; win := true; visionScore := 20;
        totalDamageDealt := 12000; goldEarned := 9000; totalMinionsKilled := 150;
        role := ""; lane := "MIDDLE"; items := [] |} |};
   sampleMatch 1705363200000 2 false 9 5 3 1500 9000;
   sampleMatch 1705449600000 3 true 9 1 8 2100 15000].

(** The month and the week in which a match falls. *)
Definition monthOf (host : Host) (match_ : MatchDetails) : string :=
  getMonthString host (gameCreation match_).

Definition weekOf (host : Host) (match_ : MatchDetails) : string :=
  getWeekString host (gameCreation match_).

(** The matches that fall under the key [k]. *)
Definition under (key : MatchDetails → string) (k : string) (matches : list MatchDetails)
    : list MatchDetails :=
  filter (λ m, key m = k) matches.

(** What holds of every row of a table built from the buckets of
    [key]: [row] is the key, the games, the wins, the losses and the
    rate of an entry. *)
Definition rowOf (key : MatchDetails → string) (matches : list MatchDetails)
    (row : string * Z * Z * Z * number) : Prop :=
  let '(k, games, wins, losses, rate) := row in
  under key k matches ≠ [] ∧
  games = Z.of_nat (length (under key k matches)) ∧
  wins = countIf won (under key k matches) ∧
  losses = games - wins ∧ 0 ≤ wins ∧ 0 ≤ losses ∧
  isPercentage rate ∧ isPercentOf rate wins games.

(** A comparison that orders the strings: it is never positive both
    ways, and "not after" is transitive. *)
Definition consistentCompare (host : Host) : Prop :=
  (∀ a b, 0 < localeCompare host a b → localeCompare host b a ≤ 0) ∧
  (∀ a b c, localeCompare host a b ≤ 0 → localeCompare host b c ≤ 0 →
            localeCompare host a c ≤ 0).

(** The two-character rendering of a number below 100. *)
Definition twoDigits (z : Z) : string := padStart 2 "0"%char (String_ z).

(** The week number computed by [getWeekString], in integers: the
    milliseconds since the first day of the year, shifted by that day's
    weekday and one day, counted in started weeks. *)
Definition weekNumber (host : Host) (timestamp : Z) : Z :=
  let firstDayOfYear := newDate host (getFullYear host timestamp) 0 1 in
  (timestamp - firstDayOfYear + (getDay host firstDayOfYear + 1) * 86400000
   + 604800000 - 1) / 604800000.

(** ** The consumers of the analytics

    [generateFallbackInsights] (the insights served when the model
    call fails) and [getAnalyticsSummary] (analytics-example.ts) read a
    [PlayerAnalytics] and print it.  The digits of a number are the
    host's: [toFixed] is a parameter of both. *)

Record AIInsights : Type := {
  summary : string;
  strengths : list string;
  weaknesses : list string;
  improvementAreas : list string;
  coachingTips : list string;
  roast : string;
  boast : string;
  hiddenGems : list string;
  yearInReview : string;
  shareableQuote : string
}.

Record TopChampion : Type := {
  top_name : string;
  top_games : Z;
  top_winRate : string;
  top_kda : string;
  top_masteryLevel : option Z
}.

Record AnalyticsSummary : Type := {
  sum_totalGames : Z;
  sum_winRate : string;
  sum_kda : string;
  sum_playtime : string;
  topChampions : list TopChampion;
  bestStreak : string;
  worstStreak : string;
  sum_currentStreak : string;
  sum_bestMonth : string;
  sum_worstMonth : string
}.

(** [a < b]: false as soon as one side is [NaN]. *)
Definition less (a b : number) : bool := gt b a.

(** [l.push(x)]. *)
Definition push {A : Type} (l : list A) (x : A) : list A := l ++ [x].

(** [while (cond) body], given up after [fuel] turns. *)
Fixpoint while {S : Type} (fuel : nat) (cond : S → bool) (body : S → S) (s : S) : option S :=
  if cond s then
    match fuel with
    | O => None
    | Datatypes.S fuel' => while fuel' cond body (body s)
    end
  else Some s.

(** The streak type as the string it is. *)
Definition typeName (t : StreakType) : string :=
  match t with
  | Win => "win"
  | Loss => "loss"
  end.

(** [championStats[0]?.championName || 'your favorite champion']. *)
Definition topChampOf (championStats : list ChampionStat) : string :=
  match head championStats with
  | Some c =>
      if decide (cs_championName c = "") then "your favorite champion"
      else cs_championName c
  | None => "your favorite champion"
  end.

(** [championStats[0]?.games || 0]. *)
Definition topChampGamesOf (championStats : list ChampionStat) : Z :=
  match head championStats with
  | Some c => if decide (cs_games c = 0) then 0 else cs_games c
  | None => 0
  end.

Section Insights.
Variable toFixed : number → nat → string.

(** The strengths pushed before the padding loop. *)
Definition earnedStrengths (analytics : PlayerAnalytics) : list string :=
  let o := overview analytics in
  let cs := championStats analytics in
  let pm := performanceMetrics analytics in
  let st := streaks analytics in
  let winRate := winRate o in
  let kda := avgKDA o in
  let topChamp := topChampOf cs in
  let strengths : list string := [] in
  let strengths :=
    if gt winRate (ofZ 52)
    then push strengths
           ("Strong " +:+ toFixed winRate 1 +:+ "% win rate shows consistent performance")
    else strengths in
  let strengths :=
    if gt kda (ofZ 3)
    then push strengths
           ("Excellent " +:+ toFixed kda 2 +:+ " KDA demonstrates good decision-making")
    else strengths in
  let strengths :=
    if 5 <=? longestWinStreak st
    then push strengths
           ("Impressive " +:+ String_ (longestWinStreak st) +:+ "-game win streak shows momentum")
    else strengths in
  let strengths :=
    if gt (avgVisionScore pm) (ofZ 40)
    then push strengths "Good vision control with strong ward placement"
    else strengths in
  match head cs with
  | Some c =>
      if gt (cs_winRate c) (ofZ 55)
      then push strengths
             ("Dominant on " +:+ topChamp +:+ " with " +:+ toFixed (cs_winRate c) 1 +:+
              "% win rate")
      else strengths
  | None => strengths
  end.

(** One turn of the loop that fills the strengths up. *)
Definition strengthFiller (topChamp : string) (topChampGames : Z)
    (strengths : list string) : list string :=
  if decide (length strengths = 0%nat)
  then push strengths "Consistent gameplay throughout the season"
  else if decide (length strengths = 1%nat)
  then push strengths "Team-oriented playstyle"
  else push strengths
         ("Dedicated " +:+ topChamp +:+ " player with " +:+ String_ topChampGames +:+ " games").

(** The weaknesses pushed before the padding loop. *)
Definition earnedWeaknesses (analytics : PlayerAnalytics) : list string :=
  let o := overview analytics in
  let pm := performanceMetrics analytics in
  let st := streaks analytics in
  let winRate := winRate o in
  let weaknesses : list string := [] in
  let weaknesses :=
    if less winRate (ofZ 48)
    then push weaknesses "Win rate below 50% indicates room for improvement"
    else weaknesses in
  let weaknesses :=
    if gt (avgDeaths o) (ofZ 6)
    then push weaknesses
           ("High death average (" +:+ toFixed (avgDeaths o) 1 +:+
            ") suggests positioning issues")
    else weaknesses in
  let weaknesses :=
    if less (avgVisionScore pm) (ofZ 30)
    then push weaknesses "Low vision score - need more ward placement"
    else weaknesses in
  let weaknesses :=
    if less (avgCSPerMinute pm) (ofZ 5)
    then push weaknesses
           ("CS/min of " +:+ toFixed (avgCSPerMinute pm) 1 +:+ " needs improvement")
    else weaknesses in
  if 5 <=? longestLossStreak st
  then push weaknesses
         (String_ (longestLossStreak st) +:+ "-game loss streak shows tilt issues")
  else weaknesses.

(** One turn of the loop that fills the weaknesses up. *)
Definition weaknessFiller (weaknesses : list string) : list string :=
  if decide (length weaknesses = 0%nat)
  then push weaknesses "Champion pool could be more diverse"
  else if decide (length weaknesses = 1%nat)
  then push weaknesses "Objective control needs attention"
  else push weaknesses "Map awareness could be improved".

Definition generateFallbackInsights (fuel : nat) (analytics : PlayerAnalytics)
    : option AIInsights :=
  let o := overview analytics in
  let cs := championStats analytics in
  let tt := temporalTrends analytics in
  let pm := performanceMetrics analytics in
  let st := streaks analytics in
  let winRate := winRate o in
  let kda := avgKDA o in
  let topChamp := topChampOf cs in
  let topChampGames := topChampGamesOf cs in
  let totalHours := totalPlaytime o in
  strengths ← while fuel (λ s, (length s <? 3)%nat) (strengthFiller topChamp topChampGames)
                (earnedStrengths analytics);
  weaknesses ← while fuel (λ w, (length w <? 3)%nat) weaknessFiller
                 (earnedWeaknesses analytics);
  let improvementAreas := [
    if gt (avgDeaths o) (ofZ 5)
    then "Reduce deaths by improving positioning and map awareness"
    else "Optimize champion pool for current meta";
    if less (avgVisionScore pm) (ofZ 35)
    then "Increase vision score through consistent warding"
    else "Improve CS efficiency in lane";
    if less winRate (ofZ 50)
    then "Focus on win conditions and objective control"
    else "Expand champion pool for flexibility"
  ] in
  let coachingTips := [
    "Focus on your best champions - " +:+ topChamp +:+ " has been your most successful";
    if less (avgVisionScore pm) (ofZ 35)
    then "Buy control wards every back and place them in high-traffic areas"
    else "Maintain your strong vision control to enable team plays";
    if gt (avgDeaths o) (ofZ 5)
    then "Review deaths in replays to identify positioning mistakes"
    else "Continue your disciplined playstyle with low deaths";
    if less (avgCSPerMinute pm) (ofZ 6)
    then "Practice last-hitting in practice tool to improve CS/min"
    else "Your CS is solid - focus on translating farm leads into objectives";
    if 4 <=? longestLossStreak st
    then "Take breaks after 2 losses to avoid tilt and maintain mental"
    else "Keep your mental strong and focus on improvement over wins"
  ] in
  let roast :=
    if gt (avgDeaths o) (ofZ 7)
    then toFixed (avgDeaths o) 1 +:+
         " deaths per game? The enemy team should send you a thank-you card for all that gold."
    else if 7 <=? longestLossStreak st
    then "A " +:+ String_ (longestLossStreak st) +:+
         "-game loss streak? Even your keyboard wanted to uninstall."
    else if less winRate (ofZ 45)
    then "With a " +:+ toFixed winRate 0 +:+
         "% win rate, you're giving the enemy team more LP than your own team."
    else if less (avgCSPerMinute pm) (ofZ 4)
    then toFixed (avgCSPerMinute pm) 1 +:+
         " CS/min? The minions are farming you at this point."
    else "Your performance is decent, but we both know you can do better. Time to step it up!" in
  let boast :=
    if gt winRate (ofZ 55)
    then toFixed winRate 0 +:+
         "% win rate? You're not just climbing, you're taking the elevator!"
    else if 7 <=? longestWinStreak st
    then "A " +:+ String_ (longestWinStreak st) +:+
         "-game win streak! You were absolutely unstoppable during that run."
    else if gt kda (ofZ 4)
    then toFixed kda 2 +:+ " KDA is seriously impressive. You're playing like a pro!"
    else
      match head cs with
      | Some c =>
          if gt (cs_winRate c) (ofZ 60)
          then toFixed (cs_winRate c) 0 +:+ "% win rate on " +:+ topChamp +:+
               "? You've mastered that champion!"
          else String_ (totalGames o) +:+
               " games shows real dedication. Keep grinding and the results will come!"
      | None =>
          String_ (totalGames o) +:+
          " games shows real dedication. Keep grinding and the results will come!"
      end in
  let hiddenGems :=
    cs_championName <$>
      take 2 (List.filter
                (λ c, (5 <=? cs_games c) && (cs_games c <=? 20) && gt (cs_winRate c) (ofZ 55))
                cs) in
  let yearInReview :=
    "This year you played " +:+ String_ (totalGames o) +:+ " ranked games over " +:+
    toFixed totalHours 0 +:+ " hours, with " +:+ topChamp +:+
    " as your most-played champion (" +:+ String_ topChampGames +:+ " games). Your " +:+
    toFixed winRate 1 +:+ "% win rate and " +:+ toFixed kda 2 +:+ " KDA demonstrate " +:+
    (if gt winRate (ofZ 50) then "solid climbing potential" else "room for growth") +:+
    ". " +:+
    (if decide (bestMonth tt = "") then ""
     else "Your best month was " +:+ bestMonth tt +:+ ", where you really hit your stride.") +:+
    " " +:+
    (if 5 <=? longestWinStreak st
     then "Your " +:+ String_ (longestWinStreak st) +:+
          "-game win streak was a highlight of the season!"
     else "") in
  let shareableQuote :=
    String_ (totalGames o) +:+ " ranked games, " +:+ toFixed winRate 0 +:+ "% WR, " +:+
    toFixed kda 1 +:+ " KDA on " +:+ topChamp +:+ ". My Rift Rewind 2025! 🎮⚔️" in
  Some {|
    summary := yearInReview;
    strengths := take 3 strengths;
    weaknesses := take 3 weaknesses;
    improvementAreas := improvementAreas;
    coachingTips := coachingTips;
    roast := roast;
    boast := boast;
    hiddenGems := hiddenGems;
    yearInReview := yearInReview;
    shareableQuote := shareableQuote
  |}.

Definition toTopChampion (champ : ChampionStat) : TopChampion := {|
  top_name := cs_championName champ;
  top_games := cs_games champ;
  top_winRate := toFixed (cs_winRate champ) 1 +:+ "%";
  top_kda := toFixed (cs_avgKDA champ) 2;
  top_masteryLevel := masteryLevel champ
|}.

Definition getAnalyticsSummary (analytics : PlayerAnalytics) : AnalyticsSummary :=
  let o := overview analytics in
  let st := streaks analytics in
  let tt := temporalTrends analytics in {|
  sum_totalGames := totalGames o;
  sum_winRate := toFixed (winRate o) 1 +:+ "%";
  sum_kda := toFixed (avgKDA o) 2;
  sum_playtime := toFixed (totalPlaytime o) 1 +:+ " hours";
  topChampions := toTopChampion <$> take 3 (championStats analytics);
  bestStreak := String_ (longestWinStreak st) +:+ " wins";
  worstStreak := String_ (longestLossStreak st) +:+ " losses";
  sum_currentStreak :=
    String_ (count (currentStreak st)) +:+ " " +:+ typeName (type (currentStreak st)) +:+
    (if decide (count (currentStreak st) = 1) then "" else "s");
  sum_bestMonth := bestMonth tt;
  sum_worstMonth := worstMonth tt
|}.
End Insights.

(** [x.toFixed(f)] on a number of magnitude below [10^21]: the digits
    of the integer nearest to [x * 10^f], the larger one of two, with
    the point before the last [f] of them; the sign of a negative [x]
    in front.  The non-finite values print their names. *)
Definition toFixed_exact (x : number) (f : nat) : string :=
  match x with
  | NaN => "NaN"
  | Infinity => "Infinity"
  | NegInfinity => "-Infinity"
  | Num q =>
      let a := if Qle_bool 0 q then q else (- q)%Q in
      let n := Qfloor (a * inject_Z (10 ^ Z.of_nat f) + (1 # 2))%Q in
      let m := padStart (Datatypes.S f) "0"%char (String_ n) in
      let k := (String.length m - f)%nat in
      (if Qle_bool 0 q then "" else "-") +:+
      (if decide (f = 0%nat) then m
       else String.substring 0 k m +:+ "." +:+ String.substring k f m)
  end.

(** A season of eight matches on one champion, seven of them won. *)
Definition goodSeason : list MatchDetails :=
  [sampleMatch 1704103200000 222 true 10 2 8 1800 25000;
   sampleMatch 1704189600000 222 true 7 1 9 1700 21000;
   sampleMatch 1704276000000 222 true 12 3 4 2000 30000;
   sampleMatch 1704362400000 222 true 6 2 11 1900 19000;
   sampleMatch 1704448800000 222 true 9 0 7 1500 23000;
   sampleMatch 1704535200000 222 false 3 6 2 2100 15000;
   sampleMatch 1704621600000 222 true 8 2 6 1850 22000;
   sampleMatch 1704708000000 222 true 11 4 5 1950 27000].

(** ** The chart labels (TemporalChart)

    [formatMonth] reads back the month keys of the trend tables. *)

(** [s.split(c)] for a one-character separator. *)
Fixpoint split (c : Ascii.ascii) (s : string) : list string :=
  match s with
  | EmptyString => [EmptyString]
  | String a s' =>
      if Ascii.eqb a c then EmptyString :: split c s'
      else
        match split c s' with
        | p :: ps => String a p :: ps
        | [] => [String a EmptyString]
        end
  end.

(** Does [c] occur in [s]? *)
Fixpoint occurs (c : Ascii.ascii) (s : string) : bool :=
  match s with
  | EmptyString => false
  | String a s' => Ascii.eqb a c || occurs c s'
  end.

(** The white space [parseInt] skips, as far as it is ASCII. *)
Definition isWhiteSpace (a : Ascii.ascii) : bool :=
  let n := Ascii.nat_of_ascii a in
  ((9 <=? n) && (n <=? 13) || (n =? 32))%nat.

Fixpoint trimStart (s : string) : string :=
  match s with
  | EmptyString => EmptyString
  | String a s' => if isWhiteSpace a then trimStart s' else s
  end.

(** The value of a digit: [0-9], then the letters in either case. *)
Definition digitValue (a : Ascii.ascii) : option Z :=
  let n := Z.of_nat (Ascii.nat_of_ascii a) in
  if (48 <=? n) && (n <=? 57) then Some (n - 48)
  else if (97 <=? n) && (n <=? 122) then Some (n - 87)
  else if (65 <=? n) && (n <=? 90) then Some (n - 55)
  else None.

(** The value of the longest prefix of [s] made of digits of the radix
    [R], if there is a digit at all. *)
Fixpoint digitsValue (R : Z) (s : string) (acc : option Z) : option Z :=
  match s with
  | EmptyString => acc
  | String a s' =>
      match digitValue a with
      | Some d =>
          if d <? R then digitsValue R s' (Some (default 0 acc * R + d)) else acc
      | None => acc
      end
  end.

(** [parseInt(s)] without a radix, on ASCII strings: white space, a
    sign, a [0x] prefix for radix 16, then the digits, whose value is
    rounded to binary64; [NaN] without a digit. *)
Definition parseInt (s : string) : number :=
  let trimmed := trimStart s in
  let '(sign, unsigned) :=
    match trimmed with
    | String "-" r => (-1, r)
    | String "+" r => (1, r)
    | _ => (1, trimmed)
    end in
  let '(R, digits) :=
    match unsigned with
    | String "0" (String "x" r) => (16, r)
    | String "0" (String "X" r) => (16, r)
    | _ => (10, unsigned)
    end in
  match digitsValue R digits None with
  | Some z => round64 (inject_Z (sign * z))
  | None => NaN
  end.

(** [l[i]] for a number [i]: an element for an index in range,
    [undefined] for every other number. *)
Definition Array_at {A : Type} (l : list A) (i : number) : option A :=
  match i with
  | Num q =>
      if Pos.eqb (Qden q) 1 && (0 <=? Qnum q) then l !! Z.to_nat (Qnum q) else None
  | _ => None
  end.

Definition monthNames : list string :=
  ["Jan"; "Feb"; "Mar"; "Apr"; "May"; "Jun"; "Jul"; "Aug"; "Sep"; "Oct"; "Nov"; "Dec"].

Definition formatMonth (monthStr : string) : string :=
  let parts := split "-" monthStr in
  let year := default "undefined" (parts !! 0%nat) in
  let month := default "undefined" (parts !! 1%nat) in
  default "undefined" (Array_at monthNames (sub (parseInt month) (ofZ 1))) +:+ " " +:+ year.

(** Proof steps for strings read one character at a time. *)
Ltac read_digit :=
  cbn [NilEmpty.string_of_uint digitsValue];
  match goal with
  | |- context [digitValue ?c] =>
      let v := eval vm_compute in (digitValue c) in change (digitValue c) with v
  end;
  cbv iota beta;
  match goal with
  | |- context [?d <? 10] => change (d <? 10) with true
  end;
  cbv iota.

Ltac skip_space :=
  cbn [NilEmpty.string_of_uint trimStart];
  match goal with
  | |- context [isWhiteSpace ?c] =>
      let v := eval vm_compute in (isWhiteSpace c) in change (isWhiteSpace c) with v
  end;
  cbv iota.

(** * Binary64 rounding *)

Section Rounding.
Local Open Scope Q_scope.

Lemma pow2_pos (e : Z) : 0 < pow2 e.
Proof. apply Qpower_0_lt. reflexivity. Qed.

Lemma pow2_add (a b : Z) : pow2 (a + b) == pow2 a * pow2 b.
Proof. apply Qpower_plus. discriminate. Qed.

Lemma pow2_sub (a b : Z) : pow2 (a - b) == pow2 a / pow2 b.
Proof. apply Qpower_minus. discriminate. Qed.

Lemma pow2_le (a b : Z) : (a <= b)%Z → pow2 a <= pow2 b.
Proof. intros H. apply Qpower_le_compat_l; [exact H|discriminate]. Qed.

Lemma pow2_lt (a b : Z) : (a < b)%Z → pow2 a < pow2 b.
Proof. intros H. apply Qpower_lt_compat_l; [exact H|reflexivity]. Qed.

Lemma pow2_le_inv (a b : Z) : pow2 a <= pow2 b → (a <= b)%Z.
Proof. intros H. apply (Qpower_le_compat_l_inv 2); [exact H|reflexivity]. Qed.

Lemma pow2_lt_inv (a b : Z) : pow2 a < pow2 b → (a < b)%Z.
Proof. intros H. apply (Qpower_lt_compat_l_inv 2); [exact H|reflexivity]. Qed.

Lemma pow2_Z (e : Z) : (0 <= e)%Z → pow2 e == inject_Z (2 ^ e).
Proof. intros H. unfold pow2. by rewrite Zpower_Qpower. Qed.

Lemma Z_pow2 (e : Z) : (0 <= e)%Z → inject_Z (2 ^ e) == pow2 e.
Proof. intros H. by rewrite pow2_Z. Qed.

Lemma pow2_0 : pow2 0 == 1.
Proof. reflexivity. Qed.

Lemma div_pow2 (a : Q) (e : Z) : a / pow2 e * pow2 e == a.
Proof. field. pose proof (pow2_pos e). lra. Qed.

Lemma Qdiv_lt_div (x y z w : Q) : 0 < y → 0 < w → x * w < z * y → x / y < z / w.
Proof.
  intros Hy Hw H. apply Qlt_shift_div_l; [done|].
  assert (Heq : x / y * w == x * w / y) by (field; lra).
  rewrite Heq. by apply Qlt_shift_div_r.
Qed.

(** [ilog2 q] is the integer part of the binary logarithm. *)
Lemma ilog2_spec (q : Q) : 0 < q → pow2 (ilog2 q) <= q ∧ q < pow2 (ilog2 q + 1).
Proof.
  intros Hq. destruct q as [n d]. unfold ilog2. cbn [Qnum Qden].
  assert (Hn : (0 < n)%Z) by (unfold Qlt in Hq; simpl in Hq; lia).
  set (a := Z.log2 n). set (b := Z.log2 (Z.pos d)).
  destruct (Z.log2_spec n Hn) as [Hn1 Hn2]. fold a in Hn1, Hn2.
  destruct (Z.log2_spec (Z.pos d) eq_refl) as [Hd1 Hd2]. fold b in Hd1, Hd2.
  assert (Ha : (0 <= a)%Z) by apply Z.log2_nonneg.
  assert (Hb : (0 <= b)%Z) by apply Z.log2_nonneg.
  assert (Hq' : n # d == inject_Z n / inject_Z (Z.pos d)) by apply Qmake_Qdiv.
  assert (Hdpos : 0 < inject_Z (Z.pos d)) by reflexivity.
  assert (Hn1' : pow2 a <= inject_Z n) by (rewrite pow2_Z by lia; by rewrite <-Zle_Qle).
  assert (Hn2' : inject_Z n < pow2 (a + 1)) by (rewrite pow2_Z by lia; by rewrite <-Zlt_Qlt).
  assert (Hd1' : pow2 b <= inject_Z (Z.pos d)) by (rewrite pow2_Z by lia; by rewrite <-Zle_Qle).
  assert (Hd2' : inject_Z (Z.pos d) < pow2 (b + 1))
    by (rewrite pow2_Z by lia; by rewrite <-Zlt_Qlt).
  pose proof (pow2_pos a). pose proof (pow2_pos b).
  pose proof (pow2_pos (a + 1)). pose proof (pow2_pos (b + 1)).
  assert (Hlow : pow2 (a - b - 1) < n # d).
  { rewrite Hq'. replace (a - b - 1)%Z with (a - (b + 1))%Z by lia.
    rewrite pow2_sub. apply Qdiv_lt_div; [done|done|nra]. }
  assert (Hhigh : n # d < pow2 (a - b + 1)).
  { rewrite Hq'. replace (a - b + 1)%Z with (a + 1 - b)%Z by lia.
    rewrite pow2_sub. apply Qdiv_lt_div; [done|done|nra]. }
  destruct (Qle_bool (pow2 (a - b)) (n # d)) eqn:E.
  - apply Qle_bool_iff in E. split; [done|done].
  - assert (Hlt : n # d < pow2 (a - b)).
    { apply Qnot_le_lt. intros Hle. apply Qle_bool_iff in Hle. congruence. }
    split; [by apply Qlt_le_weak|]. by replace (a - b - 1 + 1)%Z with (a - b)%Z by lia.
Qed.

Lemma ilog2_unique (q : Q) (k : Z) : pow2 k <= q → q < pow2 (k + 1) → ilog2 q = k.
Proof.
  intros H1 H2.
  assert (Hq : 0 < q) by (pose proof (pow2_pos k); lra).
  destruct (ilog2_spec q Hq) as [H3 H4].
  assert (pow2 k < pow2 (ilog2 q + 1)) by lra.
  assert (pow2 (ilog2 q) < pow2 (k + 1)) by lra.
  apply pow2_lt_inv in H, H0. lia.
Qed.

(** *** Rounding to the nearest integer *)

Lemma roundHalfEven_cases (x : Q) :
  let f := Qfloor x in
  (roundHalfEven x = f ∧ x - inject_Z f <= 1 # 2) ∨
  (roundHalfEven x = (f + 1)%Z ∧ 1 # 2 <= x - inject_Z f).
Proof.
  cbv zeta. unfold roundHalfEven.
  destruct (Qcompare_spec (x - inject_Z (Qfloor x)) (1 # 2)) as [H|H|H].
  - destruct (Z.even _); [left|right]; (split; [reflexivity|lra]).
  - left. split; [reflexivity|lra].
  - right. split; [reflexivity|lra].
Qed.

Lemma roundHalfEven_nearest (x : Q) (z : Z) :
  Qabs (inject_Z (roundHalfEven x) - x) <= Qabs (inject_Z z - x).
Proof.
  pose proof (Qfloor_le x) as Hlo. pose proof (Qlt_floor x) as Hhi.
  rewrite inject_Z_plus in Hhi. change (inject_Z 1) with 1 in Hhi.
  assert (Hz : (z <= Qfloor x)%Z ∨ (Qfloor x + 1 <= z)%Z) by lia.
  assert (Hz' : inject_Z z <= inject_Z (Qfloor x) ∨ inject_Z (Qfloor x) + 1 <= inject_Z z).
  { destruct Hz as [Hz|Hz]; [left|right].
    - by rewrite <-Zle_Qle.
    - rewrite <-(inject_Z_plus _ 1). by rewrite <-Zle_Qle. }
  destruct (roundHalfEven_cases x) as [[-> H]|[-> H]].
  - apply Qabs_case; intros; apply Qabs_case; intros; destruct Hz'; lra.
  - rewrite inject_Z_plus. change (inject_Z 1) with 1.
    apply Qabs_case; intros; apply Qabs_case; intros; destruct Hz'; lra.
Qed.

Lemma roundHalfEven_Z (z : Z) : roundHalfEven (inject_Z z) = z.
Proof.
  unfold roundHalfEven. rewrite Qfloor_Z.
  destruct (Qcompare_spec (inject_Z z - inject_Z z) (1 # 2)) as [H|H|H]; [lra|done|lra].
Qed.

Lemma roundHalfEven_ge (x : Q) (z : Z) : inject_Z z <= x → (z <= roundHalfEven x)%Z.
Proof.
  intros H. apply Qfloor_resp_le in H. rewrite Qfloor_Z in H.
  destruct (roundHalfEven_cases x) as [[-> _]|[-> _]]; lia.
Qed.

Lemma roundHalfEven_le (x : Q) (z : Z) : x <= inject_Z z → (roundHalfEven x <= z)%Z.
Proof.
  intros H. destruct (Qle_lt_or_eq _ _ H) as [Hlt|Heq].
  - assert (Hf : (Qfloor x < z)%Z).
    { rewrite Zlt_Qlt. pose proof (Qfloor_le x). lra. }
    destruct (roundHalfEven_cases x) as [[-> _]|[-> _]]; lia.
  - assert (Hf : Qfloor x = z) by (rewrite Heq; apply Qfloor_Z).
    destruct (roundHalfEven_cases x) as [[-> _]|[_ Hhalf]]; [lia|].
    rewrite Hf in Hhalf. lra.
Qed.


(** *** Rounding to binary64 *)

Lemma roundHalfEven_small (y : Q) : 0 <= y → y < 1 # 2 → roundHalfEven y = 0%Z.
Proof.
  intros H0 H1. pose proof (Qfloor_le y) as Hf.
  assert (Hf0 : (0 <= Qfloor y)%Z).
  { change 0 with (inject_Z 0) in H0. apply Qfloor_resp_le in H0.
    by rewrite Qfloor_Z in H0. }
  assert (Hf1 : (Qfloor y < 1)%Z) by (rewrite Zlt_Qlt; change (inject_Z 1) with 1; lra).
  assert (Hfy : Qfloor y = 0%Z) by lia.
  destruct (roundHalfEven_cases y) as [[-> _]|[_ Hhalf]]; [done|].
  rewrite Hfy in Hhalf. change (inject_Z 0) with 0 in Hhalf. lra.
Qed.

(** What the rounding of a positive number is made of. *)
Lemma roundPos_parts (a : Q) :
  0 < a →
  let L := ilog2 a in
  let e := ulpExponent a in
  let n := roundHalfEven (a / pow2 e) in
  (-1074 <= e)%Z ∧ (L - 52 <= e)%Z ∧ (e = (L - 52)%Z ∨ e = (-1074)%Z) ∧
  (0 <= n)%Z ∧ (n <= 2 ^ 53)%Z ∧
  inject_Z n <= pow2 (L + 1 - e) ∧
  ((e <= L)%Z → (2 ^ (L - e) <= n)%Z) ∧
  roundPos a == inject_Z n * pow2 e.
Proof.
  intros Ha. cbv zeta. destruct (ilog2_spec a Ha) as [Hlo Hhi].
  set (L := ilog2 a) in *. unfold roundPos, ulpExponent. fold L.
  set (e := Z.max (L - 52) (-1074)).
  assert (He1 : (-1074 <= e)%Z) by lia.
  assert (He2 : (L - 52 <= e)%Z) by lia.
  assert (He3 : e = (L - 52)%Z ∨ e = (-1074)%Z) by lia.
  pose proof (pow2_pos e) as Hpe.
  assert (Hy : a / pow2 e < pow2 (L + 1 - e)).
  { rewrite pow2_sub. apply Qdiv_lt_div; [done|done|]. nra. }
  assert (Hy0 : 0 <= a / pow2 e) by (apply Qle_shift_div_l; [done|lra]).
  split_and!; try done.
  - apply roundHalfEven_ge. by change (inject_Z 0) with 0.
  - apply roundHalfEven_le. rewrite (Z_pow2 53) by lia.
    pose proof (pow2_le (L + 1 - e) 53 ltac:(lia)). lra.
  - destruct (decide (0 <= L + 1 - e)%Z) as [Hk|Hk].
    + rewrite <-(Z_pow2 (L + 1 - e)) by lia. rewrite <-Zle_Qle.
      apply roundHalfEven_le. rewrite (Z_pow2 (L + 1 - e)) by lia. by apply Qlt_le_weak.
    + rewrite roundHalfEven_small; [apply Qlt_le_weak, pow2_pos|done|].
      pose proof (pow2_le (L + 1 - e) (-1) ltac:(lia)).
      assert (pow2 (-1) == 1 # 2) by reflexivity. lra.
  - intros HeL. apply roundHalfEven_ge. rewrite (Z_pow2 (L - e)) by lia.
    rewrite pow2_sub. apply Qle_shift_div_l; [done|].
    rewrite div_pow2. done.
Qed.

Lemma roundPos_le (a : Q) : 0 < a → roundPos a <= pow2 (ilog2 a + 1).
Proof.
  intros Ha. destruct (roundPos_parts a Ha) as (He1 & He2 & _ & Hn0 & _ & Hn & _ & ->).
  set (e := ulpExponent a) in *. set (n := roundHalfEven _) in *.
  replace (ilog2 a + 1)%Z with ((ilog2 a + 1 - e) + e)%Z by lia.
  rewrite pow2_add. apply Qmult_le_compat_r; [done|apply Qlt_le_weak, pow2_pos].
Qed.

Lemma roundPos_nonneg (a : Q) : 0 < a → 0 <= roundPos a.
Proof.
  intros Ha. destruct (roundPos_parts a Ha) as (_ & _ & _ & Hn0 & _ & _ & _ & ->).
  apply Qmult_le_0_compat; [|apply Qlt_le_weak, pow2_pos].
  change 0 with (inject_Z 0). by rewrite <-Zle_Qle.
Qed.

Lemma binary64_opp (r : Q) : binary64 r → binary64 (- r).
Proof.
  intros (m & e & Hm & He & Hr). exists (- m)%Z, e. split_and!; [lia|lia|lia|].
  rewrite Hr, inject_Z_opp. ring.
Qed.

Lemma binary64_0 : binary64 0.
Proof. exists 0%Z, 0%Z. split_and!; [done|lia|lia|reflexivity]. Qed.

(** The rounding of a positive number, when in range, is a binary64
    value and no binary64 value is nearer. *)
Lemma roundPos_nearest (a : Q) :
  0 < a → roundPos a < pow2 1024 → nearest64 a (roundPos a).
Proof.
  intros Ha Hfin.
  destruct (roundPos_parts a Ha) as (He1 & He2 & He3 & Hn0 & Hn53 & _ & Hn52 & Hr).
  destruct (ilog2_spec a Ha) as [Hlo Hhi].
  set (L := ilog2 a) in *. set (e := ulpExponent a) in *.
  set (n := roundHalfEven (a / pow2 e)) in *.
  pose proof (pow2_pos e) as Hpe.
  split.
  - (* a binary64 value *)
    destruct (decide (n = 2 ^ 53)%Z) as [Hn|Hn].
    + exists (2 ^ 52)%Z, (e + 1)%Z.
      assert (Hr' : roundPos a == pow2 (53 + e)).
      { rewrite Hr, Hn, pow2_add. by rewrite Z_pow2 by lia. }
      assert (He : (53 + e < 1024)%Z) by (apply pow2_lt_inv; by rewrite <-Hr').
      split_and!; [done|lia|lia|].
      rewrite Hr', Z_pow2, <-pow2_add by lia. by replace (53 + e)%Z with (52 + (e + 1))%Z by lia.
    + exists n, e. split_and!; [lia|lia| |done].
      destruct (decide (e <= 971)%Z) as [|He]; [done|]. exfalso.
      assert (HeL : e = (L - 52)%Z) by lia.
      assert (Hn' : (2 ^ 52 <= n)%Z).
      { replace 52%Z with (L - e)%Z by lia. apply Hn52. lia. }
      assert (pow2 1024 <= roundPos a); [|lra].
      rewrite Hr. replace 1024%Z with (52 + 972)%Z by lia. rewrite pow2_add.
      assert (pow2 52 <= inject_Z n) by (rewrite pow2_Z by lia; by rewrite <-Zle_Qle).
      pose proof (pow2_le 972 e ltac:(lia)). pose proof (pow2_pos 972). pose proof (pow2_pos 52).
      nra.
  - (* no binary64 value is nearer *)
    intros r' (m' & e' & Hm' & He' & Hr').
    set (y := a / pow2 e) in *.
    assert (Hscale : ∀ t, t - a == (t / pow2 e - y) * pow2 e).
    { intros t. unfold y. field. lra. }
    rewrite (Hscale (roundPos a)), (Hscale r'), !Qabs_Qmult.
    apply Qmult_le_compat_r; [|apply Qabs_nonneg].
    assert (Hrn : roundPos a / pow2 e == inject_Z n) by (rewrite Hr; field; lra).
    rewrite Hrn.
    destruct (decide (e <= e')%Z) as [Hee|Hee].
    + assert (Hint : r' / pow2 e == inject_Z (m' * 2 ^ (e' - e))).
      { rewrite Hr', inject_Z_mult, Z_pow2 by lia. rewrite pow2_sub. field. lra. }
      rewrite Hint. apply roundHalfEven_nearest.
    + assert (HeL : e = (L - 52)%Z) by lia.
      assert (Hy52 : pow2 52 <= y).
      { unfold y. apply Qle_shift_div_l; [done|]. rewrite <-pow2_add.
        by replace (52 + e)%Z with L by lia. }
      assert (Hy' : r' / pow2 e < pow2 52).
      { apply Qlt_shift_div_r; [done|]. rewrite Hr'.
        assert (inject_Z m' < pow2 53) by (rewrite pow2_Z by lia; rewrite <-Zlt_Qlt; lia).
        pose proof (pow2_le e' (e - 1) ltac:(lia)).
        assert (Hsplit : pow2 52 * pow2 e == pow2 53 * pow2 (e - 1)).
        { rewrite <-!pow2_add. by replace (52 + e)%Z with (53 + (e - 1))%Z by lia. }
        rewrite Hsplit. pose proof (pow2_pos e'). pose proof (pow2_pos 53).
        destruct (Qlt_le_dec (inject_Z m') 0); nra. }
      pose proof (roundHalfEven_nearest y (2 ^ 52)) as Hnear. fold n in Hnear.
      rewrite Z_pow2 in Hnear by lia.
      rewrite (Qabs_neg (pow2 52 - y)) in Hnear by lra.
      rewrite (Qabs_neg (r' / pow2 e - y)) by lra.
      lra.
Qed.

(** *** The rounding of any number *)

Lemma Qabs_pos_lt (x : Q) : ¬ x == 0 → 0 < Qabs x.
Proof. intros Hx. apply Qabs_case; intros; lra. Qed.

(** The rounding is a number, or an infinity of the sign of its
    argument; it is never [NaN]. *)
Lemma round64_cases (x : Q) :
  (∃ r, round64 x = Num r ∧ Qred r = r ∧
        (x == 0 → r == 0) ∧
        (0 < x → r == roundPos (Qabs x) ∧ roundPos (Qabs x) < pow2 1024) ∧
        (x < 0 → r == - roundPos (Qabs x) ∧ roundPos (Qabs x) < pow2 1024)) ∨
  (round64 x = Infinity ∧ 0 < x ∧ pow2 1024 <= roundPos (Qabs x)) ∨
  (round64 x = NegInfinity ∧ x < 0 ∧ pow2 1024 <= roundPos (Qabs x)).
Proof.
  unfold round64. destruct (Qeq_bool x 0) eqn:E0.
  { apply Qeq_bool_iff in E0. left. exists 0. split_and!; [done|done|done|lra|lra]. }
  assert (Hx : ¬ x == 0).
  { intros H. apply Qeq_bool_iff in H. congruence. }
  cbv zeta. destruct (Qle_bool (pow2 1024) (roundPos (Qabs x))) eqn:E1.
  - apply Qle_bool_iff in E1. destruct (Qle_bool 0 x) eqn:E2.
    + apply Qle_bool_iff in E2. right. left. split_and!; [done|lra|done].
    + right. right. split_and!; [done| |done].
      apply Qnot_le_lt. intros H. apply Qle_bool_iff in H. congruence.
  - assert (Hfin : roundPos (Qabs x) < pow2 1024).
    { apply Qnot_le_lt. intros H. apply Qle_bool_iff in H. congruence. }
    left. eexists. split; [reflexivity|]. split; [apply Qred_complete, Qred_correct|].
    rewrite Qred_correct. destruct (Qle_bool 0 x) eqn:E2.
    + apply Qle_bool_iff in E2. split_and!; [lra|done|lra].
    + assert (x < 0).
      { apply Qnot_le_lt. intros H. apply Qle_bool_iff in H. congruence. }
      split_and!; [lra|lra|done].
Qed.

(** A number that rounds to a number rounds to a nearest binary64
    value. *)
Lemma round64_nearest (x r : Q) : round64 x = Num r → nearest64 x r.
Proof.
  intros Hr.
  destruct (round64_cases x) as [(r0 & Hr0 & _ & Hz & Hp & Hn)|[[H _]|[H _]]];
    [|congruence|congruence].
  assert (r0 = r) as -> by congruence. clear Hr Hr0.
  destruct (Q_dec x 0) as [[Hlt|Hgt]|Heq].
  - destruct (Hn Hlt) as [Heq Hfin].
    assert (Ha : 0 < Qabs x) by (apply Qabs_pos_lt; lra).
    destruct (roundPos_nearest _ Ha Hfin) as [Hb Hnear].
    assert (Habs : Qabs x == - x) by (apply Qabs_neg; lra).
    set (rp := roundPos (Qabs x)) in *.
    split.
    + destruct (binary64_opp _ Hb) as (m & e & Hm & He & Hme).
      exists m, e. split_and!; [done|lia|lia|]. by rewrite Heq.
    + intros r' Hr'. specialize (Hnear (- r') (binary64_opp _ Hr')).
      rewrite Habs in Hnear.
      assert (H1 : r - x == - (rp - - x)) by (rewrite Heq; ring).
      assert (H2 : r' - x == - (- r' - - x)) by ring.
      rewrite H1, H2, !Qabs_opp. exact Hnear.
  - destruct (Hp Hgt) as [Heq Hfin].
    assert (Ha : 0 < Qabs x) by (apply Qabs_pos_lt; lra).
    destruct (roundPos_nearest _ Ha Hfin) as [Hb Hnear].
    assert (Habs : Qabs x == x) by (apply Qabs_pos; lra).
    set (rp := roundPos (Qabs x)) in *.
    split.
    + destruct Hb as (m & e & Hm & He & Hme).
      exists m, e. split_and!; [done|lia|lia|]. by rewrite Heq.
    + intros r' Hr'. specialize (Hnear r' Hr').
      rewrite Habs in Hnear. by rewrite Heq.
  - split.
    + destruct binary64_0 as (m & e & Hm & He & Hme).
      exists m, e. split_and!; [done|lia|lia|]. by rewrite (Hz Heq).
    + intros r' _. rewrite (Hz Heq), Heq.
      assert (H0 : 0 - 0 == 0) by ring. rewrite H0. apply Qabs_nonneg.
Qed.

Lemma round64_red (x r : Q) : round64 x = Num r → Qred r = r.
Proof.
  intros Hr.
  destruct (round64_cases x) as [(r0 & Hr0 & Hred & _)|[[H _]|[H _]]]; congruence.
Qed.

(** Below [2^1023] nothing rounds to an infinity. *)
Lemma round64_finite (x : Q) : Qabs x < pow2 1023 → ∃ r, round64 x = Num r.
Proof.
  intros Hx.
  destruct (round64_cases x) as [(r & Hr & _)|[(_ & Hpos & Hbig)|(_ & Hneg & Hbig)]];
    [by exists r| |]; exfalso.
  - assert (Ha : 0 < Qabs x) by (apply Qabs_pos_lt; lra).
    pose proof (roundPos_le _ Ha) as Hle.
    destruct (ilog2_spec _ Ha) as [Hlo _].
    assert (ilog2 (Qabs x) < 1023)%Z by (apply pow2_lt_inv; lra).
    pose proof (pow2_le (ilog2 (Qabs x) + 1) 1023 ltac:(lia)).
    pose proof (pow2_lt 1023 1024 ltac:(lia)). lra.
  - assert (Ha : 0 < Qabs x) by (apply Qabs_pos_lt; lra).
    pose proof (roundPos_le _ Ha) as Hle.
    destruct (ilog2_spec _ Ha) as [Hlo _].
    assert (ilog2 (Qabs x) < 1023)%Z by (apply pow2_lt_inv; lra).
    pose proof (pow2_le (ilog2 (Qabs x) + 1) 1023 ltac:(lia)).
    pose proof (pow2_lt 1023 1024 ltac:(lia)). lra.
Qed.

(** A nearest value does not leave an interval between two binary64
    values, and a binary64 value is its own nearest value. *)
Lemma nearest64_ge (x r b : Q) : nearest64 x r → binary64 b → b <= x → b <= r.
Proof.
  intros [_ Hnear] Hb Hbx. specialize (Hnear b Hb). revert Hnear.
  rewrite (Qabs_neg (b - x)) by lra.
  apply Qabs_case; intros; lra.
Qed.

Lemma nearest64_le (x r b : Q) : nearest64 x r → binary64 b → x <= b → r <= b.
Proof.
  intros [_ Hnear] Hb Hbx. specialize (Hnear b Hb). revert Hnear.
  rewrite (Qabs_pos (b - x)) by lra.
  apply Qabs_case; intros; lra.
Qed.

Lemma nearest64_exact (x r : Q) : nearest64 x r → binary64 x → r == x.
Proof.
  intros Hn Hx.
  pose proof (nearest64_ge x r x Hn Hx ltac:(lra)).
  pose proof (nearest64_le x r x Hn Hx ltac:(lra)). lra.
Qed.

(** The integers up to [2^53] are binary64 values. *)
Lemma binary64_Z (z : Z) : (Z.abs z <= 2 ^ 53)%Z → binary64 (inject_Z z).
Proof.
  intros Hz. destruct (decide (Z.abs z = 2 ^ 53)%Z) as [Heq|Hne].
  - assert (Hz2 : z = (2 ^ 53)%Z ∨ z = (- 2 ^ 53)%Z) by lia.
    destruct Hz2 as [-> | ->].
    + exists (2 ^ 52)%Z, 1%Z. split_and!; [done|lia|lia|reflexivity].
    + exists (- 2 ^ 52)%Z, 1%Z. split_and!; [done|lia|lia|reflexivity].
  - exists z, 0%Z. split_and!; [lia|lia|lia|]. rewrite pow2_0. ring.
Qed.

Lemma pow2_binary64 (e : Z) : (-1074 <= e <= 1023)%Z → binary64 (pow2 e).
Proof.
  intros He. destruct (decide (e <= 971)%Z).
  - exists 1%Z, e. split_and!; [done|lia|lia|]. ring.
  - exists (2 ^ (e - 971))%Z, 971%Z. split_and!; [|lia|lia|].
    + rewrite Z.abs_eq by lia. apply Z.pow_lt_mono_r; lia.
    + rewrite Z_pow2 by lia. rewrite <-pow2_add.
      by replace (e - 971 + 971)%Z with e by lia.
Qed.

Lemma Qred_inject_Z (z : Z) : Qred (inject_Z z) = inject_Z z.
Proof.
  unfold Qred, inject_Z.
  pose proof (Z.ggcd_correct_divisors z 1) as Hd. pose proof (Z.ggcd_gcd z 1) as Hg.
  destruct (Z.ggcd z 1) as [g [aa bb]]. simpl in *.
  rewrite Z.gcd_1_r in Hg. subst g. destruct Hd as [-> Hb].
  assert (bb = 1%Z) as -> by lia. f_equal. lia.
Qed.

Lemma round64_Z (z : Z) : (Z.abs z <= 2 ^ 53)%Z → round64 (inject_Z z) = Num (inject_Z z).
Proof.
  intros Hz.
  destruct (round64_finite (inject_Z z)) as [r Hr].
  { apply Qle_lt_trans with (y := pow2 53); [|by apply pow2_lt].
    rewrite pow2_Z by lia. apply Qabs_case; intros _.
    - rewrite <-Zle_Qle. lia.
    - rewrite <-inject_Z_opp, <-Zle_Qle. lia. }
  rewrite Hr. f_equal.
  pose proof (nearest64_exact _ _ (round64_nearest _ _ Hr) (binary64_Z z Hz)) as Heq.
  rewrite <-(round64_red _ _ Hr). apply Qred_complete in Heq. rewrite Heq.
  apply Qred_inject_Z.
Qed.

(** A multiple of the least positive binary64 value. *)
Lemma binary64_grid (r : Q) : binary64 r → ∃ k : Z, r == inject_Z k * pow2 (-1074).
Proof.
  intros (m & e & _ & He & Hr). exists (m * 2 ^ (e + 1074))%Z.
  rewrite Hr, inject_Z_mult, Z_pow2 by lia. rewrite <-Qmult_assoc, <-pow2_add.
  by replace (e + 1074 + -1074)%Z with e by lia.
Qed.

(** The difference of two binary64 values does not round to zero
    unless it is zero: the sign of the rounded difference is the sign
    of the difference. *)
Lemma round64_difference_pos (p q : Q) :
  binary64 p → binary64 q → q < p →
  round64 (p - q) = Infinity ∨ ∃ r, round64 (p - q) = Num r ∧ 0 < r.
Proof.
  intros (kp & Hp)%binary64_grid (kq & Hq)%binary64_grid Hlt.
  assert (Hgrid : pow2 (-1074) <= p - q).
  { rewrite Hp, Hq in Hlt |- *. pose proof (pow2_pos (-1074)) as Hpos.
    assert (Hk : (kq < kp)%Z).
    { rewrite Zlt_Qlt. apply (Qmult_lt_r _ _ (pow2 (-1074))); done. }
    assert (Hk' : inject_Z kq + 1 <= inject_Z kp).
    { change 1 with (inject_Z 1). rewrite <-inject_Z_plus, <-Zle_Qle. lia. }
    nra. }
  destruct (round64_cases (p - q)) as [(r & Hr & _)|[(H & _)|(_ & Hneg & _)]].
  - right. exists r. split; [done|].
    pose proof (nearest64_ge _ _ _ (round64_nearest _ _ Hr)
                  (pow2_binary64 (-1074) ltac:(lia)) Hgrid).
    pose proof (pow2_pos (-1074)). lra.
  - by left.
  - lra.
Qed.

Lemma round64_nonpos (x : Q) :
  x <= 0 → round64 x = NegInfinity ∨ ∃ r, round64 x = Num r ∧ r <= 0.
Proof.
  intros Hx.
  destruct (round64_cases x) as [(r & Hr & _)|[(_ & Hpos & _)|(H & _)]].
  - right. exists r. split; [done|].
    apply (nearest64_le x r 0 (round64_nearest _ _ Hr) binary64_0 Hx).
  - lra.
  - by left.
Qed.

Lemma round64_nonneg (x : Q) :
  0 <= x → round64 x = Infinity ∨ ∃ r, round64 x = Num r ∧ 0 <= r.
Proof.
  intros Hx.
  destruct (round64_cases x) as [(r & Hr & _)|[(H & _)|(_ & Hneg & _)]].
  - right. exists r. split; [done|].
    apply (nearest64_ge x r 0 (round64_nearest _ _ Hr) binary64_0 Hx).
  - by left.
  - lra.
Qed.

Lemma roundHalfEven_half (y : Q) : Qabs (inject_Z (roundHalfEven y) - y) <= 1 # 2.
Proof.
  pose proof (Qfloor_le y) as Hlo. pose proof (Qlt_floor y) as Hhi.
  rewrite inject_Z_plus in Hhi. change (inject_Z 1) with 1 in Hhi.
  destruct (roundHalfEven_cases y) as [[-> H]|[-> H]].
  - apply Qabs_case; intros; lra.
  - rewrite inject_Z_plus. change (inject_Z 1) with 1. apply Qabs_case; intros; lra.
Qed.

(** In the normal range a rounding is off by at most [2^-53] of the
    number. *)
Lemma roundPos_error (a : Q) :
  pow2 (-1022) <= a → Qabs (roundPos a - a) <= pow2 (-53) * a.
Proof.
  intros Hnorm. assert (Ha : 0 < a) by (pose proof (pow2_pos (-1022)); lra).
  destruct (roundPos_parts a Ha) as (_ & _ & He & _ & _ & _ & _ & Hr).
  destruct (ilog2_spec a Ha) as [Hlo Hhi].
  set (L := ilog2 a) in *. set (e := ulpExponent a) in *.
  set (n := roundHalfEven (a / pow2 e)) in *.
  assert (HL : (-1022 <= L)%Z).
  { assert (pow2 (-1022) < pow2 (L + 1)) by lra.
    apply pow2_lt_inv in H. lia. }
  assert (HeL : e = (L - 52)%Z).
  { unfold e, ulpExponent. fold L. lia. }
  pose proof (pow2_pos e) as Hpe.
  assert (Hscale : roundPos a - a == (inject_Z n - a / pow2 e) * pow2 e).
  { rewrite Hr. field. lra. }
  rewrite Hscale, Qabs_Qmult, (Qabs_pos (pow2 e)) by lra.
  pose proof (roundHalfEven_half (a / pow2 e)) as Hhalf. fold n in Hhalf.
  assert (Hulp : pow2 e == pow2 (-52) * pow2 L).
  { rewrite <-pow2_add. by replace (-52 + L)%Z with e by lia. }
  assert (H53 : pow2 (-53) == (1 # 2) * pow2 (-52)) by reflexivity.
  pose proof (pow2_pos (-52)). pose proof (pow2_pos L).
  pose proof (Qabs_nonneg (inject_Z n - a / pow2 e)).
  set (D := Qabs (inject_Z n - a / pow2 e)) in *.
  rewrite Hulp, H53.
  assert (Hstep : D * pow2 L <= (1 # 2) * a) by nra.
  assert (Hmul : pow2 (-52) * (D * pow2 L) <= pow2 (-52) * ((1 # 2) * a)) by nra.
  assert (Hl : D * (pow2 (-52) * pow2 L) == pow2 (-52) * (D * pow2 L)) by ring.
  assert (Hr' : (1 # 2) * pow2 (-52) * a == pow2 (-52) * ((1 # 2) * a)) by ring.
  by rewrite Hl, Hr'.
Qed.

Lemma round64_error (x r : Q) :
  round64 x = Num r → pow2 (-1022) <= Qabs x →
  Qabs (r - x) <= pow2 (-53) * Qabs x.
Proof.
  intros Hr Hnorm. pose proof (pow2_pos (-1022)) as Hpos.
  pose proof (roundPos_error _ Hnorm) as Herr.
  destruct (round64_cases x) as [(r0 & Hr0 & _ & Hz & Hp & Hn)|[[H _]|[H _]]];
    [|congruence|congruence].
  assert (r0 = r) as -> by congruence. clear Hr Hr0.
  set (rp := roundPos (Qabs x)) in *.
  destruct (Q_dec x 0) as [[Hlt|Hgt]|Heq].
  - destruct (Hn Hlt) as [Heq _].
    assert (Habs : Qabs x == - x) by (apply Qabs_neg; lra).
    rewrite Habs in Herr |- *.
    assert (H1 : r - x == - (rp - - x)) by (rewrite Heq; ring).
    by rewrite H1, Qabs_opp.
  - destruct (Hp Hgt) as [Heq _].
    assert (Habs : Qabs x == x) by (apply Qabs_pos; lra).
    rewrite Habs in Herr |- *. by rewrite Heq.
  - rewrite Heq in Hnorm. change (Qabs 0) with 0 in Hnorm. lra.
Qed.

End Rounding.

(** * Properties *)

(** ** Numbers *)

Lemma gt_Num (p q : Q) : gt (Num p) (Num q) = true ↔ (q < p)%Q.
Proof.
  simpl. rewrite negb_true_iff. split.
  - intros H. apply Qnot_le_lt. intros Hle.
    apply Qle_bool_iff in Hle. congruence.
  - intros H. destruct (Qle_bool p q) eqn:E; [|done].
    apply Qle_bool_iff in E. exfalso. by apply (Qlt_not_le q p).
Qed.

Lemma gt_Num_false (p q : Q) : gt (Num p) (Num q) = false ↔ (p <= q)%Q.
Proof.
  simpl. rewrite negb_false_iff. apply Qle_bool_iff.
Qed.

Lemma gt_ofZ (a b : Z) : gt (ofZ a) (ofZ b) = true ↔ b < a.
Proof. unfold ofZ. rewrite gt_Num. unfold Qlt. simpl. lia. Qed.

Lemma gt_ofZ_false (a b : Z) : gt (ofZ a) (ofZ b) = false ↔ a ≤ b.
Proof. unfold ofZ. rewrite gt_Num_false. unfold Qle. simpl. lia. Qed.

Lemma inject_Z_eq0 (z : Z) : (inject_Z z == 0)%Q ↔ z = 0.
Proof. unfold Qeq. simpl. lia. Qed.

(** A division by a number other than zero rounds the exact quotient. *)
Lemma div_Num (p q : Q) : ¬ (q == 0)%Q → div (Num p) (Num q) = round64 (p / q).
Proof.
  intros Hq. unfold div. destruct (Qeq_bool q 0) eqn:E; [|done].
  by apply Qeq_bool_iff in E.
Qed.

Lemma div_ofZ (a b : Z) :
  b ≠ 0 → div (ofZ a) (ofZ b) = round64 (inject_Z a / inject_Z b).
Proof. intros Hb. apply div_Num. by rewrite inject_Z_eq0. Qed.

Lemma round64_ordered (x : Q) : ordered (round64 x).
Proof.
  unfold ordered.
  destruct (round64_cases x) as [(r & -> & _)|[(-> & _)|(-> & _)]]; discriminate.
Qed.

(** The comparison is a strict order on the numbers other than [NaN],
    with [NaN] below and above nothing. *)
Lemma gt_irrefl (a : number) : gt a a = false.
Proof. destruct a as [p| | |]; try done. apply gt_Num_false, Qle_refl. Qed.

Lemma gt_trans (a b c : number) : gt a b = true → gt b c = true → gt a c = true.
Proof.
  destruct a as [p| | |], b as [q| | |], c as [r| | |]; try done.
  rewrite !gt_Num. intros. by eapply Qlt_trans.
Qed.

Lemma gt_negtrans (a b c : number) :
  ordered a → ordered b → ordered c →
  gt a b = false → gt b c = false → gt a c = false.
Proof.
  unfold ordered.
  destruct a as [p| | |], b as [q| | |], c as [r| | |]; try done.
  rewrite !gt_Num_false. intros. by eapply Qle_trans.
Qed.

(** The sign of a rounded difference of binary64 values is the sign of
    the exact difference. *)
Lemma gt_sub (p q : Q) :
  binary64 p → binary64 q →
  gt (sub (Num p) (Num q)) (ofZ 0) = negb (Qle_bool p q).
Proof.
  intros Hp Hq. cbn [sub]. destruct (Qle_bool p q) eqn:E; cbn [negb].
  - apply Qle_bool_iff in E.
    destruct (round64_nonpos (p - q)) as [->|(r & -> & Hr)]; [lra|done|].
    by apply gt_Num_false.
  - assert (Hlt : (q < p)%Q).
    { apply Qnot_le_lt. intros H. apply Qle_bool_iff in H. congruence. }
    destruct (round64_difference_pos p q Hp Hq Hlt) as [->|(r & -> & Hr)]; [done|].
    by apply gt_Num.
Qed.

(** A difference that is zero is not positive. *)
Lemma gt_sub_eq (p q : Q) : (p == q)%Q → gt (sub (Num p) (Num q)) (ofZ 0) = false.
Proof.
  intros Heq. cbn [sub]. unfold round64.
  assert (E : Qeq_bool (p - q) 0 = true) by (apply Qeq_bool_iff; lra).
  by rewrite E.
Qed.

(** The share of [w] in [g] is a binary64 value nearest to the exact
    quotient, between 0 and 1. *)
Lemma ratio_spec (w g : Z) :
  0 ≤ w ≤ g → 0 < g →
  ∃ p, div (ofZ w) (ofZ g) = Num p ∧
       nearest64 (inject_Z w / inject_Z g) p ∧ (0 <= p)%Q ∧ (p <= 1)%Q.
Proof.
  intros Hw Hg. rewrite div_ofZ by lia.
  assert (Hg' : (0 < inject_Z g)%Q) by (change 0%Q with (inject_Z 0); by rewrite <-Zlt_Qlt).
  assert (Hw0 : (0 <= inject_Z w)%Q) by (change 0%Q with (inject_Z 0); rewrite <-Zle_Qle; lia).
  assert (Hwg : (inject_Z w <= inject_Z g)%Q) by (rewrite <-Zle_Qle; lia).
  assert (H0 : (0 <= inject_Z w / inject_Z g)%Q) by (apply Qle_shift_div_l; [done|lra]).
  assert (H1 : (inject_Z w / inject_Z g <= 1)%Q) by (apply Qle_shift_div_r; [done|lra]).
  destruct (round64_finite (inject_Z w / inject_Z g)) as [p Hp].
  { rewrite Qabs_pos by done. pose proof (pow2_le 0 1023 ltac:(lia)) as Hpow.
    pose proof (pow2_lt 0 1023 ltac:(lia)). rewrite pow2_0 in *. lra. }
  exists p. pose proof (round64_nearest _ _ Hp) as Hn. split_and!; [done|done| |].
  - apply (nearest64_ge _ _ 0 Hn binary64_0 H0).
  - apply (nearest64_le _ _ 1 Hn (binary64_Z 1 ltac:(done)) H1).
Qed.

(** A share as a percentage: a binary64 value nearest to the exact
    product, between 0 and 100. *)
Lemma percent_spec (p : Q) :
  (0 <= p)%Q → (p <= 1)%Q →
  ∃ q, mul (Num p) (ofZ 100) = Num q ∧
       nearest64 (p * 100) q ∧ (0 <= q)%Q ∧ (q <= 100)%Q.
Proof.
  intros H0 H1. cbn [mul ofZ]. change (inject_Z 100) with 100%Q.
  destruct (round64_finite (p * 100)) as [q Hq].
  { rewrite Qabs_pos by lra. pose proof (pow2_le 7 1023 ltac:(lia)) as Hpow.
    assert (pow2 7 == 128)%Q by reflexivity. pose proof (pow2_lt 7 1023 ltac:(lia)). lra. }
  exists q. pose proof (round64_nearest _ _ Hq) as Hn. split_and!; [done|done| |].
  - apply (nearest64_ge _ _ 0 Hn binary64_0). lra.
  - apply (nearest64_le _ _ 100 Hn (binary64_Z 100 ltac:(done))). lra.
Qed.

(** A quotient of safe integers is a binary64 value nearest to the
    exact quotient. *)
Lemma quotient_spec (a b : Z) :
  safeInteger a → b ≠ 0 →
  ∃ q, div (ofZ a) (ofZ b) = Num q ∧ nearest64 (inject_Z a / inject_Z b) q.
Proof.
  intros Ha Hb. rewrite div_ofZ by done.
  destruct (round64_finite (inject_Z a / inject_Z b)) as [q Hq].
  { apply Qle_lt_trans with (y := pow2 53); [|by apply pow2_lt].
    unfold Qdiv. rewrite Qabs_Qmult, Qabs_Qinv.
    assert (Hb1 : (1 <= Qabs (inject_Z b))%Q).
    { apply Qabs_case; intros Hs; change 0%Q with (inject_Z 0) in Hs;
        rewrite <-Zle_Qle in Hs.
      - change 1%Q with (inject_Z 1). rewrite <-Zle_Qle. lia.
      - rewrite <-inject_Z_opp. change 1%Q with (inject_Z 1). rewrite <-Zle_Qle. lia. }
    assert (Ha1 : (Qabs (inject_Z a) <= pow2 53)%Q).
    { rewrite pow2_Z by lia. unfold safeInteger in Ha. apply Qabs_case; intros _.
      - rewrite <-Zle_Qle. lia.
      - rewrite <-inject_Z_opp, <-Zle_Qle. lia. }
    pose proof (Qabs_nonneg (inject_Z a)) as Ha0.
    apply Qle_shift_div_r; [lra|]. pose proof (pow2_pos 53). nra. }
  exists q. split; [done|]. by apply round64_nearest.
Qed.

(** The game time in minutes: a binary64 value nearest to the sixtieth
    of the seconds, and not below [2^-6] in magnitude. *)
Lemma minutes_spec (seconds : Z) :
  seconds ≠ 0 → safeInteger seconds →
  ∃ m, div (ofZ seconds) (ofZ 60) = Num m ∧
       nearest64 (inject_Z seconds / 60) m ∧ (pow2 (-6) <= Qabs m)%Q.
Proof.
  intros Hne Hsafe.
  destruct (quotient_spec seconds 60 Hsafe ltac:(done)) as (m & Hm & Hn).
  change (inject_Z 60) with 60%Q in Hn.
  exists m. split_and!; [done|done|].
  assert (Hp : (pow2 (-6) == 1 # 64)%Q) by reflexivity.
  pose proof (pow2_binary64 (-6) ltac:(lia)) as Hb.
  destruct (Z_lt_le_dec seconds 0) as [Hneg|Hpos].
  - assert (Hs : (inject_Z seconds <= -1)%Q).
    { change (-1)%Q with (inject_Z (-1)). rewrite <-Zle_Qle. lia. }
    assert (Hq : (inject_Z seconds / 60 <= - pow2 (-6))%Q).
    { apply Qle_shift_div_r; [done|]. lra. }
    pose proof (nearest64_le _ _ _ Hn (binary64_opp _ Hb) Hq).
    rewrite Qabs_neg by lra. lra.
  - assert (Hs : (1 <= inject_Z seconds)%Q).
    { change 1%Q with (inject_Z 1). rewrite <-Zle_Qle. lia. }
    assert (Hq : (pow2 (-6) <= inject_Z seconds / 60)%Q).
    { apply Qle_shift_div_l; [done|]. lra. }
    pose proof (nearest64_ge _ _ _ Hn Hb Hq).
    rewrite Qabs_pos by lra. lra.
Qed.

(** A safe total by the minutes: a binary64 value nearest to the exact
    quotient. *)
Lemma per_minute_spec (x : Z) (m : Q) :
  safeInteger x → (pow2 (-6) <= Qabs m)%Q →
  ∃ q, div (ofZ x) (Num m) = Num q ∧ nearest64 (inject_Z x / m) q.
Proof.
  intros Hsafe Hm. pose proof (pow2_pos (-6)) as Hpos.
  assert (Hm0 : ¬ (m == 0)%Q).
  { intros H0. rewrite H0 in Hm. change (Qabs 0) with 0%Q in Hm. lra. }
  unfold ofZ. rewrite div_Num by done.
  destruct (round64_finite (inject_Z x / m)) as [q Hq].
  { apply Qle_lt_trans with (y := pow2 59); [|by apply pow2_lt].
    unfold Qdiv. rewrite Qabs_Qmult, Qabs_Qinv.
    assert (Hx : (Qabs (inject_Z x) <= pow2 53)%Q).
    { rewrite pow2_Z by lia. unfold safeInteger in Hsafe. apply Qabs_case; intros _.
      - rewrite <-Zle_Qle. lia.
      - rewrite <-inject_Z_opp, <-Zle_Qle. lia. }
    apply Qle_shift_div_r; [lra|].
    assert (Hsplit : (pow2 59 == pow2 53 * pow2 6)%Q) by reflexivity.
    assert (H6 : (pow2 6 * pow2 (-6) == 1)%Q) by reflexivity.
    pose proof (pow2_pos 53). pose proof (pow2_pos 6).
    pose proof (Qabs_nonneg (inject_Z x)). rewrite Hsplit.
    assert (Hone : (1 <= pow2 6 * Qabs m)%Q) by nra.
    assert (Hbig : (pow2 53 <= pow2 53 * (pow2 6 * Qabs m))%Q) by nra.
    lra. }
  exists q. split; [done|]. by apply round64_nearest.
Qed.

(** ** Sorting *)

Section SortFacts.
Context {A : Type} (comparefn : A → A → number).

Lemma Array_insert_Permutation (x : A) (l : list A) :
  Array_insert comparefn x l ≡ₚ x :: l.
Proof.
  induction l as [|y l IH]; simpl; [done|].
  destruct (gt _ _); [|done].
  rewrite IH. apply Permutation_swap.
Qed.

Lemma Array_sort_Permutation (l : list A) : Array_sort comparefn l ≡ₚ l.
Proof.
  induction l as [|x l IH]; simpl; [done|].
  by rewrite Array_insert_Permutation, IH.
Qed.

Lemma Array_sort_length (l : list A) : length (Array_sort comparefn l) = length l.
Proof. by rewrite Array_sort_Permutation. Qed.

Lemma Array_sort_elem_of (x : A) (l : list A) : x ∈ Array_sort comparefn l ↔ x ∈ l.
Proof. by rewrite Array_sort_Permutation. Qed.

(** The result is ordered by any transitive relation that the
    comparator decides on the elements at hand. *)
Section Sorted.
Context (R : relation A) `{!Transitive R}.

Lemma Array_insert_sorted (x : A) (l : list A) :
  (∀ y, y ∈ l → decides comparefn R x y) →
  StronglySorted R l → StronglySorted R (Array_insert comparefn x l).
Proof.
  induction l as [|y l IH]; intros Hdec Hs; simpl.
  - repeat constructor.
  - inversion_clear Hs as [|? ? Hs' Hall].
    assert (Hxy : decides comparefn R x y) by (apply Hdec; left).
    unfold decides in Hxy. destruct (gt _ _).
    + constructor.
      * apply IH; [|done]. intros z Hz. apply Hdec. by right.
      * rewrite Array_insert_Permutation. by constructor.
    + constructor; [by constructor|].
      constructor; [done|].
      eapply Forall_impl; [exact Hall|]. intros z Hz. by etrans.
Qed.

Lemma Array_sort_sorted (l : list A) :
  (∀ x y, x ∈ l → y ∈ l → decides comparefn R x y) →
  StronglySorted R (Array_sort comparefn l).
Proof.
  induction l as [|x l IH]; intros Hdec; simpl; [constructor|].
  apply Array_insert_sorted.
  - intros y Hy. rewrite Array_sort_elem_of in Hy.
    apply Hdec; [left|by right].
  - apply IH. intros y z Hy Hz. apply Hdec; by right.
Qed.
End Sorted.

(** Stability: a class of elements none of which the comparator puts
    behind another keeps its order. *)
Section Stable.
Context (P : A → Prop) `{!∀ x, Decision (P x)}.
Hypothesis tied : ∀ x y, P x → P y → gt (comparefn x y) (ofZ 0) = false.

Lemma Array_insert_filter (x : A) (l : list A) :
  filter P (Array_insert comparefn x l) = filter P (x :: l).
Proof using tied.
  induction l as [|y l IH]; simpl; [done|].
  destruct (gt (comparefn x y) (ofZ 0)) eqn:E; [|done].
  rewrite filter_cons, IH, !filter_cons.
  destruct (decide (P y)) as [Hy|Hy]; [|done].
  destruct (decide (P x)) as [Hx|Hx]; [|done].
  rewrite tied in E; done.
Qed.

Lemma Array_sort_filter (l : list A) :
  filter P (Array_sort comparefn l) = filter P l.
Proof using tied.
  induction l as [|x l IH]; simpl; [done|].
  by rewrite Array_insert_filter, !filter_cons, IH.
Qed.
End Stable.
End SortFacts.

(** ** Relative positions in a list *)

Section Positions.
Context {A : Type}.

Lemma lookup_lt_sublist (l : list A) (i j : nat) (a b : A) :
  l !! i = Some a → l !! j = Some b → (i < j)%nat → [a; b] `sublist_of` l.
Proof.
  revert i j. induction l as [|x l IH]; intros i j Hi Hj Hlt; [done|].
  destruct j as [|j]; [lia|]. destruct i as [|i]; simpl in *.
  - simplify_eq. apply sublist_skip. apply singleton_sublist_l.
    by eapply list_elem_of_lookup_2.
  - apply sublist_cons. apply (IH i j); [done..|lia].
Qed.

Lemma sublist_lookup_lt (l : list A) (a b : A) :
  [a; b] `sublist_of` l →
  ∃ i j, (i < j)%nat ∧ l !! i = Some a ∧ l !! j = Some b.
Proof.
  induction l as [|x l IH]; intros Hs.
  - by apply sublist_nil_r in Hs.
  - apply sublist_cons_r in Hs as [Hs|(l' & Heq & Hs)].
    + destruct (IH Hs) as (i & j & ? & ? & ?).
      exists (S i), (S j). repeat split; [lia|done..].
    + simplify_eq. apply singleton_sublist_l, list_elem_of_lookup in Hs as [j Hj].
      exists 0%nat, (S j). repeat split; [lia|done..].
Qed.

Lemma sublist_filter_mono (P : A → Prop) `{!∀ x, Decision (P x)} (k l : list A) :
  k `sublist_of` l → filter P k `sublist_of` filter P l.
Proof.
  induction 1 as [|x k l _ IH|x k l _ IH]; [done|..].
  - rewrite !filter_cons. destruct (decide (P x)); [by apply sublist_skip|done].
  - rewrite filter_cons. destruct (decide (P x)); [by apply sublist_cons|done].
Qed.
End Positions.

(** A stable sort keeps the relative position of two tied elements. *)
Lemma Array_sort_stable {A : Type} (comparefn : A → A → number)
    (P : A → Prop) `{!∀ x, Decision (P x)} (l : list A) (i j : nat) (a b : A) :
  (∀ x y, P x → P y → gt (comparefn x y) (ofZ 0) = false) →
  Array_sort comparefn l !! i = Some a →
  Array_sort comparefn l !! j = Some b →
  (i < j)%nat → P a → P b →
  ∃ i' j', (i' < j')%nat ∧ l !! i' = Some a ∧ l !! j' = Some b.
Proof.
  intros Htied Hi Hj Hlt Ha Hb.
  apply sublist_lookup_lt.
  pose proof (lookup_lt_sublist _ _ _ _ _ Hi Hj Hlt) as Hs.
  apply (sublist_filter_mono P) in Hs.
  rewrite (Array_sort_filter comparefn P Htied) in Hs.
  rewrite !filter_cons, filter_nil in Hs.
  rewrite !decide_True in Hs by done.
  etrans; [exact Hs|]. apply sublist_filter.
Qed.

(** A strongly sorted list relates any two of its positions. *)
Lemma StronglySorted_lookup {A : Type} (R : relation A) (l : list A) (i j : nat) (a b : A) :
  StronglySorted R l → l !! i = Some a → l !! j = Some b → (i < j)%nat → R a b.
Proof.
  intros Hs. revert i j. induction Hs as [|x l Hs IH Hall]; intros i j Hi Hj Hlt; [done|].
  destruct j as [|j]; [lia|]. destruct i as [|i]; simpl in *.
  - simplify_eq. rewrite Forall_forall in Hall. apply Hall.
    by eapply list_elem_of_lookup_2.
  - apply (IH i j); [done..|lia].
Qed.

(** ** Maps in insertion order *)

Section MapFacts.
Context {K V : Type} `{EqDecision K}.
Implicit Types (m : Map K V) (k : K) (v : V).

Lemma Map_get_set k k' v m :
  Map_get k (Map_set k' v m) = if decide (k = k') then Some v else Map_get k m.
Proof.
  induction m as [|[k0 v0] m IH]; simpl.
  - repeat case_decide; simplify_eq; done.
  - destruct (decide (k' = k0)) as [->|Hne]; simpl.
    + repeat case_decide; simplify_eq; done.
    + rewrite IH. repeat case_decide; simplify_eq; done.
Qed.

Lemma Map_get_None k m : Map_get k m = None ↔ k ∉ m.*1.
Proof.
  induction m as [|[k0 v0] m IH]; simpl.
  - split; [intros _; apply not_elem_of_nil|done].
  - rewrite not_elem_of_cons. case_decide as Hk.
    + split; [done|]. by intros [? _].
    + rewrite IH. split; [done|]. by intros [_ ?].
Qed.

Lemma Map_get_Some_elem_of k v m : Map_get k m = Some v → (k, v) ∈ m.
Proof.
  induction m as [|[k0 v0] m IH]; simpl; [done|].
  case_decide; intros; simplify_eq; [left|right; auto].
Qed.

Lemma Map_get_lookup k v m (i : nat) :
  NoDup m.*1 → m !! i = Some (k, v) → Map_get k m = Some v.
Proof.
  revert i. induction m as [|[k0 v0] m IH]; intros i Hnd Hi; [done|].
  simpl in *. apply NoDup_cons in Hnd as [Hnotin Hnd].
  destruct i as [|i]; simpl in *.
  - simplify_eq. by rewrite decide_True.
  - rewrite decide_False; [by eapply IH|].
    intros ->. apply Hnotin.
    apply list_elem_of_fmap. exists (k0, v). split; [done|].
    by eapply list_elem_of_lookup_2.
Qed.

Lemma Map_set_keys k v m :
  (Map_set k v m).*1 = if decide (k ∈ m.*1) then m.*1 else m.*1 ++ [k].
Proof.
  induction m as [|[k0 v0] m IH].
  - rewrite decide_False; [done|apply not_elem_of_nil].
  - cbn [Map_set]. destruct (decide (k = k0)) as [->|Hne].
    + rewrite decide_True; [done|]. rewrite fmap_cons. left.
    + rewrite !fmap_cons, IH. cbn [fst]. destruct (decide (k ∈ m.*1)) as [Hin|Hin].
      * rewrite decide_True; [done|by right].
      * rewrite decide_False; [done|]. rewrite not_elem_of_cons. done.
Qed.

Lemma Map_set_set k v v' m : Map_set k v (Map_set k v' m) = Map_set k v m.
Proof.
  induction m as [|[k0 v0] m IH]; simpl.
  - by rewrite decide_True.
  - destruct (decide (k = k0)) as [->|Hne]; simpl.
    + by rewrite decide_True.
    + rewrite decide_False by done. by rewrite IH.
Qed.
End MapFacts.

(** ** Loops *)

Lemma forEach_total {A S : Type} (f : S → A → option S) (g : S → A → S)
    (l : list A) (s : S) :
  (∀ s x, f s x = Some (g s x)) → forEach f l s = Some (fold_left g l s).
Proof.
  intros Hf. revert s. induction l as [|x l IH]; intros s; simpl; [done|].
  rewrite Hf. simpl. apply IH.
Qed.

Lemma fold_left_snoc {A S : Type} (g : S → A → S) (l : list A) (x : A) (s : S) :
  fold_left g (l ++ [x]) s = g (fold_left g l s) x.
Proof. by rewrite fold_left_app. Qed.

Lemma fold_left_add {A : Type} (f : A → Z) (l : list A) (z : Z) :
  fold_left (λ sum x, sum + f x) l z = z + sumZ (f <$> l).
Proof.
  revert z. induction l as [|x l IH]; intros z.
  - unfold sumZ. simpl. lia.
  - cbn [fold_left]. rewrite IH, fmap_cons. unfold sumZ. cbn [foldr]. lia.
Qed.

Lemma sumZ_Permutation (l k : list Z) : l ≡ₚ k → sumZ l = sumZ k.
Proof. unfold sumZ. induction 1; simpl in *; lia. Qed.

Lemma sumZ_app (l k : list Z) : sumZ (l ++ k) = sumZ l + sumZ k.
Proof. unfold sumZ. induction l; simpl in *; lia. Qed.

(** ** Grouping *)

Section GroupingFacts.
Context {A K V : Type} `{EqDecision K}.
Context (key : A → K) (init : A → V) (upd : V → A → V).
Implicit Types (m : Map K V) (l : list A).

Lemma groupStep_upsert m x : groupStep key init upd m x = Some (upsert key init upd m x).
Proof.
  unfold groupStep, upsert, Map_has.
  destruct (Map_get (key x) m) as [v|] eqn:E; simpl.
  - by rewrite E.
  - rewrite Map_get_set, decide_True by done. simpl.
    by rewrite Map_set_set.
Qed.

(** The loop never throws, and computes the fold of [upsert]. *)
Lemma forEach_groupStep l m :
  forEach (groupStep key init upd) l m = Some (fold_left (upsert key init upd) l m).
Proof. apply forEach_total, groupStep_upsert. Qed.

Lemma upsert_keys m x :
  (upsert key init upd m x).*1 =
  if decide (key x ∈ m.*1) then m.*1 else m.*1 ++ [key x].
Proof. apply Map_set_keys. Qed.

Lemma upsert_get k m x :
  Map_get k (upsert key init upd m x) =
  if decide (k = key x) then Some (upd (default (init x) (Map_get k m)) x)
  else Map_get k m.
Proof.
  unfold upsert. rewrite Map_get_set. case_decide; [by subst|done].
Qed.

Local Abbreviation grouped := (grouped key init upd).

Lemma grouped_snoc l x : grouped (l ++ [x]) = upsert key init upd (grouped l) x.
Proof. apply fold_left_snoc. Qed.

Lemma grouped_keys_elem_of k l : k ∈ (grouped l).*1 ↔ k ∈ key <$> l.
Proof.
  induction l as [|x l IH] using rev_ind.
  - done.
  - rewrite grouped_snoc, upsert_keys, fmap_app, elem_of_app. simpl.
    rewrite list_elem_of_singleton. case_decide as Hin.
    + rewrite IH. split; [by left|]. intros [?| ->]; [done|]. by apply IH.
    + rewrite elem_of_app, list_elem_of_singleton, IH. done.
Qed.

Lemma grouped_keys_NoDup l : NoDup (grouped l).*1.
Proof.
  induction l as [|x l IH] using rev_ind.
  - constructor.
  - rewrite grouped_snoc, upsert_keys. case_decide as Hin; [done|].
    apply NoDup_app. split_and!; [done| |apply NoDup_singleton].
    intros k Hk ->%list_elem_of_singleton. done.
Qed.

Lemma firstAt_lt k l (i : nat) : firstAt key k l = Some i → (i < length l)%nat.
Proof.
  unfold firstAt. intros Hf. apply fmap_Some in Hf as ([j x] & Hf & ->).
  apply list_find_Some in Hf as (Hl & _). by eapply lookup_lt_Some.
Qed.

Lemma firstAt_snoc k l x :
  firstAt key k (l ++ [x]) =
  match firstAt key k l with
  | Some i => Some i
  | None => if decide (key x = k) then Some (length l) else None
  end.
Proof.
  unfold firstAt. destruct (list_find _ l) as [[i y]|] eqn:E; simpl.
  - by erewrite list_find_app_l.
  - rewrite list_find_app_r by done. simpl.
    case_decide; simpl; [f_equal; lia|done].
Qed.

Lemma firstAt_is_Some k l : k ∈ key <$> l → is_Some (firstAt key k l).
Proof.
  intros (x & -> & Hx)%list_elem_of_fmap. unfold firstAt.
  destruct (list_find (λ y, key y = key x) l) as [[i y]|] eqn:E; [by eexists|].
  exfalso. rewrite list_find_None, Forall_forall in E. by apply (E x).
Qed.

(** The keys stand in the order in which they were first met. *)
Lemma grouped_keys_order l (i j : nat) k1 k2 :
  (grouped l).*1 !! i = Some k1 → (grouped l).*1 !! j = Some k2 → (i < j)%nat →
  ∃ p q, firstAt key k1 l = Some p ∧ firstAt key k2 l = Some q ∧ (p < q)%nat.
Proof.
  revert i j k1 k2. induction l as [|x l IH] using rev_ind; intros i j k1 k2; [done|].
  rewrite grouped_snoc, upsert_keys. case_decide as Hin.
  - intros Hi Hj Hlt. destruct (IH _ _ _ _ Hi Hj Hlt) as (p & q & Hp & Hq & ?).
    exists p, q. by rewrite !firstAt_snoc, Hp, Hq.
  - intros Hi Hj Hlt.
    apply lookup_app_Some in Hj as [Hj|[Hge Hj]].
    + rewrite lookup_app_l in Hi by (apply lookup_lt_Some in Hj; lia).
      destruct (IH _ _ _ _ Hi Hj Hlt) as (p & q & Hp & Hq & ?).
      exists p, q. by rewrite !firstAt_snoc, Hp, Hq.
    + apply list_lookup_singleton_Some in Hj as [Hj <-].
      rewrite lookup_app_l in Hi by lia.
      assert (Hk1 : k1 ∈ (grouped l).*1) by by eapply list_elem_of_lookup_2.
      assert (k1 ∈ key <$> l) as [p Hp]%firstAt_is_Some by by apply grouped_keys_elem_of.
      exists p, (length l). rewrite !firstAt_snoc, Hp.
      split; [done|]. split; [|by eapply firstAt_lt].
      destruct (firstAt key (key x) l) as [q|] eqn:Hq.
      * exfalso. apply Hin, grouped_keys_elem_of.
        unfold firstAt in Hq. apply fmap_Some in Hq as ([? y] & Hq & _).
        apply list_find_Some in Hq as (Hy & <- & _).
        apply list_elem_of_fmap. exists y. split; [done|].
        by eapply list_elem_of_lookup_2.
      * by rewrite decide_True.
Qed.

Lemma groupValue_snoc k l x :
  groupValue key init upd k (l ++ [x]) =
  if decide (k = key x)
  then Some (upd (default (init x) (groupValue key init upd k l)) x)
  else groupValue key init upd k l.
Proof.
  unfold groupValue. rewrite filter_app, filter_cons, filter_nil.
  destruct (decide (key x = k)) as [<-|Hne].
  - rewrite decide_True by done.
    destruct (filter _ l) as [|y g]; simpl; [done|].
    by rewrite fold_left_app.
  - rewrite decide_False by done. by rewrite app_nil_r.
Qed.

(** Every key holds the value of its group. *)
Lemma grouped_get k l : Map_get k (grouped l) = groupValue key init upd k l.
Proof.
  induction l as [|x l IH] using rev_ind; [done|].
  rewrite grouped_snoc, upsert_get, groupValue_snoc, IH. done.
Qed.

Lemma grouped_lookup l (i : nat) k v :
  grouped l !! i = Some (k, v) → groupValue key init upd k l = Some v.
Proof.
  intros Hi. rewrite <-grouped_get.
  eapply Map_get_lookup; [apply grouped_keys_NoDup|done].
Qed.
End GroupingFacts.

(** ** The champion loop *)

Lemma championStep_groupStep championMap match_ :
  championStep championMap match_ =
  groupStep championOf (λ m, newChampionAcc (participant m)) addMatch championMap match_.
Proof. reflexivity. Qed.

Lemma forEach_championStep matches :
  forEach championStep matches [] = Some (championMapOf matches).
Proof. apply forEach_groupStep. Qed.

Lemma fold_addMatch (g : list MatchDetails) (a : ChampionAcc) :
  let v := fold_left addMatch g a in
  acc_championId v = acc_championId a ∧
  acc_championName v = acc_championName a ∧
  acc_games v = acc_games a + Z.of_nat (length g) ∧
  acc_wins v = acc_wins a + Z.of_nat (length (List.filter (λ m, win (participant m)) g)) ∧
  acc_kills v = acc_kills a + sumZ ((λ m, kills (participant m)) <$> g) ∧
  acc_deaths v = acc_deaths a + sumZ ((λ m, deaths (participant m)) <$> g) ∧
  acc_assists v = acc_assists a + sumZ ((λ m, assists (participant m)) <$> g) ∧
  acc_playtime v = acc_playtime a + sumZ (gameDuration <$> g).
Proof.
  revert a. induction g as [|m g IH]; intros a.
  - unfold sumZ. simpl. repeat split; lia.
  - cbn [fold_left]. specialize (IH (addMatch a m)). cbv zeta in *.
    destruct IH as (-> & -> & -> & -> & -> & -> & -> & ->).
    rewrite !fmap_cons. unfold sumZ. cbn [foldr length List.filter addMatch
      acc_championId acc_championName acc_games acc_wins acc_kills acc_deaths
      acc_assists acc_playtime].
    destruct (win (participant m)); cbn [length]; repeat split; lia.
Qed.

(** An entry of [championMap] holds the totals of the matches of its
    champion. *)
Lemma championMapOf_lookup matches (i : nat) id stats :
  championMapOf matches !! i = Some (id, stats) →
  let g := matchesOf id matches in
  g ≠ [] ∧
  acc_championId stats = id ∧
  acc_games stats = Z.of_nat (length g) ∧
  acc_wins stats = Z.of_nat (length (List.filter (λ m, win (participant m)) g)) ∧
  acc_kills stats = sumZ ((λ m, kills (participant m)) <$> g) ∧
  acc_deaths stats = sumZ ((λ m, deaths (participant m)) <$> g) ∧
  acc_assists stats = sumZ ((λ m, assists (participant m)) <$> g) ∧
  acc_playtime stats = sumZ (gameDuration <$> g).
Proof.
  intros Hi. apply grouped_lookup in Hi. unfold groupValue in Hi.
  cbv zeta. unfold matchesOf.
  destruct (filter _ matches) as [|x g] eqn:E; [done|]. simplify_eq.
  assert (Hx : championOf x = id).
  { assert (x ∈ filter (λ m, championOf m = id) matches) as Hin by (rewrite E; left).
    by apply list_elem_of_filter in Hin as [? _]. }
  pose proof (fold_addMatch (x :: g) (newChampionAcc (participant x))) as H.
  cbv zeta in H. destruct H as (-> & _ & -> & -> & -> & -> & -> & ->).
  simpl. split; [done|]. repeat split; done || lia.
Qed.

Lemma championMapOf_games_pos matches (i : nat) id stats :
  championMapOf matches !! i = Some (id, stats) → 0 < acc_games stats.
Proof.
  intros (Hne & _ & -> & _)%championMapOf_lookup.
  destruct (matchesOf id matches); [done|]. simpl. lia.
Qed.

(** ** Running maxima *)

Section RunningMax.
Context {A V : Type} (gtb : V → V → bool) (score : A → V) (good : V → Prop).
Hypothesis gtb_irrefl : ∀ a, gtb a a = false.
Hypothesis gtb_trans : ∀ a b c, gtb a b = true → gtb b c = true → gtb a c = true.
Hypothesis gtb_negtrans : ∀ a b c,
  good a → good b → good c → gtb a b = false → gtb b c = false → gtb a c = false.
Hypothesis score_good : ∀ x, good (score x).

(** After the scan the state is either the initial one, no element
    having beaten it, or the first element of greatest score. *)
Lemma maxStep_fold (l : list A) (v0 : V) (o0 : option A) :
  good v0 →
  (fold_left (maxStep gtb score) l (v0, o0) = (v0, o0) ∧
   ∀ x, x ∈ l → gtb (score x) v0 = false) ∨
  (∃ (i : nat) (x : A),
     l !! i = Some x ∧
     fold_left (maxStep gtb score) l (v0, o0) = (score x, Some x) ∧
     gtb (score x) v0 = true ∧
     (∀ y, y ∈ l → gtb (score y) (score x) = false) ∧
     (∀ (j : nat) y, l !! j = Some y → (j < i)%nat → gtb (score x) (score y) = true)).
Proof using gtb_irrefl gtb_trans gtb_negtrans score_good.
  revert v0 o0. induction l as [|x l IH]; intros v0 o0 Hv0.
  - left. split; [done|]. by intros x ?%elem_of_nil.
  - assert (Hstep : maxStep gtb score (v0, o0) x =
                    if gtb (score x) v0 then (score x, Some x) else (v0, o0)) by done.
    cbn [fold_left]. rewrite Hstep. clear Hstep.
    destruct (gtb (score x) v0) eqn:Hx.
    + right. destruct (IH (score x) (Some x) (score_good x))
        as [[Heq Hall]|(i & y & Hi & Heq & Hgt & Hall & Hbefore)].
      * exists 0%nat, x. split_and!; [done|done|done| |intros; lia].
        intros y [->|Hy]%elem_of_cons; [apply gtb_irrefl|by apply Hall].
      * exists (S i), y. split_and!; [done|done|by eapply gtb_trans| |].
        -- intros z [->|Hz]%elem_of_cons; [|by apply Hall].
           destruct (gtb (score x) (score y)) eqn:E; [|done].
           pose proof (gtb_trans _ _ _ E Hgt) as Hxx.
           by rewrite gtb_irrefl in Hxx.
        -- intros [|j] z Hj Hlt; simpl in Hj; [by simplify_eq|].
           apply (Hbefore j); [done|lia].
    + destruct (IH v0 o0 Hv0) as [[Heq Hall]|(i & y & Hi & Heq & Hgt & Hall & Hbefore)].
      * left. split; [done|]. intros y [->|Hy]%elem_of_cons; [done|by apply Hall].
      * right. exists (S i), y. split_and!; [done|done|done| |].
        -- intros z [->|Hz]%elem_of_cons; [|by apply Hall].
           destruct (gtb (score x) (score y)) eqn:E; [|done].
           by rewrite (gtb_trans _ _ _ E Hgt) in Hx.
        -- intros [|j] z Hj Hlt; simpl in Hj.
           ++ simplify_eq. destruct (gtb (score y) (score z)) eqn:E; [done|].
              by rewrite (gtb_negtrans _ _ _ (score_good _) (score_good _) Hv0 E Hx) in Hgt.
           ++ apply (Hbefore j); [done|lia].
Qed.
End RunningMax.

Lemma Qgtb_lt (a b : Q) : Qgtb a b = true ↔ (b < a)%Q.
Proof. apply gt_Num. Qed.

Lemma Qgtb_le (a b : Q) : Qgtb a b = false ↔ (a <= b)%Q.
Proof. apply gt_Num_false. Qed.

Lemma Qgtb_irrefl (a : Q) : Qgtb a a = false.
Proof. apply Qgtb_le, Qle_refl. Qed.

Lemma Qgtb_trans (a b c : Q) : Qgtb a b = true → Qgtb b c = true → Qgtb a c = true.
Proof. rewrite !Qgtb_lt. intros. by eapply Qlt_trans. Qed.

Lemma Qgtb_negtrans (a b c : Q) : Qgtb a b = false → Qgtb b c = false → Qgtb a c = false.
Proof. rewrite !Qgtb_le. intros. by eapply Qle_trans. Qed.

Lemma Zgtb_irrefl (a : Z) : Zgtb a a = false.
Proof. unfold Zgtb. lia. Qed.

Lemma Zgtb_trans (a b c : Z) : Zgtb a b = true → Zgtb b c = true → Zgtb a c = true.
Proof. unfold Zgtb. lia. Qed.

Lemma Zgtb_negtrans (a b c : Z) : Zgtb a b = false → Zgtb b c = false → Zgtb a c = false.
Proof. unfold Zgtb. lia. Qed.

(** ** The highlight scan *)

(** The KDA of any three integers is a number or an infinity, never
    [NaN]: the division is not reached with zero deaths. *)
Lemma add_ofZ (a b : Z) : add (ofZ a) (ofZ b) = round64 (inject_Z (a + b)).
Proof.
  cbn [add ofZ]. unfold round64.
  assert (Heq : (inject_Z a + inject_Z b == inject_Z (a + b))%Q) by by rewrite inject_Z_plus.
  assert (E0 : Qeq_bool (inject_Z a + inject_Z b) 0 = Qeq_bool (inject_Z (a + b)) 0).
  { apply eq_true_iff_eq. rewrite !Qeq_bool_iff. by rewrite Heq. }
  rewrite E0. destruct (Qeq_bool (inject_Z (a + b)) 0); [done|].
  assert (E1 : Qle_bool 0 (inject_Z a + inject_Z b) = Qle_bool 0 (inject_Z (a + b))).
  { apply eq_true_iff_eq. rewrite !Qle_bool_iff. by rewrite Heq. }
  rewrite E1. cbv zeta.
  assert (Habs : Qabs (inject_Z a + inject_Z b) = Qabs (inject_Z (a + b))).
  { unfold inject_Z, Qplus, Qabs. cbn [Qnum Qden]. f_equal. lia. }
  by rewrite Habs.
Qed.

Lemma calculateKDA_ordered (kills deaths assists : Z) :
  ordered (calculateKDA kills deaths assists).
Proof.
  unfold calculateKDA. rewrite add_ofZ.
  destruct (deaths =? 0) eqn:E; [apply round64_ordered|].
  apply Z.eqb_neq in E.
  destruct (round64_cases (inject_Z (kills + assists)))
    as [(r & -> & _)|[(-> & _)|(-> & _)]].
  - unfold ofZ. rewrite div_Num by by rewrite inject_Z_eq0. apply round64_ordered.
  - unfold ordered. cbn. by destruct (Qle_bool _ _).
  - unfold ordered. cbn. by destruct (Qle_bool _ _).
Qed.

Lemma matchKDA_ordered match_ : ordered (matchKDA match_).
Proof. apply calculateKDA_ordered. Qed.

(** On a safe sum the KDA is the sum itself at zero deaths and a
    binary64 value nearest to the exact quotient otherwise. *)
Lemma calculateKDA_safe (kills deaths assists : Z) :
  safeInteger (kills + assists) →
  if decide (deaths = 0) then calculateKDA kills deaths assists = ofZ (kills + assists)
  else ∃ q, calculateKDA kills deaths assists = Num q ∧
            nearest64 (inject_Z (kills + assists) / inject_Z deaths) q.
Proof.
  intros Hsafe. unfold calculateKDA. rewrite add_ofZ.
  rewrite round64_Z by (unfold safeInteger in Hsafe; lia).
  destruct (decide (deaths = 0)) as [->|Hd]; [done|].
  rewrite (proj2 (Z.eqb_neq deaths 0)) by done.
  by apply quotient_spec.
Qed.

(** The KDA of three integers that are not negative beats the seed of
    the scan. *)
Lemma gt_seed (n : number) :
  (n = Infinity ∨ ∃ r, n = Num r ∧ (0 <= r)%Q) → gt n (ofZ (-1)) = true.
Proof.
  intros [->|(r & -> & Hr)]; [done|].
  apply gt_Num. change (inject_Z (-1)) with (-1)%Q. lra.
Qed.

Lemma calculateKDA_nonneg (kills deaths assists : Z) :
  0 ≤ kills → 0 ≤ deaths → 0 ≤ assists →
  gt (calculateKDA kills deaths assists) (ofZ (-1)) = true.
Proof.
  intros Hk Hd Ha. unfold calculateKDA. rewrite add_ofZ.
  assert (Hsum : (0 <= inject_Z (kills + assists))%Q).
  { change 0%Q with (inject_Z 0). rewrite <-Zle_Qle. lia. }
  destruct (deaths =? 0) eqn:E; [by apply gt_seed, round64_nonneg|].
  apply Z.eqb_neq in E.
  assert (Hd' : (0 < inject_Z deaths)%Q).
  { change 0%Q with (inject_Z 0). rewrite <-Zlt_Qlt. lia. }
  destruct (round64_nonneg _ Hsum) as [->|(r & -> & Hr)].
  - cbn [div ofZ]. assert (Hle : Qle_bool 0 (inject_Z deaths) = true).
    { apply Qle_bool_iff. lra. }
    by rewrite Hle.
  - unfold ofZ. rewrite div_Num by lra. apply gt_seed, round64_nonneg.
    apply Qle_shift_div_l; [done|]. lra.
Qed.

(** The four maxima of the scan do not interact. *)
Lemma highlight_mostKills l s :
  let r := fold_left highlightStep l s in
  (mostKillsValue r, hs_mostKills r) =
  fold_left (maxStep Zgtb (λ m, kills (participant m))) l (mostKillsValue s, hs_mostKills s).
Proof.
  revert s. induction l as [|m l IH]; intros s; [done|].
  cbn [fold_left]. cbv zeta in *. rewrite IH. f_equal.
  unfold maxStep, Zgtb, highlightStep. cbn. by destruct (_ <? _).
Qed.

Lemma highlight_longestGame l s :
  let r := fold_left highlightStep l s in
  (longestGameDuration r, hs_longestGame r) =
  fold_left (maxStep Zgtb gameDuration) l (longestGameDuration s, hs_longestGame s).
Proof.
  revert s. induction l as [|m l IH]; intros s; [done|].
  cbn [fold_left]. cbv zeta in *. rewrite IH. f_equal.
  unfold maxStep, Zgtb, highlightStep. cbn. by destruct (_ <? _).
Qed.

Lemma highlight_highestDamage l s :
  let r := fold_left highlightStep l s in
  (highestDamageValue r, hs_highestDamage r) =
  fold_left (maxStep Zgtb (λ m, totalDamageDealt (participant m))) l
    (highestDamageValue s, hs_highestDamage s).
Proof.
  revert s. induction l as [|m l IH]; intros s; [done|].
  cbn [fold_left]. cbv zeta in *. rewrite IH. f_equal.
  unfold maxStep, Zgtb, highlightStep. cbn. by destruct (_ <? _).
Qed.

Lemma highlight_bestKDA l s :
  let r := fold_left highlightStep l s in
  (bestKDAValue r, hs_bestKDA r) =
  fold_left (maxStep gt matchKDA) l (bestKDAValue s, hs_bestKDA s).
Proof.
  revert s. induction l as [|m l IH]; intros s; [done|].
  cbn [fold_left]. cbv zeta in *. rewrite IH. f_equal.
  unfold maxStep, highlightStep. cbn [bestKDAValue hs_bestKDA fst snd].
  by destruct (gt _ _).
Qed.

(** ** Temporal trends *)

Lemma bucketStep_groupStep key buckets match_ :
  bucketStep key buckets match_ =
  groupStep key (λ _, {| bk_games := 0; bk_wins := 0 |}) addToBucket buckets match_.
Proof. reflexivity. Qed.

Lemma forEach_bucketStep key matches :
  forEach (bucketStep key) matches [] = Some (bucketsOf key matches).
Proof. apply forEach_groupStep. Qed.

(** Picking the best and the worst month never throws: they are the
    two ends of the significant months sorted by win rate. *)
Lemma bestAndWorst_spec (monthlyWinRate : list MonthlyData) :
  let sortedByWinRate := Array_sort byWinRateDesc (significant monthlyWinRate) in
  bestAndWorst monthlyWinRate =
  Some (from_option month "" (head sortedByWinRate),
        from_option month "" (last sortedByWinRate)).
Proof.
  cbv zeta. unfold bestAndWorst.
  pose proof (Array_sort_length byWinRateDesc (significant monthlyWinRate)) as Hlen.
  case_decide as Hpos.
  - rewrite head_lookup, last_lookup.
    destruct (lookup_lt_is_Some_2 (Array_sort byWinRateDesc (significant monthlyWinRate)) 0)
      as [a Ha]; [lia|].
    destruct (lookup_lt_is_Some_2 (Array_sort byWinRateDesc (significant monthlyWinRate))
                (length (Array_sort byWinRateDesc (significant monthlyWinRate)) - 1))
      as [b Hb]; [lia|].
    replace (pred (length (Array_sort byWinRateDesc (significant monthlyWinRate))))
      with (length (Array_sort byWinRateDesc (significant monthlyWinRate)) - 1)%nat by lia.
    rewrite Ha, Hb. done.
  - destruct (significant monthlyWinRate); [done|simpl in Hpos; lia].
Qed.

Lemma calculateTemporalTrends_nonempty host matches :
  matches ≠ [] →
  let sortedByWinRate := Array_sort byWinRateDesc (significant (monthTable host matches)) in
  calculateTemporalTrends host matches = Some {|
    monthlyWinRate := monthTable host matches;
    weeklyPerformance := weekTable host matches;
    bestMonth := from_option month "" (head sortedByWinRate);
    worstMonth := from_option month "" (last sortedByWinRate)
  |}.
Proof.
  intros Hne. cbv zeta. unfold calculateTemporalTrends.
  rewrite decide_False by (by destruct matches).
  rewrite !forEach_bucketStep. cbn [mbind option_bind].
  unfold Map_entries. fold (monthTable host matches).
  rewrite bestAndWorst_spec. cbn [mbind option_bind].
  done.
Qed.

(** ** The aggregation as a whole *)

Lemma aggregateMatchData_nil host masteries :
  aggregateMatchData host [] masteries = Some emptyAnalytics.
Proof. reflexivity. Qed.

(** On a non-empty list the aggregation never throws; its parts. *)
Lemma aggregateMatchData_nonempty host matches masteries :
  matches ≠ [] →
  ∃ r t,
    aggregateMatchData host matches masteries = Some r ∧
    calculateTemporalTrends host matches = Some t ∧
    temporalTrends r = t ∧
    totalGames (overview r) = Z.of_nat (length matches) ∧
    totalWins (overview r) =
      Z.of_nat (length (List.filter (λ m, win (participant m)) matches)) ∧
    totalLosses (overview r) = totalGames (overview r) - totalWins (overview r) ∧
    avgKDA (overview r) =
      calculateKDA (total (λ m, kills (participant m)) matches)
        (total (λ m, deaths (participant m)) matches)
        (total (λ m, assists (participant m)) matches) ∧
    championStats r =
      Array_sort byGamesDesc
        (toChampionStat (buildMasteryMap masteries) <$> Map_values (championMapOf matches)) ∧
    performanceMetrics r = {|
      avgVisionScore :=
        div (ofZ (total (λ m, visionScore (participant m)) matches))
          (ofZ (Z.of_nat (length matches)));
      avgDamagePerMinute :=
        div (ofZ (total (λ m, totalDamageDealt (participant m)) matches))
          (div (ofZ (total gameDuration matches)) (ofZ 60));
      avgGoldPerMinute :=
        div (ofZ (total (λ m, goldEarned (participant m)) matches))
          (div (ofZ (total gameDuration matches)) (ofZ 60));
      avgCSPerMinute :=
        div (ofZ (total (λ m, totalMinionsKilled (participant m)) matches))
          (div (ofZ (total gameDuration matches)) (ofZ 60))
    |} ∧
    streaks r = calculateStreaks matches ∧
    roleDistribution r = calculateRoleDistribution matches ∧
    highlightMatches r = {|
      bestKDA := hs_bestKDA (fold_left highlightStep matches highlightSeed);
      mostKills := hs_mostKills (fold_left highlightStep matches highlightSeed);
      longestGame := hs_longestGame (fold_left highlightStep matches highlightSeed);
      highestDamage := hs_highestDamage (fold_left highlightStep matches highlightSeed)
    |}.
Proof.
  intros Hne.
  pose proof (calculateTemporalTrends_nonempty host matches Hne) as Ht. cbv zeta in Ht.
  unfold aggregateMatchData.
  rewrite decide_False by (by destruct matches).
  rewrite forEach_championStep. cbn [mbind option_bind].
  rewrite Ht. cbn [mbind option_bind].
  eexists _, _. split; [reflexivity|]. split; [reflexivity|].
  cbn [temporalTrends overview totalGames totalWins totalLosses avgKDA championStats
       performanceMetrics streaks roleDistribution highlightMatches].
  unfold total. rewrite !fold_left_add, !Z.add_0_l.
  split_and!; reflexivity.
Qed.

(** What the scan leaves in each of its four slots: nothing when no
    match beats the seed, else the first match of greatest score. *)
Lemma scan_bestKDA (matches : list MatchDetails) :
  let found := hs_bestKDA (fold_left highlightStep matches highlightSeed) in
  (found = None ∧ ∀ m, m ∈ matches → gt (matchKDA m) (ofZ (-1)) = false) ∨
  (∃ (i : nat) b,
     matches !! i = Some b ∧ found = Some b ∧
     gt (matchKDA b) (ofZ (-1)) = true ∧
     (∀ m, m ∈ matches → gt (matchKDA m) (matchKDA b) = false) ∧
     (∀ (j : nat) m, matches !! j = Some m → (j < i)%nat →
        gt (matchKDA b) (matchKDA m) = true)).
Proof.
  cbv zeta. pose proof (highlight_bestKDA matches highlightSeed) as Hp.
  cbv zeta in Hp. change (bestKDAValue highlightSeed) with (ofZ (-1)) in Hp.
  change (hs_bestKDA highlightSeed) with (@None MatchDetails) in Hp.
  destruct (maxStep_fold gt matchKDA ordered gt_irrefl gt_trans gt_negtrans
              matchKDA_ordered matches (ofZ (-1)) None)
    as [[Heq Hall]|(i & b & Hi & Heq & Hgt & Hall & Hbefore)];
    [discriminate| |]; rewrite Heq in Hp; injection Hp as _ ->.
  - left. done.
  - right. exists i, b. done.
Qed.

Section ScanZ.
Context (score : MatchDetails → Z) (slot : HighlightScan → option MatchDetails)
  (value : HighlightScan → Z).
Hypothesis projection : ∀ l s,
  (value (fold_left highlightStep l s), slot (fold_left highlightStep l s)) =
  fold_left (maxStep Zgtb score) l (value s, slot s).
Hypothesis seed : value highlightSeed = -1 ∧ slot highlightSeed = None.

Lemma scan_Z (matches : list MatchDetails) :
  let found := slot (fold_left highlightStep matches highlightSeed) in
  (found = None ∧ ∀ m, m ∈ matches → score m ≤ -1) ∨
  (∃ (i : nat) b,
     matches !! i = Some b ∧ found = Some b ∧
     -1 < score b ∧
     (∀ m, m ∈ matches → score m ≤ score b) ∧
     (∀ (j : nat) m, matches !! j = Some m → (j < i)%nat → score m < score b)).
Proof using projection seed.
  cbv zeta. pose proof (projection matches highlightSeed) as Hp.
  destruct seed as [Hv Ho]. rewrite Hv, Ho in Hp.
  destruct (maxStep_fold Zgtb score (λ _, True) Zgtb_irrefl Zgtb_trans
              (λ a b c _ _ _, Zgtb_negtrans a b c) (λ _, I) matches (-1) None I)
    as [[Heq Hall]|(i & b & Hi & Heq & Hgt & Hall & Hbefore)];
    rewrite Heq in Hp; injection Hp as _ ->.
  - left. split; [done|]. intros m Hm. specialize (Hall m Hm). unfold Zgtb in Hall. lia.
  - right. exists i, b. split_and!; [done|done|unfold Zgtb in Hgt; lia| |].
    + intros m Hm. specialize (Hall m Hm). unfold Zgtb in Hall. lia.
    + intros j m Hj Hlt. specialize (Hbefore j m Hj Hlt). unfold Zgtb in Hbefore. lia.
Qed.
End ScanZ.

Lemma scan_mostKills (matches : list MatchDetails) :
  let score m := kills (participant m) in
  let found := hs_mostKills (fold_left highlightStep matches highlightSeed) in
  (found = None ∧ ∀ m, m ∈ matches → score m ≤ -1) ∨
  (∃ (i : nat) b,
     matches !! i = Some b ∧ found = Some b ∧
     -1 < score b ∧
     (∀ m, m ∈ matches → score m ≤ score b) ∧
     (∀ (j : nat) m, matches !! j = Some m → (j < i)%nat → score m < score b)).
Proof. apply (scan_Z _ hs_mostKills mostKillsValue); [apply highlight_mostKills|done]. Qed.

Lemma scan_longestGame (matches : list MatchDetails) :
  let found := hs_longestGame (fold_left highlightStep matches highlightSeed) in
  (found = None ∧ ∀ m, m ∈ matches → gameDuration m ≤ -1) ∨
  (∃ (i : nat) b,
     matches !! i = Some b ∧ found = Some b ∧
     -1 < gameDuration b ∧
     (∀ m, m ∈ matches → gameDuration m ≤ gameDuration b) ∧
     (∀ (j : nat) m, matches !! j = Some m → (j < i)%nat →
        gameDuration m < gameDuration b)).
Proof.
  apply (scan_Z _ hs_longestGame longestGameDuration); [apply highlight_longestGame|done].
Qed.

Lemma scan_highestDamage (matches : list MatchDetails) :
  let score m := totalDamageDealt (participant m) in
  let found := hs_highestDamage (fold_left highlightStep matches highlightSeed) in
  (found = None ∧ ∀ m, m ∈ matches → score m ≤ -1) ∨
  (∃ (i : nat) b,
     matches !! i = Some b ∧ found = Some b ∧
     -1 < score b ∧
     (∀ m, m ∈ matches → score m ≤ score b) ∧
     (∀ (j : nat) m, matches !! j = Some m → (j < i)%nat → score m < score b)).
Proof.
  apply (scan_Z _ hs_highestDamage highestDamageValue); [apply highlight_highestDamage|done].
Qed.

(** An entry of the champion table comes from an entry of [championMap]. *)
Lemma championStats_elem_of matches masteryMap (s : ChampionStat) :
  s ∈ Array_sort byGamesDesc (toChampionStat masteryMap <$> Map_values (championMapOf matches)) →
  ∃ (i : nat) stats,
    championMapOf matches !! i = Some (acc_championId stats, stats) ∧
    s = toChampionStat masteryMap stats.
Proof.
  rewrite Array_sort_elem_of. unfold Map_values.
  intros (stats & -> & Hin)%list_elem_of_fmap.
  apply list_elem_of_fmap in Hin as ([id stats'] & -> & Hin).
  apply list_elem_of_lookup in Hin as [i Hi].
  pose proof (championMapOf_lookup _ _ _ _ Hi) as (_ & Hid & _).
  exists i, stats'. simpl. rewrite Hid. done.
Qed.

(** Every champion of the matches has an entry in the champion table. *)
Lemma championStats_present matches masteryMap (m : MatchDetails) :
  m ∈ matches →
  ∃ s,
    s ∈ Array_sort byGamesDesc (toChampionStat masteryMap <$> Map_values (championMapOf matches)) ∧
    cs_championId s = championId (participant m).
Proof.
  intros Hm.
  assert (Hk : championOf m ∈ (championMapOf matches).*1).
  { apply grouped_keys_elem_of, list_elem_of_fmap. by exists m. }
  apply list_elem_of_fmap in Hk as ([id stats] & Hid & Hin). simpl in Hid.
  apply list_elem_of_lookup in Hin as [i Hi].
  pose proof (championMapOf_lookup _ _ _ _ Hi) as (_ & Hacc & _).
  exists (toChampionStat masteryMap stats). split.
  - rewrite Array_sort_elem_of. apply list_elem_of_fmap. exists stats.
    split; [done|]. unfold Map_values. apply list_elem_of_fmap. exists (id, stats).
    split; [done|]. by eapply list_elem_of_lookup_2.
  - simpl. by rewrite Hacc, <-Hid.
Qed.

(** Every round of a counting loop adds one game to the table. *)
Lemma upsert_count {A K V : Type} `{EqDecision K} (key : A → K) (init : A → V)
    (upd : V → A → V) (games : V → Z) (m : Map K V) (x : A) :
  (∀ v, games (upd v x) = games v + 1) → games (init x) = 0 →
  sumZ (games <$> (upsert key init upd m x).*2) = sumZ (games <$> m.*2) + 1.
Proof.
  intros Hupd Hinit. unfold upsert.
  induction m as [|[k0 v0] m IH].
  - unfold sumZ. simpl. rewrite Hupd, Hinit. lia.
  - cbn [Map_get Map_set]. destruct (decide (key x = k0)) as [Hk|Hk].
    + unfold sumZ. simpl. rewrite Hupd. lia.
    + rewrite !fmap_cons. unfold sumZ in *. cbn [foldr snd]. rewrite IH. lia.
Qed.

Lemma championMapOf_games matches :
  sumZ (acc_games <$> Map_values (championMapOf matches)) = Z.of_nat (length matches).
Proof.
  unfold Map_values, championMapOf.
  induction matches as [|x l IH] using rev_ind; [done|].
  rewrite grouped_snoc, upsert_count, IH, length_app; [simpl; lia|done..].
Qed.

(** The mastery lookup map holds, for each champion, the last of its
    records. *)
Lemma buildMasteryMap_lookup (masteries : list EnrichedMastery) (id : Z) :
  buildMasteryMap masteries !! id = last (filter (λ e, em_championId e = id) masteries).
Proof.
  unfold buildMasteryMap.
  induction masteries as [|e l IH] using rev_ind; [done|].
  rewrite fold_left_snoc, lookup_insert, filter_app, filter_cons, filter_nil.
  destruct (decide (em_championId e = id)) as [Heq|Hne].
  - by rewrite last_snoc.
  - by rewrite app_nil_r.
Qed.

Lemma Qcompare_inject_Z_0 (z : Z) : Qcompare (inject_Z z) 0 = (z ?= 0).
Proof. unfold Qcompare. simpl. by destruct z. Qed.

(** A division by a zero quotient. *)
Lemma div_by_zero_minutes (z : Z) :
  div (ofZ z) (div (ofZ 0) (ofZ 60)) = signedInfinity (z ?= 0).
Proof. cbn. by destruct z. Qed.

(** ** Streaks *)

Lemma trailing_snoc (b x : bool) (l : list bool) :
  trailing b (l ++ [x]) = if decide (x = b) then S (trailing b l) else 0%nat.
Proof. unfold trailing. by rewrite rev_unit. Qed.

Lemma isRun_trailing (b : bool) (l : list bool) :
  ∃ before, l = before ++ replicate (trailing b l) b.
Proof.
  induction l as [|x l [before IH]] using rev_ind.
  - by exists [].
  - rewrite trailing_snoc. case_decide as Hx.
    + subst x. exists before. rewrite replicate_S_end, app_assoc. by rewrite <-IH.
    + exists (l ++ [x]). by rewrite app_nil_r.
Qed.

Lemma trailing_ge (b : bool) (n : nat) (before : list bool) :
  (n ≤ trailing b (before ++ replicate n b))%nat.
Proof.
  induction n as [|n IH]; [lia|].
  rewrite replicate_S_end, app_assoc, trailing_snoc, decide_True by done. lia.
Qed.

Lemma isRun_snoc (b x : bool) (n : nat) (l : list bool) :
  isRun b n l → isRun b n (l ++ [x]).
Proof.
  intros (before & after & ->). exists before, (after ++ [x]).
  by rewrite <-!app_assoc.
Qed.

(** A run of the extended list lies in the list or is its final run. *)
Lemma isRun_snoc_inv (b x : bool) (n : nat) (l : list bool) :
  isRun b n (l ++ [x]) → isRun b n l ∨ (n ≤ trailing b (l ++ [x]))%nat.
Proof.
  intros (before & after & Heq).
  destruct after as [|y after _] using rev_ind.
  - right. rewrite Heq, app_nil_r. apply trailing_ge.
  - left. rewrite !app_assoc in Heq. apply app_inj_tail in Heq as [-> _].
    exists before, after. by rewrite <-app_assoc.
Qed.

Lemma streakStep_counters (b : bool) (s : StreakScan) (m : MatchDetails) :
  let s' := streakStep s m in
  if decide (win (participant m) = b) then
    currentOf b s' = currentOf b s + 1 ∧
    longestOf b s' = Z.max (longestOf b s) (currentOf b s + 1)
  else currentOf b s' = 0 ∧ longestOf b s' = longestOf b s.
Proof.
  unfold streakStep. destruct (win (participant m)), b; by simpl.
Qed.

(** After the scan of [l], for each result [b]: the current counter is
    the length of the final run of [b], and the longest counter is the
    length of a run of [b] that no run of [b] exceeds. *)
Lemma streak_scan (b : bool) (l : list MatchDetails) :
  let s := fold_left streakStep l streakSeed in
  currentOf b s = Z.of_nat (trailing b (results l)) ∧
  0 ≤ longestOf b s ∧
  isRun b (Z.to_nat (longestOf b s)) (results l) ∧
  ∀ n, isRun b n (results l) → Z.of_nat n ≤ longestOf b s.
Proof.
  induction l as [|m l IH] using rev_ind; cbv zeta in *.
  - split_and!; [by destruct b|by destruct b| |].
    + exists [], []. by destruct b.
    + intros n (before & after & Heq). symmetry in Heq.
      apply app_eq_nil in Heq as [_ Heq]. apply app_eq_nil in Heq as [Heq _].
      destruct n; [by destruct b|done].
  - destruct IH as (Hcur & Hpos & Hrun & Hmax).
    rewrite fold_left_snoc. unfold results in *. rewrite fmap_app. simpl.
    pose proof (streakStep_counters b (fold_left streakStep l streakSeed) m) as Hstep.
    cbv zeta in Hstep. rewrite trailing_snoc.
    destruct (decide (win (participant m) = b)) as [Hw|Hw];
      destruct Hstep as [Hc' Hl']; rewrite Hc', Hl'.
    + split_and!; [lia|lia| |].
      * destruct (Z.max_spec (longestOf b (fold_left streakStep l streakSeed))
                    (currentOf b (fold_left streakStep l streakSeed) + 1))
          as [[_ ->]|[_ ->]].
        -- rewrite Hcur. replace (Z.to_nat (Z.of_nat _ + 1)) with
             (trailing b (((λ m, win (participant m)) <$> l) ++ [win (participant m)])).
           ++ destruct (isRun_trailing b (((λ m, win (participant m)) <$> l)
                          ++ [win (participant m)])) as [before Hb].
              exists before, []. by rewrite app_nil_r.
           ++ rewrite trailing_snoc, decide_True by done. lia.
        -- by apply isRun_snoc.
      * intros n [Hn|Hn]%isRun_snoc_inv.
        -- specialize (Hmax n Hn). lia.
        -- rewrite trailing_snoc, decide_True in Hn by done. lia.
    + split_and!; [done|done|by apply isRun_snoc|].
      intros n [Hn|Hn]%isRun_snoc_inv.
      * by apply Hmax.
      * rewrite trailing_snoc, decide_False in Hn by done. lia.
Qed.

Lemma last_results_trailing (l : list bool) :
  match last l with
  | Some b => (0 < trailing b l)%nat ∧ trailing (negb b) l = 0%nat
  | None => l = []
  end.
Proof.
  destruct l as [|x l _] using rev_ind; [done|].
  rewrite last_snoc, !trailing_snoc, decide_True by done.
  rewrite decide_False by (by destruct x). lia.
Qed.

(** Sorting by creation time puts the matches in chronological order. *)
Lemma chronological_sorted (matches : list MatchDetails) :
  StronglySorted (λ a b, gameCreation a ≤ gameCreation b) (chronological matches).
Proof.
  apply Array_sort_sorted; [intros x y z; lia|].
  intros x y _ _. unfold decides, byCreationAsc.
  destruct (gt _ _) eqn:E; [apply gt_ofZ in E|apply gt_ofZ_false in E]; lia.
Qed.

Lemma calculateStreaks_nonempty (matches : list MatchDetails) :
  matches ≠ [] →
  let s := fold_left streakStep (chronological matches) streakSeed in
  calculateStreaks matches = {|
    longestWinStreak := scan_longestWinStreak s;
    longestLossStreak := scan_longestLossStreak s;
    currentStreak :=
      if 0 <? currentWinStreak s
      then {| type := Win; count := currentWinStreak s |}
      else {| type := Loss; count := currentLossStreak s |}
  |}.
Proof.
  intros Hne. unfold calculateStreaks.
  rewrite decide_False by (by destruct matches). done.
Qed.

Lemma NoDup_fmap_eq {A B : Type} (f : A → B) (l : list A) (x y : A) :
  NoDup (f <$> l) → x ∈ l → y ∈ l → f x = f y → x = y.
Proof.
  induction l as [|a l IH]; intros Hnd Hx Hy Heq; [by apply elem_of_nil in Hx|].
  rewrite fmap_cons in Hnd. apply NoDup_cons in Hnd as [Hnotin Hnd].
  apply elem_of_cons in Hx as [->|Hx]; apply elem_of_cons in Hy as [->|Hy].
  - done.
  - exfalso. apply Hnotin. rewrite Heq. apply list_elem_of_fmap. by exists y.
  - exfalso. apply Hnotin. rewrite <-Heq. apply list_elem_of_fmap. by exists x.
  - by apply IH.
Qed.

(** With distinct creation times the chronological order does not
    depend on the order of the input. *)
Lemma chronological_Permutation (matches matches' : list MatchDetails) :
  matches' ≡ₚ matches → NoDup (gameCreation <$> matches) →
  chronological matches' = chronological matches.
Proof.
  intros Hperm Hnd.
  apply (StronglySorted_unique_strong (λ a b, gameCreation a ≤ gameCreation b));
    [|apply chronological_sorted..|].
  - intros x y Hx Hy Hxy Hyx.
    unfold chronological in Hx, Hy. rewrite Array_sort_elem_of in Hx, Hy.
    rewrite Hperm in Hx. apply (NoDup_fmap_eq gameCreation matches); [done..|lia].
  - unfold chronological. by rewrite !Array_sort_Permutation.
Qed.

(** ** Best and worst month *)

Lemma fold_addToBucket (g : list MatchDetails) (a : Bucket) :
  bk_games (fold_left addToBucket g a) = bk_games a + Z.of_nat (length g).
Proof.
  revert a. induction g as [|m g IH]; intros a; simpl; [lia|].
  rewrite IH. simpl. lia.
Qed.

Lemma bucketsOf_games_pos key matches (i : nat) k stats :
  bucketsOf key matches !! i = Some (k, stats) → 0 < bk_games stats.
Proof.
  intros Hi. apply grouped_lookup in Hi. unfold groupValue in Hi.
  destruct (filter _ matches) as [|x g]; [done|]. simplify_eq.
  rewrite fold_addToBucket. simpl. lia.
Qed.

Lemma fold_addToBucket_bounds (g : list MatchDetails) (a : Bucket) :
  0 ≤ bk_wins a ≤ bk_games a →
  0 ≤ bk_wins (fold_left addToBucket g a) ≤ bk_games (fold_left addToBucket g a).
Proof.
  revert a. induction g as [|m g IH]; intros a Ha; [done|].
  cbn [fold_left]. apply IH. cbn [addToBucket bk_wins bk_games].
  destruct (win (participant m)); lia.
Qed.

Lemma bucketsOf_wins_bounds key matches (i : nat) k stats :
  bucketsOf key matches !! i = Some (k, stats) → 0 ≤ bk_wins stats ≤ bk_games stats.
Proof.
  intros Hi. apply grouped_lookup in Hi. unfold groupValue in Hi.
  destruct (filter _ matches) as [|x g]; [done|]. simplify_eq.
  apply fold_addToBucket_bounds. cbn [addToBucket bk_wins bk_games].
  destruct (win (participant x)); lia.
Qed.

(** The win rate of a bucket: the share of the wins rounded, times 100
    rounded; a binary64 value between 0 and 100. *)
Lemma bucketWinRate_spec (stats : Bucket) :
  0 < bk_games stats → 0 ≤ bk_wins stats ≤ bk_games stats →
  ∃ p q,
    nearest64 (inject_Z (bk_wins stats) / inject_Z (bk_games stats)) p ∧
    bucketWinRate stats = Num q ∧
    nearest64 (p * 100) q ∧ (0 <= q)%Q ∧ (q <= 100)%Q.
Proof.
  intros Hg Hw. unfold bucketWinRate.
  destruct (ratio_spec _ _ Hw Hg) as (p & -> & Hp & Hp0 & Hp1).
  destruct (percent_spec p Hp0 Hp1) as (q & -> & Hq & Hq0 & Hq1).
  by exists p, q.
Qed.

Lemma finiteRate_Num (m : MonthlyData) (q : Q) : md_winRate m = Num q → finiteRate m.
Proof. unfold finiteRate. by intros ->. Qed.

Lemma finiteRate_eq (m : MonthlyData) : finiteRate m → md_winRate m = Num (rateOf m).
Proof. unfold finiteRate, rateOf. by destruct (md_winRate m). Qed.

Lemma binaryRate_finite (m : MonthlyData) : binaryRate m → finiteRate m.
Proof. intros (q & Hq & _). by apply (finiteRate_Num _ q). Qed.

Lemma binaryRate_rateOf (m : MonthlyData) : binaryRate m → binary64 (rateOf m).
Proof. intros (q & Hq & Hb). unfold rateOf. by rewrite Hq. Qed.

(** Every month of the table has a binary64 win rate. *)
Lemma monthTable_binary host matches : Forall binaryRate (monthTable host matches).
Proof.
  apply Forall_forall. intros m Hm. unfold monthTable in Hm.
  rewrite Array_sort_elem_of in Hm.
  apply list_elem_of_fmap in Hm as ([k stats] & -> & Hin).
  apply list_elem_of_lookup in Hin as [i Hi].
  pose proof (bucketsOf_games_pos _ _ _ _ _ Hi) as Hg.
  pose proof (bucketsOf_wins_bounds _ _ _ _ _ Hi) as Hw.
  destruct (bucketWinRate_spec stats Hg Hw) as (p & q & _ & Hq & [Hb _] & _).
  by exists q.
Qed.

Lemma monthTable_finite host matches : Forall finiteRate (monthTable host matches).
Proof.
  eapply Forall_impl; [apply monthTable_binary|]. apply binaryRate_finite.
Qed.

Lemma byWinRateDesc_gt (x y : MonthlyData) :
  binaryRate x → binaryRate y →
  gt (byWinRateDesc x y) (ofZ 0) = Qgtb (rateOf y) (rateOf x).
Proof.
  intros Hx Hy. unfold byWinRateDesc.
  rewrite (finiteRate_eq x), (finiteRate_eq y) by by apply binaryRate_finite.
  apply gt_sub; by apply binaryRate_rateOf.
Qed.

Lemma byWinRateDesc_eq (x y : MonthlyData) :
  finiteRate x → finiteRate y → (rateOf y == rateOf x)%Q →
  gt (byWinRateDesc x y) (ofZ 0) = false.
Proof.
  intros Hx Hy Heq. unfold byWinRateDesc.
  rewrite (finiteRate_eq x), (finiteRate_eq y) by done.
  by apply gt_sub_eq.
Qed.

Lemma head_filter_Some {A : Type} (P : A → Prop) `{!∀ x, Decision (P x)}
    (l : list A) (b : A) :
  head (filter P l) = Some b →
  ∃ i : nat, l !! i = Some b ∧ ∀ (j : nat) x, l !! j = Some x → (j < i)%nat → ¬ P x.
Proof.
  induction l as [|a l IH]; [done|].
  rewrite filter_cons. destruct (decide (P a)) as [Ha|Ha].
  - intros [= ->]. exists 0%nat. split; [done|]. intros; lia.
  - intros (i & Hi & Hbefore)%IH. exists (S i). split; [done|].
    intros [|j] x Hj Hlt; simpl in Hj; [by simplify_eq|].
    apply (Hbefore j); [done|lia].
Qed.

Lemma last_filter_Some {A : Type} (P : A → Prop) `{!∀ x, Decision (P x)}
    (l : list A) (w : A) :
  last (filter P l) = Some w →
  ∃ i : nat, l !! i = Some w ∧ ∀ (j : nat) x, l !! j = Some x → (i < j)%nat → ¬ P x.
Proof.
  induction l as [|a l IH] using rev_ind; [done|].
  rewrite filter_app, filter_cons, filter_nil. destruct (decide (P a)) as [Ha|Ha].
  - rewrite last_snoc. intros [= ->]. exists (length l). split.
    + by rewrite lookup_app_r, Nat.sub_diag.
    + intros j x Hj Hlt. apply lookup_lt_Some in Hj.
      rewrite length_app in Hj. simpl in Hj. lia.
  - rewrite app_nil_r. intros (i & Hi & Hafter)%IH. exists i. split.
    + by apply lookup_app_l_Some.
    + intros j x Hj Hlt. apply lookup_app_Some in Hj as [Hj|[Hge Hj]].
      * by apply (Hafter j).
      * apply list_lookup_singleton_Some in Hj as [_ <-]. done.
Qed.

(** The two ends of the months sorted by win rate, highest first: the
    head is the first month of highest rate and the last element is the
    last month of lowest rate. *)
Lemma ends_of_sortedByWinRate (months : list MonthlyData) :
  Forall binaryRate months →
  firstMaximum gt md_winRate months (head (Array_sort byWinRateDesc months)) ∧
  lastMinimum gt md_winRate months (last (Array_sort byWinRateDesc months)).
Proof.
  intros Hbin.
  assert (Hbin' : ∀ x, x ∈ months → binaryRate x) by by apply Forall_forall.
  assert (Hfin' : ∀ x, x ∈ months → finiteRate x)
    by (intros x Hx; by apply binaryRate_finite, Hbin').
  assert (Hsorted : StronglySorted (λ a c, (rateOf c <= rateOf a)%Q)
                      (Array_sort byWinRateDesc months)).
  { apply Array_sort_sorted; [intros x y z ??; by eapply Qle_trans|].
    intros x y Hx Hy. unfold decides.
    rewrite byWinRateDesc_gt by auto.
    destruct (Qgtb _ _) eqn:E; [apply Qgtb_lt in E; by apply Qlt_le_weak|by apply Qgtb_le in E]. }
  assert (Hstable : ∀ b, filter (sameRate b) (Array_sort byWinRateDesc months) =
                         filter (sameRate b) months).
  { intros b. apply Array_sort_filter. intros x y [Hx Hxb] [Hy Hyb].
    apply byWinRateDesc_eq; [done|done|].
    apply Qeq_bool_iff in Hxb, Hyb. by rewrite Hxb, Hyb. }
  assert (Hgt : ∀ x y, finiteRate x → finiteRate y →
                  gt (md_winRate x) (md_winRate y) = Qgtb (rateOf x) (rateOf y)).
  { by intros x y ->%finiteRate_eq ->%finiteRate_eq. }
  assert (Hmem : ∀ x, x ∈ Array_sort byWinRateDesc months ↔ x ∈ months)
    by (intros x; apply Array_sort_elem_of).
  split.
  - destruct (Array_sort byWinRateDesc months) as [|b rest] eqn:Hs; cbn [head firstMaximum].
    { apply Permutation_nil_r. rewrite <-Hs. by rewrite Array_sort_Permutation. }
    assert (Hb : finiteRate b) by (apply Hfin', Hmem; left).
    apply StronglySorted_inv in Hsorted as [_ Hall]. rewrite Forall_forall in Hall.
    assert (Hmax : ∀ x, x ∈ months → (rateOf x <= rateOf b)%Q).
    { intros x [->|Hx]%Hmem%elem_of_cons; [apply Qle_refl|by apply Hall]. }
    specialize (Hstable b). rewrite filter_cons, decide_True in Hstable.
    2:{ split; [done|]. apply Qeq_bool_iff. reflexivity. }
    destruct (head_filter_Some (sameRate b) months b) as (i & Hi & Hbefore);
      [by rewrite <-Hstable|].
    exists i. split_and!; [done| |].
    + intros x Hx. rewrite Hgt by auto. by apply Qgtb_le, Hmax.
    + intros j x Hj Hlt.
      assert (Hx : x ∈ months) by by eapply list_elem_of_lookup_2.
      rewrite Hgt by auto. apply Qgtb_lt.
      destruct (proj1 (Qle_lteq _ _) (Hmax x Hx)) as [Hlt'|Heq]; [exact Hlt'|].
      exfalso. apply (Hbefore j x Hj Hlt). split; [auto|]. by apply Qeq_bool_iff.
  - destruct (last (Array_sort byWinRateDesc months)) as [w|] eqn:Hl; cbn [lastMinimum].
    2:{ apply last_None in Hl. apply Permutation_nil_r. rewrite <-Hl.
        by rewrite Array_sort_Permutation. }
    apply last_Some in Hl as [init Hs].
    assert (Hw : finiteRate w).
    { apply Hfin', Hmem. rewrite Hs. apply elem_of_app. right. left. }
    rewrite Hs in Hsorted. apply StronglySorted_app in Hsorted as (Hall & _ & _).
    assert (Hmin : ∀ x, x ∈ months → (rateOf w <= rateOf x)%Q).
    { intros x Hx%Hmem. rewrite Hs in Hx.
      apply elem_of_app in Hx as [Hx|Hx].
      - apply Hall; [done|left].
      - apply list_elem_of_singleton in Hx as ->. apply Qle_refl. }
    specialize (Hstable w). rewrite Hs, filter_app, filter_cons, filter_nil in Hstable.
    rewrite decide_True in Hstable.
    2:{ split; [done|]. apply Qeq_bool_iff. reflexivity. }
    destruct (last_filter_Some (sameRate w) months w) as (i & Hi & Hafter);
      [by rewrite <-Hstable, last_snoc|].
    exists i. split_and!; [done| |].
    + intros x Hx. rewrite Hgt by auto. by apply Qgtb_le, Hmin.
    + intros j x Hj Hlt.
      assert (Hx : x ∈ months) by by eapply list_elem_of_lookup_2.
      rewrite Hgt by auto. apply Qgtb_lt.
      destruct (proj1 (Qle_lteq _ _) (Hmin x Hx)) as [Hlt'|Heq]; [exact Hlt'|].
      exfalso. apply (Hafter j x Hj Hlt). split; [auto|].
      apply Qeq_bool_iff. by symmetry.
Qed.

(** * The claims *)

(** C1.  The KDA function returns [kills + assists] when [deaths] is
    zero and the quotient [(kills + assists) / deaths] otherwise, as
    binary64 has them: on a sum within [2^53] the sum itself, and a
    binary64 value nearest to the exact quotient; beyond [2^53] the sum
    is rounded too.  The same function gives the overview KDA (applied
    to the totals of all matches), the KDA of the entry that every
    champion of the matches has (applied to the totals of that
    champion's matches) and the score of the highlight scan, whose
    [bestKDA] is the first match of greatest KDA among those that beat
    the seed -1.  KDA(0,0,0) = 0,
    KDA(5,0,3) = 8, KDA(4,2,6) = 5 and KDA(1,3,0) =
    0.333333333333333314829616256247.... *)
Theorem calculateKDA_single_formula host matches masteries :
  (∀ kills deaths assists,
     safeInteger (kills + assists) →
     if decide (deaths = 0) then calculateKDA kills deaths assists = ofZ (kills + assists)
     else ∃ q, calculateKDA kills deaths assists = Num q ∧
               nearest64 (inject_Z (kills + assists) / inject_Z deaths) q) ∧
  (∀ kills assists, calculateKDA kills 0 assists = round64 (inject_Z (kills + assists))) ∧
  (∃ r,
     aggregateMatchData host matches masteries = Some r ∧
     avgKDA (overview r) =
       calculateKDA (total (λ m, kills (participant m)) matches)
         (total (λ m, deaths (participant m)) matches)
         (total (λ m, assists (participant m)) matches) ∧
     (∀ m, m ∈ matches →
        ∃ s, s ∈ championStats r ∧ cs_championId s = championId (participant m)) ∧
     (∀ s, s ∈ championStats r →
        let own := matchesOf (cs_championId s) matches in
        cs_avgKDA s =
          calculateKDA (total (λ m, kills (participant m)) own)
            (total (λ m, deaths (participant m)) own)
            (total (λ m, assists (participant m)) own)) ∧
     let kda m :=
       calculateKDA (kills (participant m)) (deaths (participant m))
         (assists (participant m)) in
     ((bestKDA (highlightMatches r) = None ∧
       ∀ m, m ∈ matches → gt (kda m) (ofZ (-1)) = false) ∨
      (∃ (i : nat) b,
         matches !! i = Some b ∧ bestKDA (highlightMatches r) = Some b ∧
         gt (kda b) (ofZ (-1)) = true ∧
         (∀ m, m ∈ matches → gt (kda m) (kda b) = false) ∧
         (∀ (j : nat) m, matches !! j = Some m → (j < i)%nat →
            gt (kda b) (kda m) = true)))) ∧
  calculateKDA 0 0 0 = ofZ 0 ∧
  calculateKDA 5 0 3 = ofZ 8 ∧
  calculateKDA 4 2 6 = ofZ 5 ∧
  calculateKDA 1 3 0 = Num (6004799503160661 # 18014398509481984) ∧
  calculateKDA (2 ^ 53) 0 1 = ofZ (2 ^ 53).
Proof.
  split_and!.
  - apply calculateKDA_safe.
  - intros k a. unfold calculateKDA. cbn [Z.eqb]. apply add_ofZ.
  - destruct (decide (matches = [])) as [->|Hne].
    { exists emptyAnalytics. split_and!; [done|done| | |].
      - by intros m ?%elem_of_nil.
      - by intros s ?%elem_of_nil.
      - left. split; [done|]. by intros m ?%elem_of_nil. }
    destruct (aggregateMatchData_nonempty host matches masteries Hne)
      as (r & t & Hr & _ & _ & _ & _ & _ & Hkda & Hcs & _ & _ & _ & Hhl).
    exists r. split_and!; [done|done| | |].
    + intros m Hm. rewrite Hcs. by apply championStats_present.
    + intros s Hs. rewrite Hcs in Hs.
      apply championStats_elem_of in Hs as (i & stats & Hi & ->).
      apply championMapOf_lookup in Hi as (_ & _ & _ & _ & Hk & Hd & Ha & _).
      cbv zeta. cbn [cs_avgKDA cs_championId toChampionStat]. unfold total.
      by rewrite Hk, Hd, Ha.
    + rewrite Hhl. cbn [bestKDA]. exact (scan_bestKDA matches).
  - vm_compute. reflexivity.
  - vm_compute. reflexivity.
  - vm_compute. reflexivity.
  - vm_compute. reflexivity.
  - vm_compute. reflexivity.
Qed.

(** C2.  On an empty match list, whatever the masteries, the aggregation
    answers at once with the degenerate analytics: an overview of
    zeros, no champion entry, no month, no week, empty best and worst
    months, four performance metrics equal to 0, streaks of length 0
    with the current streak a win streak of 0, an empty role
    distribution and four absent highlights. *)
Theorem aggregateMatchData_empty host masteries :
  aggregateMatchData host [] masteries = Some {|
    overview := {|
      totalGames := 0; totalWins := 0; totalLosses := 0; winRate := ofZ 0;
      avgKDA := ofZ 0; avgKills := ofZ 0; avgDeaths := ofZ 0; avgAssists := ofZ 0;
      totalPlaytime := ofZ 0
    |};
    championStats := [];
    temporalTrends := {|
      monthlyWinRate := []; weeklyPerformance := []; bestMonth := ""; worstMonth := ""
    |};
    performanceMetrics := {|
      avgVisionScore := ofZ 0; avgDamagePerMinute := ofZ 0;
      avgGoldPerMinute := ofZ 0; avgCSPerMinute := ofZ 0
    |};
    streaks := {|
      longestWinStreak := 0; longestLossStreak := 0;
      currentStreak := {| type := Win; count := 0 |}
    |};
    roleDistribution := ∅;
    highlightMatches := {|
      bestKDA := None; mostKills := None; longestGame := None; highestDamage := None
    |}
  |}.
Proof. reflexivity. Qed.

(** C7.  For every input the overview counts every match once:
    [totalGames] is the number of matches, wins and losses add up to
    it, and so do the games of the champion entries, each entry
    counting the matches of its own champion and no two entries sharing
    a champion. *)
Theorem games_are_partitioned host matches masteries :
  ∃ r,
    aggregateMatchData host matches masteries = Some r ∧
    totalGames (overview r) = Z.of_nat (length matches) ∧
    totalWins (overview r) + totalLosses (overview r) = totalGames (overview r) ∧
    sumZ (cs_games <$> championStats r) = totalGames (overview r) ∧
    NoDup (cs_championId <$> championStats r) ∧
    ∀ s, s ∈ championStats r →
      cs_games s = Z.of_nat (length (matchesOf (cs_championId s) matches)).
Proof.
  destruct (decide (matches = [])) as [->|Hne].
  { exists emptyAnalytics. split_and!; try done; [constructor|by intros s ?%elem_of_nil]. }
  destruct (aggregateMatchData_nonempty host matches masteries Hne)
    as (r & t & Hr & _ & _ & Hg & Hw & Hl & _ & Hcs & _).
  exists r. split_and!; [done|done|lia| | |].
  - rewrite Hg, Hcs, <-championMapOf_games.
    rewrite (sumZ_Permutation _ (cs_games <$> (toChampionStat (buildMasteryMap masteries)
               <$> Map_values (championMapOf matches)))).
    + by rewrite <-list_fmap_compose.
    + apply fmap_Permutation, Array_sort_Permutation.
  - rewrite Hcs, Array_sort_Permutation, <-list_fmap_compose.
    unfold Map_values. rewrite <-list_fmap_compose.
    assert (Heq : cs_championId ∘ toChampionStat (buildMasteryMap masteries) ∘ snd
                  <$> championMapOf matches = (championMapOf matches).*1).
    { apply list_eq. intros i. rewrite !list_lookup_fmap.
      destruct (championMapOf matches !! i) as [[id stats]|] eqn:E; [|done].
      apply championMapOf_lookup in E as (_ & Hid & _). simpl. by rewrite Hid. }
    rewrite Heq. apply grouped_keys_NoDup.
  - intros s Hs. rewrite Hcs in Hs.
    apply championStats_elem_of in Hs as (i & stats & Hi & ->).
    by apply championMapOf_lookup in Hi as (_ & _ & Hgames & _).
Qed.

(** C8.  On a non-empty input the damage, gold and creep-score metrics
    are the totals of the stat divided by the total game time in
    minutes, the sum of the durations divided by 60, while the vision
    score is the total divided by the number of games; each division
    gives a binary64 value nearest to its exact quotient, as long as the
    totals stay within [2^53] and, for the three metrics per minute,
    the durations do not add up to zero.  On an empty input the four
    metrics are 0. *)
Theorem performanceMetrics_formulas host matches masteries :
  ∃ r,
    aggregateMatchData host matches masteries = Some r ∧
    let p := performanceMetrics r in
    let seconds := total gameDuration matches in
    let vision := total (λ m, visionScore (participant m)) matches in
    let damage := total (λ m, totalDamageDealt (participant m)) matches in
    let gold := total (λ m, goldEarned (participant m)) matches in
    let cs := total (λ m, totalMinionsKilled (participant m)) matches in
    (matches = [] →
     avgVisionScore p = ofZ 0 ∧ avgDamagePerMinute p = ofZ 0 ∧
     avgGoldPerMinute p = ofZ 0 ∧ avgCSPerMinute p = ofZ 0) ∧
    (matches ≠ [] → safeInteger vision →
     ∃ v, avgVisionScore p = Num v ∧
          nearest64 (inject_Z vision / inject_Z (Z.of_nat (length matches))) v) ∧
    (seconds ≠ 0 → safeInteger seconds →
     ∃ totalGameMinutes,
       nearest64 (inject_Z seconds / 60) totalGameMinutes ∧
       ¬ (totalGameMinutes == 0)%Q ∧
       (safeInteger damage →
        ∃ x, avgDamagePerMinute p = Num x ∧
             nearest64 (inject_Z damage / totalGameMinutes) x) ∧
       (safeInteger gold →
        ∃ x, avgGoldPerMinute p = Num x ∧
             nearest64 (inject_Z gold / totalGameMinutes) x) ∧
       (safeInteger cs →
        ∃ x, avgCSPerMinute p = Num x ∧
             nearest64 (inject_Z cs / totalGameMinutes) x)).
Proof.
  destruct (decide (matches = [])) as [->|Hne].
  { exists emptyAnalytics. split; [done|]. cbv zeta. split_and!; [done|done|].
    intros Hs. by destruct Hs. }
  destruct (aggregateMatchData_nonempty host matches masteries Hne)
    as (r & t & Hr & _ & _ & _ & _ & _ & _ & _ & Hpm & _).
  exists r. split; [done|]. cbv zeta. rewrite Hpm.
  cbn [avgVisionScore avgDamagePerMinute avgGoldPerMinute avgCSPerMinute].
  split_and!; [done| |].
  - intros _ Hsafe. apply quotient_spec; [done|]. destruct matches; [done|simpl; lia].
  - intros Hsec Hsafe.
    destruct (minutes_spec _ Hsec Hsafe) as (m & -> & Hn & Hm).
    exists m. split_and!; [done| | | |].
    + intros H0. rewrite H0 in Hm. change (Qabs 0) with 0%Q in Hm.
      pose proof (pow2_pos (-6)). lra.
    + intros Hx. by apply per_minute_spec.
    + intros Hx. by apply per_minute_spec.
    + intros Hx. by apply per_minute_spec.
Qed.

(** The divisions as binary64 has them: 1/3 is 0.3333333333333333,
    11/20 times 100 is 55.00000000000001, 4/6 times 100 is
    66.66666666666666, and 12000 by the minutes of 1501 seconds is
    479.6802131912059. *)
Example binary64_quotients :
  div (ofZ 1) (ofZ 3) = Num (6004799503160661 # 18014398509481984) ∧
  mul (div (ofZ 11) (ofZ 20)) (ofZ 100) = Num (7740561859543041 # 140737488355328) ∧
  mul (div (ofZ 4) (ofZ 6)) (ofZ 100) = Num (2345624805922133 # 35184372088832) ∧
  div (ofZ 12000) (div (ofZ 1501) (ofZ 60)) = Num (1054827944035603 # 2199023255552).
Proof. vm_compute. repeat split. Qed.

(** C9.  The aggregation succeeds whatever the masteries are.  Every
    champion met in the matches has an entry, and an entry whose
    champion has no mastery record carries neither a mastery level nor
    mastery points; an entry whose champion has records carries the
    level and the points of the record (the last one, should there be
    several). *)
Theorem mastery_join_is_optional host matches masteries :
  ∃ r,
    aggregateMatchData host matches masteries = Some r ∧
    (∀ m, m ∈ matches →
       ∃ s, s ∈ championStats r ∧ cs_championId s = championId (participant m)) ∧
    ∀ s, s ∈ championStats r →
      match last (filter (λ e, em_championId e = cs_championId s) masteries) with
      | None => masteryLevel s = None ∧ masteryPoints s = None
      | Some e =>
          masteryLevel s = Some (championLevel e) ∧
          masteryPoints s = Some (championPoints e)
      end.
Proof.
  destruct (decide (matches = [])) as [->|Hne].
  { exists emptyAnalytics. split_and!; [done|by intros m ?%elem_of_nil|by intros s ?%elem_of_nil]. }
  destruct (aggregateMatchData_nonempty host matches masteries Hne)
    as (r & t & Hr & _ & _ & _ & _ & _ & _ & Hcs & _).
  exists r. split_and!; [done| |].
  - intros m Hm.
    assert (Hk : championOf m ∈ (championMapOf matches).*1).
    { apply grouped_keys_elem_of, list_elem_of_fmap. by exists m. }
    apply list_elem_of_fmap in Hk as ([id stats] & Hid & Hin). simpl in Hid.
    apply list_elem_of_lookup in Hin as [i Hi].
    pose proof (championMapOf_lookup _ _ _ _ Hi) as (_ & Hacc & _).
    exists (toChampionStat (buildMasteryMap masteries) stats). split.
    + rewrite Hcs, Array_sort_elem_of. apply list_elem_of_fmap. exists stats.
      split; [done|]. unfold Map_values. apply list_elem_of_fmap. exists (id, stats).
      split; [done|]. by eapply list_elem_of_lookup_2.
    + simpl. by rewrite Hacc, <-Hid.
  - intros s Hs. rewrite Hcs in Hs.
    apply championStats_elem_of in Hs as (i & stats & _ & ->).
    cbn [toChampionStat masteryLevel masteryPoints cs_championId].
    rewrite buildMasteryMap_lookup.
    by destruct (last _).
Qed.

(** C10.  Only the empty list is guarded: on a non-empty input whose
    matches all lasted 0 seconds the total game time in minutes is 0
    and the three per-minute metrics are divisions by that zero, so
    none of them is a finite number: each is [NaN] when its total is 0
    and an infinity of the sign of its total otherwise. *)
Theorem per_minute_metrics_unguarded host matches masteries :
  matches ≠ [] →
  (∀ m, m ∈ matches → gameDuration m = 0) →
  ∃ r,
    aggregateMatchData host matches masteries = Some r ∧
    div (ofZ (total gameDuration matches)) (ofZ 60) = ofZ 0 ∧
    avgDamagePerMinute (performanceMetrics r) =
      signedInfinity (total (λ m, totalDamageDealt (participant m)) matches ?= 0) ∧
    avgGoldPerMinute (performanceMetrics r) =
      signedInfinity (total (λ m, goldEarned (participant m)) matches ?= 0) ∧
    avgCSPerMinute (performanceMetrics r) =
      signedInfinity (total (λ m, totalMinionsKilled (participant m)) matches ?= 0) ∧
    (∀ q, avgDamagePerMinute (performanceMetrics r) ≠ Num q) ∧
    (∀ q, avgGoldPerMinute (performanceMetrics r) ≠ Num q) ∧
    (∀ q, avgCSPerMinute (performanceMetrics r) ≠ Num q).
Proof.
  intros Hne Hzero.
  assert (Hsum : total gameDuration matches = 0).
  { unfold total. clear Hne. induction matches as [|m l IH]; [done|].
    rewrite fmap_cons. unfold sumZ in *. cbn [foldr].
    rewrite IH, Hzero; [done|left|]. intros m' Hm'. apply Hzero. by right. }
  destruct (aggregateMatchData_nonempty host matches masteries Hne)
    as (r & t & Hr & _ & _ & _ & _ & _ & _ & _ & Hpm & _).
  exists r. rewrite Hpm, Hsum.
  cbn [avgDamagePerMinute avgGoldPerMinute avgCSPerMinute].
  rewrite !div_by_zero_minutes.
  split_and!; try done; intros q; by destruct (_ ?= 0).
Qed.

Lemma per_minute_metrics_unguarded_witness :
  ∃ r,
    aggregateMatchData utcHost zeroLengthMatches [] = Some r ∧
    avgDamagePerMinute (performanceMetrics r) = Infinity ∧
    avgGoldPerMinute (performanceMetrics r) = Infinity ∧
    avgCSPerMinute (performanceMetrics r) = Infinity.
Proof.
  destruct (per_minute_metrics_unguarded utcHost zeroLengthMatches [])
    as (r & Hr & _ & Hd & Hg & Hc & _).
  - discriminate.
  - intros m Hm. unfold zeroLengthMatches in Hm.
    repeat (apply elem_of_cons in Hm as [->|Hm]; [reflexivity|]).
    by apply elem_of_nil in Hm.
  - exists r. split; [exact Hr|]. rewrite Hd, Hg, Hc. repeat split.
Defined.

(** C3.  The champion entries are in descending order of games, and two
    entries with as many games stand in the order in which their
    champions were first met in the matches. *)
Theorem championStats_sorted_stable host matches masteries :
  ∃ r,
    aggregateMatchData host matches masteries = Some r ∧
    ∀ (i j : nat) a b,
      championStats r !! i = Some a → championStats r !! j = Some b → (i < j)%nat →
      cs_games b ≤ cs_games a ∧
      (cs_games a = cs_games b →
       ∃ p q,
         firstSeenAt (cs_championId a) matches = Some p ∧
         firstSeenAt (cs_championId b) matches = Some q ∧
         (p < q)%nat).
Proof.
  destruct (decide (matches = [])) as [->|Hne]; [by exists emptyAnalytics|].
  destruct (aggregateMatchData_nonempty host matches masteries Hne)
    as (r & t & Hr & _ & _ & _ & _ & _ & _ & Hcs & _).
  exists r. split; [done|]. rewrite Hcs. clear Hcs Hr.
  set (unsorted := toChampionStat (buildMasteryMap masteries) <$> Map_values (championMapOf matches)).
  intros i j a b Hi Hj Hlt. split.
  - assert (Hsorted : StronglySorted (λ x y, cs_games y ≤ cs_games x)
                        (Array_sort byGamesDesc unsorted)).
    { apply Array_sort_sorted; [intros x y z; lia|].
      intros x y _ _. unfold decides, byGamesDesc.
      destruct (gt _ _) eqn:E; [apply gt_ofZ in E|apply gt_ofZ_false in E]; lia. }
    apply (StronglySorted_lookup _ _ _ _ _ _ Hsorted Hi Hj Hlt).
  - intros Heq.
    destruct (Array_sort_stable byGamesDesc (λ s, cs_games s = cs_games a) unsorted i j a b)
      as (i' & j' & Hlt' & Hi' & Hj'); [|exact Hi|exact Hj|exact Hlt|reflexivity|by symmetry|].
    { intros x y Hx Hy. unfold byGamesDesc. apply gt_ofZ_false. lia. }
    unfold unsorted, Map_values in Hi', Hj'.
    rewrite <-list_fmap_compose in Hi', Hj'.
    apply list_lookup_fmap_Some in Hi' as ([ida sa] & -> & Hi').
    apply list_lookup_fmap_Some in Hj' as ([idb sb] & -> & Hj').
    pose proof (championMapOf_lookup _ _ _ _ Hi') as (_ & Ha & _).
    pose proof (championMapOf_lookup _ _ _ _ Hj') as (_ & Hb & _).
    cbn [compose snd toChampionStat cs_championId]. rewrite Ha, Hb.
    apply (grouped_keys_order championOf (λ m, newChampionAcc (participant m)) addMatch
             matches i' j'); [| |done].
    + fold (championMapOf matches). by rewrite list_lookup_fmap, Hi'.
    + fold (championMapOf matches). by rewrite list_lookup_fmap, Hj'.
Qed.



(** C4.  The streak detector works on the matches sorted by creation
    time, so the order of its input does not matter.  The two longest
    streaks are the lengths of the longest runs of wins and of losses
    in that order.  The current streak is the run that ends at the last
    match: a win streak when the final run of wins is not empty, a loss
    streak otherwise.  The season win, win, loss, win gives 2, 1 and a
    current win streak of 1; no match gives a win streak of 0. *)
Theorem streaks_follow_chronology (matches : list MatchDetails) :
  let sorted := chronological matches in
  let s := calculateStreaks matches in
  (sorted ≡ₚ matches ∧
   StronglySorted (λ a b, gameCreation a ≤ gameCreation b) sorted ∧
   ∀ matches', matches' ≡ₚ matches → NoDup (gameCreation <$> matches) →
     calculateStreaks matches' = s) ∧
  (isRun true (Z.to_nat (longestWinStreak s)) (results sorted) ∧
   ∀ n, isRun true n (results sorted) → Z.of_nat n ≤ longestWinStreak s) ∧
  (isRun false (Z.to_nat (longestLossStreak s)) (results sorted) ∧
   ∀ n, isRun false n (results sorted) → Z.of_nat n ≤ longestLossStreak s) ∧
  currentStreak s =
    match last (results sorted) with
    | Some true => {| type := Win; count := Z.of_nat (trailing true (results sorted)) |}
    | Some false => {| type := Loss; count := Z.of_nat (trailing false (results sorted)) |}
    | None => {| type := Win; count := 0 |}
    end ∧
  (matches ≠ [] →
   currentStreak s =
     if decide (0 < trailing true (results sorted))%nat
     then {| type := Win; count := Z.of_nat (trailing true (results sorted)) |}
     else {| type := Loss; count := Z.of_nat (trailing false (results sorted)) |}) ∧
  (results sorted = [true; true; false; true] →
   s = {|
     longestWinStreak := 2; longestLossStreak := 1;
     currentStreak := {| type := Win; count := 1 |}
   |}) ∧
  (results (chronological shuffledSeason) = [true; true; false; true] ∧
   calculateStreaks shuffledSeason = {|
     longestWinStreak := 2; longestLossStreak := 1;
     currentStreak := {| type := Win; count := 1 |}
   |}) ∧
  calculateStreaks [] = {|
    longestWinStreak := 0; longestLossStreak := 0;
    currentStreak := {| type := Win; count := 0 |}
  |}.
Proof.
  cbv zeta. split; [|split; [|split; [|split; [|split; [|split; [|split]]]]]].
  - split_and!.
    + apply Array_sort_Permutation.
    + apply chronological_sorted.
    + intros matches' Hperm Hnd. unfold calculateStreaks.
      fold (chronological matches') (chronological matches).
      rewrite (chronological_Permutation matches matches') by done.
      by rewrite (Permutation_length Hperm).
  - destruct (decide (matches = [])) as [->|Hne].
    { split; [by exists [], []|]. intros n (before & after & Heq). symmetry in Heq.
      apply app_eq_nil in Heq as [_ Heq]. apply app_eq_nil in Heq as [Heq _].
      by destruct n. }
    rewrite calculateStreaks_nonempty by done. cbn [longestWinStreak].
    by destruct (streak_scan true (chronological matches)) as (_ & _ & ? & ?).
  - destruct (decide (matches = [])) as [->|Hne].
    { split; [by exists [], []|]. intros n (before & after & Heq). symmetry in Heq.
      apply app_eq_nil in Heq as [_ Heq]. apply app_eq_nil in Heq as [Heq _].
      by destruct n. }
    rewrite calculateStreaks_nonempty by done. cbn [longestLossStreak].
    by destruct (streak_scan false (chronological matches)) as (_ & _ & ? & ?).
  - destruct (decide (matches = [])) as [->|Hne]; [done|].
    rewrite calculateStreaks_nonempty by done. cbn [currentStreak].
    destruct (streak_scan true (chronological matches)) as (Hw & _).
    destruct (streak_scan false (chronological matches)) as (Hl & _).
    cbv zeta in Hw, Hl. cbn [currentOf] in Hw, Hl. rewrite Hw, Hl.
    pose proof (last_results_trailing (results (chronological matches))) as Hlast.
    destruct (last (results (chronological matches))) as [[]|].
    + destruct Hlast as [Hpos _]. by rewrite (proj2 (Z.ltb_lt _ _)) by lia.
    + destruct Hlast as [_ Hzero]. simpl in Hzero. by rewrite Hzero.
    + exfalso. apply Hne. unfold results in Hlast. apply fmap_nil_inv in Hlast.
      unfold chronological in Hlast. apply Permutation_nil_r.
      by rewrite <-(Array_sort_Permutation byCreationAsc matches), Hlast.
  - intros Hne. rewrite calculateStreaks_nonempty by done. cbn [currentStreak].
    destruct (streak_scan true (chronological matches)) as (Hw & _).
    destruct (streak_scan false (chronological matches)) as (Hl & _).
    cbv zeta in Hw, Hl. cbn [currentOf] in Hw, Hl. rewrite Hw, Hl.
    case_decide.
    + by rewrite (proj2 (Z.ltb_lt _ _)) by lia.
    + by rewrite (proj2 (Z.ltb_ge _ _)) by lia.
  - intros Hres.
    assert (Hne : matches ≠ []) by (by intros ->).
    rewrite calculateStreaks_nonempty by done. unfold results in Hres.
    destruct (chronological matches) as [|a [|b [|c [|d [|e l]]]]]; try done.
    injection Hres as Ha Hb Hc Hd.
    cbn [fold_left]. unfold streakStep. rewrite Ha. cbn. rewrite Hb. cbn.
    rewrite Hc. cbn. rewrite Hd. reflexivity.
  - split; vm_compute; reflexivity.
  - reflexivity.
Qed.

(** C5, as the code has it.  The best and the worst month are taken
    from the months of at least 5 games and are empty when there is
    none.  The best month has the highest win rate and the worst month
    the lowest.  Both are read off one stable sort of these months by
    win rate, highest first: the best month is its first element, so of
    several months sharing the highest rate the first one of the month
    table; the worst month is its last element, so of several months
    sharing the lowest rate the last one of the month table. *)
Theorem best_and_worst_month host matches :
  ∃ t best worst,
    calculateTemporalTrends host matches = Some t ∧
    let significantMonths := significant (monthlyWinRate t) in
    (∀ m, m ∈ significantMonths ↔ m ∈ monthlyWinRate t ∧ 5 ≤ md_games m) ∧
    bestMonth t = from_option month "" best ∧
    worstMonth t = from_option month "" worst ∧
    firstMaximum gt md_winRate significantMonths best ∧
    lastMinimum gt md_winRate significantMonths worst ∧
    best = head (Array_sort byWinRateDesc significantMonths) ∧
    worst = last (Array_sort byWinRateDesc significantMonths).
Proof.
  destruct (decide (matches = [])) as [->|Hne].
  { eexists _, None, None. split; [reflexivity|]. cbv zeta. cbn.
    split_and!; try done. intros m. split; [by intros ?%elem_of_nil|].
    by intros [?%elem_of_nil _]. }
  pose proof (calculateTemporalTrends_nonempty host matches Hne) as Ht. cbv zeta in Ht.
  eexists _, _, _. split; [exact Ht|]. cbv zeta.
  cbn [monthlyWinRate bestMonth worstMonth].
  assert (Hmem : ∀ m, m ∈ significant (monthTable host matches) ↔
                      m ∈ monthTable host matches ∧ 5 ≤ md_games m).
  { intros m. unfold significant. rewrite list_elem_of_filter. tauto. }
  destruct (ends_of_sortedByWinRate (significant (monthTable host matches))) as [Hbest Hworst].
  { apply Forall_forall. intros m [Hm _]%Hmem.
    pose proof (monthTable_binary host matches) as Hbin.
    rewrite Forall_forall in Hbin. by apply Hbin. }
  split_and!; [exact Hmem|reflexivity|reflexivity|exact Hbest|exact Hworst|
               reflexivity|reflexivity].
Qed.

(** C5 as stated fails for the worst month: with five defeats in
    January and five in February the two months share the lowest rate;
    a stable sort by ascending rate starts with January, while the code
    answers February. *)
Lemma worstMonth_is_not_first_ascending :
  ∃ t,
    calculateTemporalTrends utcHost tiedMonths = Some t ∧
    month <$> head (Array_sort byWinRateAsc (significant (monthlyWinRate t))) =
      Some "2024-01" ∧
    worstMonth t = "2024-02" ∧
    Some (worstMonth t) ≠
      month <$> head (Array_sort byWinRateAsc (significant (monthlyWinRate t))).
Proof.
  eexists. split; [vm_compute; reflexivity|].
  split; [vm_compute; reflexivity|].
  split; [vm_compute; reflexivity|].
  vm_compute. discriminate.
Qed.

(** The scenario of six matches in January, four of them won, and three
    in February: only January qualifies, and it is both the best and
    the worst month. *)
Example temporalTrends_january_only :
  (λ t, (month <$> significant (monthlyWinRate t), bestMonth t, worstMonth t))
    <$> calculateTemporalTrends utcHost januaryAndFebruary =
  Some (["2024-01"], "2024-01", "2024-01").
Proof. vm_compute. reflexivity. Qed.

(** Of two matches sharing the highest kill count the earlier one is
    kept. *)
Example mostKills_keeps_the_earlier :
  (λ r, mostKills (highlightMatches r)) <$> aggregateMatchData utcHost tiedKills [] =
  Some (tiedKills !! 1%nat).
Proof. vm_compute. reflexivity. Qed.

(** One win and one loss on the same champion make one entry of two
    games. *)
Example one_champion_two_games :
  (λ r, (λ s, (cs_games s, cs_wins s, cs_winRate s)) <$> championStats r)
    <$> aggregateMatchData utcHost
          [sampleMatch 1705276800000 1 true 7 2 6 1800 12000;
           sampleMatch 1705363200000 1 false 1 5 3 1500 9000] [] =
  Some [(2, 1, ofZ 50)].
Proof. vm_compute. reflexivity. Qed.

(** * Further properties of the engine *)

(** ** Rounded rates *)

(** A rate [w / g * 100] with [0 ≤ w ≤ g] and [g] positive is a
    percentage, rounded twice. *)
Lemma percentage_spec (w g : Z) :
  0 < g → 0 ≤ w ≤ g →
  isPercentage (mul (div (ofZ w) (ofZ g)) (ofZ 100)) ∧
  isPercentOf (mul (div (ofZ w) (ofZ g)) (ofZ 100)) w g.
Proof.
  intros Hg Hw.
  destruct (ratio_spec _ _ Hw Hg) as (p & -> & Hp & Hp0 & Hp1).
  destruct (percent_spec p Hp0 Hp1) as (q & -> & Hq & Hq0 & Hq1).
  split; [by exists q|by exists p, q].
Qed.

Lemma countIf_bounds (p : MatchDetails → bool) (matches : list MatchDetails) :
  0 ≤ countIf p matches ≤ Z.of_nat (length matches).
Proof.
  unfold countIf. pose proof (List.filter_length_le p matches). lia.
Qed.

(** ** Role distribution *)

Lemma Map_get_createProperty (k k' : string) (v : Z) (l : Map string Z) :
  Map_get k' l = None →
  Map_get k (createProperty k' v l) = if decide (k = k') then Some v else Map_get k l.
Proof.
  induction l as [|[k0 w] l IH]; intros Hnone.
  - reflexivity.
  - cbn [Map_get] in Hnone. destruct (decide (k' = k0)) as [|Hk0]; [done|].
    cbn [createProperty]. destruct (listedBefore k' k0).
    + cbn [Map_get]. by destruct (decide (k = k')).
    + cbn [Map_get]. destruct (decide (k = k0)) as [->|Hne].
      * by rewrite decide_False by done.
      * by apply IH.
Qed.

Lemma Object_lookup_set (k k' : string) (v : Z) (o : JSObject Z) :
  Object_set k' v o !! k = if decide (k = k') then Some v else o !! k.
Proof.
  unfold lookup, JSObject_lookup, Object_get, Object_set, Map_has. cbn [ownProperties].
  destruct (Map_get k' (ownProperties o)) eqn:E.
  - apply Map_get_set.
  - by apply Map_get_createProperty.
Qed.

Lemma entriesSum_createProperty (k : string) (v : Z) (l : Map string Z) :
  foldr (λ entry acc, entry.2 + acc) 0 (createProperty k v l) =
  foldr (λ entry acc, entry.2 + acc) 0 l + v.
Proof.
  induction l as [|[k0 w] l IH]; cbn [createProperty foldr]; [simpl; lia|].
  destruct (listedBefore k k0); cbn [foldr]; simpl; lia.
Qed.

Lemma entriesSum_Map_set (k : string) (v : Z) (l : Map string Z) :
  foldr (λ entry acc, entry.2 + acc) 0 (Map_set k v l) =
  foldr (λ entry acc, entry.2 + acc) 0 l + v - default 0 (Map_get k l).
Proof.
  induction l as [|[k0 w] l IH]; cbn [Map_set Map_get foldr]; [simpl; lia|].
  destruct (decide (k = k0)); cbn [foldr]; simpl; lia.
Qed.

Lemma mapSum_set (k : string) (v : Z) (o : JSObject Z) :
  mapSum (Object_set k v o) = mapSum o + v - default 0 (o !! k).
Proof.
  unfold mapSum, Object_entries, lookup, JSObject_lookup, Object_get, Object_set, Map_has.
  cbn [ownProperties].
  destruct (Map_get k (ownProperties o)) eqn:E.
  - by rewrite entriesSum_Map_set, E.
  - rewrite entriesSum_createProperty. simpl. lia.
Qed.

Lemma calculateRoleDistribution_snoc (matches : list MatchDetails) (m : MatchDetails) :
  calculateRoleDistribution (matches ++ [m]) =
  Object_set (roleOf m) (default 0 (calculateRoleDistribution matches !! roleOf m) + 1)
    (calculateRoleDistribution matches).
Proof. unfold calculateRoleDistribution. by rewrite fold_left_app. Qed.

Lemma roleOf_nonempty (m : MatchDetails) : roleOf m ≠ "".
Proof. unfold roleOf. by case_decide. Qed.

Lemma calculateRoleDistribution_lookup (matches : list MatchDetails) (label : string) :
  calculateRoleDistribution matches !! label =
  let n := countIf (λ m, bool_decide (roleOf m = label)) matches in
  if decide (n = 0) then None else Some n.
Proof.
  cbv zeta. unfold countIf.
  induction matches as [|m l IH] using rev_ind; [done|].
  rewrite calculateRoleDistribution_snoc, Object_lookup_set, List.filter_app, length_app.
  cbn [List.filter]. destruct (decide (label = roleOf m)) as [->|Hne].
  - rewrite bool_decide_true by done. rewrite IH.
    change (length [m]) with 1%nat.
    rewrite (decide_False (P := Z.of_nat (_ + 1) = 0)) by lia. case_decide as Hz; simpl; f_equal; lia.
  - rewrite bool_decide_false by done. change (length []) with 0%nat.
    rewrite Nat.add_0_r. exact IH.
Qed.

Lemma calculateRoleDistribution_sum (matches : list MatchDetails) :
  mapSum (calculateRoleDistribution matches) = Z.of_nat (length matches).
Proof.
  induction matches as [|m l IH] using rev_ind; [done|].
  rewrite calculateRoleDistribution_snoc, mapSum_set, IH, length_app. simpl. lia.
Qed.

(** ** The aggregation, part by part *)

Lemma aggregateMatchData_parts host matches masteries :
  matches ≠ [] →
  aggregateMatchData host matches masteries = Some {|
    overview := overviewOf matches;
    championStats := championStatsOf matches masteries;
    temporalTrends := trendsOf host matches;
    performanceMetrics := performanceOf matches;
    streaks := calculateStreaks matches;
    roleDistribution := calculateRoleDistribution matches;
    highlightMatches := highlightsOf matches
  |}.
Proof.
  intros Hne.
  pose proof (calculateTemporalTrends_nonempty host matches Hne) as Ht. cbv zeta in Ht.
  unfold aggregateMatchData.
  rewrite decide_False by (by destruct matches).
  rewrite forEach_championStep. cbn [mbind option_bind].
  rewrite Ht. cbn [mbind option_bind].
  assert (Hpos : (0 <? Z.of_nat (length matches)) = true).
  { apply Z.ltb_lt. destruct matches; [done|]. simpl. lia. }
  rewrite Hpos. rewrite !fold_left_add, !Z.add_0_l.
  reflexivity.
Qed.

(** X1.  The role distribution counts every match once, under its role
    label or under [UNKNOWN] when the label is empty: the count of a
    label is the number of matches carrying it, a label carried by no
    match has no entry, and the counts add up to the number of
    matches. *)
Theorem roleDistribution_counts host matches masteries :
  Forall ownRole matches →
  ∃ r,
    aggregateMatchData host matches masteries = Some r ∧
    (∀ label,
       roleDistribution r !! label =
       let n := countIf (λ m, bool_decide (roleOf m = label)) matches in
       if decide (n = 0) then None else Some n) ∧
    mapSum (roleDistribution r) = Z.of_nat (length matches) ∧
    roleDistribution r !! "" = None ∧
    (roleDistribution r !! "UNKNOWN" = None ↔
     ∀ m, m ∈ matches →
       role (participant m) ≠ "" ∧ role (participant m) ≠ "UNKNOWN").
Proof.
  intros _.
  assert (Hr : ∃ r, aggregateMatchData host matches masteries = Some r ∧
                    roleDistribution r = calculateRoleDistribution matches).
  { destruct (decide (matches = [])) as [->|Hne]; [by exists emptyAnalytics|].
    eexists. split; [by apply aggregateMatchData_parts|done]. }
  destruct Hr as (r & Hr & Hrd). exists r. rewrite Hrd. split; [done|].
  split; [apply calculateRoleDistribution_lookup|].
  split; [apply calculateRoleDistribution_sum|].
  assert (Hnone : ∀ label, calculateRoleDistribution matches !! label = None ↔
                    ∀ m, m ∈ matches → roleOf m ≠ label).
  { intros label. rewrite calculateRoleDistribution_lookup. cbv zeta. unfold countIf.
    case_decide as Hz.
    - split; [|done]. intros _ m Hm Heq.
      assert (Hin : In m (List.filter (λ m, bool_decide (roleOf m = label)) matches)).
      { apply List.filter_In. split; [by apply list_elem_of_In|by apply bool_decide_eq_true]. }
      destruct (List.filter _ matches); [done|simpl in Hz; lia].
    - split; [done|]. intros Hall. exfalso. apply Hz.
      destruct (List.filter _ matches) as [|m l] eqn:E; [done|].
      assert (Hin : In m (List.filter (λ m, bool_decide (roleOf m = label)) matches))
        by (rewrite E; by left).
      apply List.filter_In in Hin as [Hin Hm]. apply bool_decide_eq_true in Hm.
      exfalso. by apply (Hall m); [apply list_elem_of_In|]. }
  split.
  - apply Hnone. intros m _. apply roleOf_nonempty.
  - rewrite Hnone. split; intros Hall m Hm; specialize (Hall m Hm).
    + unfold roleOf in Hall. case_decide; [done|]. done.
    + unfold roleOf. case_decide; [by destruct Hall|by destruct Hall].
Qed.

Lemma roleDistribution_counts_witness :
  ∃ r,
    aggregateMatchData utcHost sampleRoles [] = Some r ∧
    roleDistribution r !! "UNKNOWN" = Some 1 ∧
    roleDistribution r !! "SOLO" = Some 2 ∧
    mapSum (roleDistribution r) = 3.
Proof.
  destruct (roleDistribution_counts utcHost sampleRoles []) as (r & Hr & Hl & Hs & _).
  - unfold sampleRoles, ownRole. repeat constructor;
      apply (bool_decide_unpack _); vm_compute; exact I.
  - exists r. split; [exact Hr|]. rewrite !Hl. split; [|split]; [reflexivity..|exact Hs].
Defined.

(** ** Overview *)

Lemma aggregateMatchData_overview host matches masteries :
  ∃ r,
    aggregateMatchData host matches masteries = Some r ∧
    overview r = if decide (matches = []) then overview emptyAnalytics
                 else overviewOf matches.
Proof.
  destruct (decide (matches = [])) as [->|Hne]; [by exists emptyAnalytics|].
  eexists. split; [by apply aggregateMatchData_parts|done].
Qed.

(** X2.  The overview never holds a division by zero.  For every input
    the win rate is a finite number between 0 and 100; on a non-empty
    input it is the share of the wins rounded to binary64, times 100
    rounded again, and the average kills, deaths and assists and the
    playtime are binary64 values nearest to the exact quotients of the
    totals, as long as these stay within [2^53]. *)
Theorem overview_rates_nearest host matches masteries :
  ∃ r,
    aggregateMatchData host matches masteries = Some r ∧
    let o := overview r in
    let totalKills := total (λ m, kills (participant m)) matches in
    let totalDeaths := total (λ m, deaths (participant m)) matches in
    let totalAssists := total (λ m, assists (participant m)) matches in
    totalWins o = countIf won matches ∧
    0 ≤ totalWins o ≤ totalGames o ∧
    isPercentage (winRate o) ∧
    (matches ≠ [] →
     isPercentOf (winRate o) (totalWins o) (totalGames o) ∧
     (safeInteger totalKills → isQuotient (avgKills o) totalKills (totalGames o)) ∧
     (safeInteger totalDeaths → isQuotient (avgDeaths o) totalDeaths (totalGames o)) ∧
     (safeInteger totalAssists → isQuotient (avgAssists o) totalAssists (totalGames o)) ∧
     (safeInteger (total gameDuration matches) →
      isQuotient (totalPlaytime o) (total gameDuration matches) 3600)).
Proof.
  destruct (aggregateMatchData_overview host matches masteries) as (r & Hr & Ho).
  exists r. split; [done|]. cbv zeta. rewrite Ho.
  destruct (decide (matches = [])) as [->|Hne].
  - cbn. split_and!; [done|done|done| |done].
    exists 0%Q. split; [reflexivity|]. split; discriminate.
  - unfold overviewOf. cbv zeta.
    cbn [totalGames totalWins winRate avgKills avgDeaths avgAssists totalPlaytime].
    pose proof (countIf_bounds won matches) as Hw.
    assert (Hn : 0 < Z.of_nat (length matches)) by (destruct matches; [done|simpl; lia]).
    destruct (percentage_spec (countIf won matches) (Z.of_nat (length matches)) Hn Hw)
      as [Hp Hq].
    split_and!; [done|lia|lia|done|]. intros _.
    split_and!; [done|intros Hs; apply quotient_spec; [done|lia]..].
Qed.

(** ** Champion entries *)

(** Every round of a loop adds its share to the total of a counter
    kept by the entries. *)
Lemma upsert_sum {A K V : Type} `{EqDecision K} (key : A → K) (init : A → V)
    (upd : V → A → V) (counter : V → Z) (share : A → Z) (m : Map K V) (x : A) :
  (∀ v, counter (upd v x) = counter v + share x) → counter (init x) = 0 →
  sumZ (counter <$> (upsert key init upd m x).*2) = sumZ (counter <$> m.*2) + share x.
Proof.
  intros Hupd Hinit. unfold upsert.
  induction m as [|[k0 v0] m IH].
  - unfold sumZ. simpl. rewrite Hupd, Hinit. lia.
  - cbn [Map_get Map_set]. destruct (decide (key x = k0)) as [Hk|Hk].
    + unfold sumZ. simpl. rewrite Hupd. lia.
    + rewrite !fmap_cons. unfold sumZ in *. cbn [foldr snd]. rewrite IH. lia.
Qed.

Lemma grouped_sum {A K V : Type} `{EqDecision K} (key : A → K) (init : A → V)
    (upd : V → A → V) (counter : V → Z) (share : A → Z) (l : list A) :
  (∀ v x, counter (upd v x) = counter v + share x) → (∀ x, counter (init x) = 0) →
  sumZ (counter <$> (grouped key init upd l).*2) = sumZ (share <$> l).
Proof.
  intros Hupd Hinit. induction l as [|x l IH] using rev_ind; [done|].
  rewrite grouped_snoc, (upsert_sum _ _ _ counter share), IH by done.
  rewrite fmap_app, sumZ_app. unfold sumZ. simpl. lia.
Qed.

Lemma sumZ_indicator (p : MatchDetails → bool) (matches : list MatchDetails) :
  sumZ ((λ m, if p m then 1 else 0) <$> matches) = countIf p matches.
Proof.
  unfold countIf, sumZ. induction matches as [|m l IH]; [done|].
  cbn [fmap list_fmap foldr List.filter]. destruct (p m); cbn [length]; lia.
Qed.

(** The name of an entry is the one carried by the first match of its
    champion. *)
Lemma championMapOf_name matches (i : nat) id stats :
  championMapOf matches !! i = Some (id, stats) →
  head ((λ m, championName (participant m)) <$> matchesOf id matches) =
  Some (acc_championName stats).
Proof.
  intros Hi. apply grouped_lookup in Hi. unfold groupValue in Hi. unfold matchesOf.
  destruct (filter _ matches) as [|x g] eqn:E; [done|]. simplify_eq.
  pose proof (fold_addMatch (x :: g) (newChampionAcc (participant x))) as H.
  cbv zeta in H. destruct H as (_ & -> & _). done.
Qed.

Lemma championStatsOf_elem_of matches masteries (s : ChampionStat) :
  s ∈ championStatsOf matches masteries →
  ∃ (i : nat) stats,
    championMapOf matches !! i = Some (cs_championId s, stats) ∧
    s = toChampionStat (buildMasteryMap masteries) stats.
Proof.
  intros (i & stats & Hi & ->)%championStats_elem_of. by exists i, stats.
Qed.

Lemma aggregateMatchData_championStats host matches masteries :
  ∃ r,
    aggregateMatchData host matches masteries = Some r ∧
    championStats r = (if decide (matches = []) then [] else championStatsOf matches masteries) ∧
    totalWins (overview r) = countIf won matches ∧
    totalGames (overview r) = Z.of_nat (length matches) ∧
    totalLosses (overview r) = totalGames (overview r) - totalWins (overview r).
Proof.
  destruct (decide (matches = [])) as [->|Hne]; [by exists emptyAnalytics|].
  eexists. split; [by apply aggregateMatchData_parts|done].
Qed.

(** X3.  The champion entries split the wins and the losses of the
    overview: every entry has at least one game, counts the wins of its
    champion's matches, has [wins + losses = games] with neither
    negative, and carries the champion name of the first match of its
    champion; the wins of all entries add up to [totalWins] and the
    losses to [totalLosses]. *)
Theorem championStats_split_wins host matches masteries :
  ∃ r,
    aggregateMatchData host matches masteries = Some r ∧
    (∀ s, s ∈ championStats r →
       let own := matchesOf (cs_championId s) matches in
       1 ≤ cs_games s ∧
       cs_wins s = countIf won own ∧
       0 ≤ cs_wins s ∧ 0 ≤ cs_losses s ∧
       cs_wins s + cs_losses s = cs_games s ∧
       head ((λ m, championName (participant m)) <$> own) = Some (cs_championName s)) ∧
    sumZ (cs_wins <$> championStats r) = totalWins (overview r) ∧
    sumZ (cs_losses <$> championStats r) = totalLosses (overview r).
Proof.
  destruct (aggregateMatchData_championStats host matches masteries)
    as (r & Hr & Hcs & Hw & Hg & Hl).
  exists r. split; [done|]. rewrite Hcs.
  destruct (decide (matches = [])) as [->|Hne].
  { split_and!; [by intros s ?%elem_of_nil|..].
    - rewrite Hw. reflexivity.
    - rewrite Hl, Hg, Hw. reflexivity. }
  assert (Hwins : sumZ (cs_wins <$> championStatsOf matches masteries) = countIf won matches).
  { unfold championStatsOf.
    rewrite (sumZ_Permutation _ (cs_wins <$> (toChampionStat (buildMasteryMap masteries)
               <$> Map_values (championMapOf matches))))
      by apply fmap_Permutation, Array_sort_Permutation.
    rewrite <-list_fmap_compose. unfold Map_values, championMapOf.
    change (cs_wins ∘ toChampionStat (buildMasteryMap masteries)) with acc_wins.
    rewrite (grouped_sum _ _ _ acc_wins (λ m, if won m then 1 else 0)).
    - apply sumZ_indicator.
    - intros v x. unfold won. cbn. destruct (win (participant x)); lia.
    - done. }
  assert (Hgames : sumZ (cs_games <$> championStatsOf matches masteries) =
                   Z.of_nat (length matches)).
  { unfold championStatsOf.
    rewrite (sumZ_Permutation _ (cs_games <$> (toChampionStat (buildMasteryMap masteries)
               <$> Map_values (championMapOf matches))))
      by apply fmap_Permutation, Array_sort_Permutation.
    rewrite <-list_fmap_compose. apply championMapOf_games. }
  assert (Hentry : ∀ s, s ∈ championStatsOf matches masteries →
            cs_losses s = cs_games s - cs_wins s).
  { intros s (i & stats & _ & ->)%championStatsOf_elem_of. done. }
  split_and!.
  - intros s Hs. pose proof (Hentry s Hs) as Hlosses.
    apply championStatsOf_elem_of in Hs as (i & stats & Hi & ->).
    pose proof (championMapOf_name _ _ _ _ Hi) as Hname.
    pose proof (championMapOf_games_pos _ _ _ _ Hi) as Hpos.
    apply championMapOf_lookup in Hi as (_ & _ & Hgm & Hwn & _).
    cbv zeta.
    cbn [toChampionStat cs_games cs_wins cs_losses cs_championName cs_championId] in *.
    assert (Hwn' : acc_wins stats = countIf won (matchesOf (acc_championId stats) matches))
      by exact Hwn.
    pose proof (countIf_bounds won (matchesOf (acc_championId stats) matches)) as Hb.
    split_and!; [lia|exact Hwn'|lia|lia|lia|exact Hname].
  - by rewrite Hwins, Hw.
  - rewrite Hl, Hg, Hw, <-Hwins, <-Hgames.
    clear -Hentry. induction (championStatsOf matches masteries) as [|s l IH]; [done|].
    rewrite !fmap_cons. unfold sumZ in *. cbn [foldr].
    rewrite IH by (intros s' Hs'; apply Hentry; by right).
    rewrite (Hentry s) by left. lia.
Qed.

(** X4.  No champion entry holds a division by zero: its win rate is a
    finite number between 0 and 100, the share of its wins rounded to
    binary64, times 100 rounded again; its average kills, deaths and
    assists and its playtime are binary64 values nearest to the exact
    quotients of the totals of its champion's matches, as long as these
    stay within [2^53]. *)
Theorem championStats_rates_nearest host matches masteries :
  ∃ r,
    aggregateMatchData host matches masteries = Some r ∧
    ∀ s, s ∈ championStats r →
      let own := matchesOf (cs_championId s) matches in
      let ownKills := total (λ m, kills (participant m)) own in
      let ownDeaths := total (λ m, deaths (participant m)) own in
      let ownAssists := total (λ m, assists (participant m)) own in
      isPercentage (cs_winRate s) ∧
      isPercentOf (cs_winRate s) (cs_wins s) (cs_games s) ∧
      (safeInteger ownKills → isQuotient (cs_avgKills s) ownKills (cs_games s)) ∧
      (safeInteger ownDeaths → isQuotient (cs_avgDeaths s) ownDeaths (cs_games s)) ∧
      (safeInteger ownAssists → isQuotient (cs_avgAssists s) ownAssists (cs_games s)) ∧
      (safeInteger (total gameDuration own) →
       isQuotient (cs_totalPlaytime s) (total gameDuration own) 3600).
Proof.
  destruct (aggregateMatchData_championStats host matches masteries)
    as (r & Hr & Hcs & _).
  exists r. split; [done|]. rewrite Hcs.
  destruct (decide (matches = [])) as [->|Hne]; [by intros s ?%elem_of_nil|].
  intros s (i & stats & Hi & ->)%championStatsOf_elem_of.
  pose proof (championMapOf_games_pos _ _ _ _ Hi) as Hpos.
  apply championMapOf_lookup in Hi as (_ & _ & Hgm & Hwn & Hk & Hd & Ha & Hp).
  cbv zeta. cbn [toChampionStat cs_games cs_wins cs_winRate cs_avgKills cs_avgDeaths
                 cs_avgAssists cs_totalPlaytime cs_championId] in *.
  assert (Hw : 0 ≤ acc_wins stats ≤ acc_games stats).
  { rewrite Hwn, Hgm.
    pose proof (List.filter_length_le (λ m, win (participant m))
                  (matchesOf (acc_championId stats) matches)). lia. }
  destruct (percentage_spec (acc_wins stats) (acc_games stats) Hpos Hw) as [Hpc Hq].
  unfold total. rewrite <-Hk, <-Hd, <-Ha, <-Hp.
  split_and!; [done|done|intros Hs; apply quotient_spec; [done|lia]..].
Qed.

(** ** Month and week tables *)

Lemma fold_addToBucket_wins (g : list MatchDetails) (a : Bucket) :
  bk_wins (fold_left addToBucket g a) = bk_wins a + countIf won g.
Proof.
  unfold countIf. revert a. induction g as [|m g IH]; intros a; [simpl; lia|].
  cbn [fold_left List.filter]. rewrite IH. unfold won at 2.
  cbn [addToBucket bk_wins]. destruct (win (participant m)); cbn [length]; lia.
Qed.

(** A bucket counts the matches that fall under its key. *)
Lemma bucketsOf_lookup key matches (i : nat) k stats :
  bucketsOf key matches !! i = Some (k, stats) →
  under key k matches ≠ [] ∧
  bk_games stats = Z.of_nat (length (under key k matches)) ∧
  bk_wins stats = countIf won (under key k matches).
Proof.
  intros Hi. apply grouped_lookup in Hi. unfold groupValue in Hi. unfold under.
  destruct (filter _ matches) as [|x g] eqn:E; [done|]. simplify_eq.
  rewrite fold_addToBucket, fold_addToBucket_wins. simpl. split; [done|]. split; lia.
Qed.

Lemma bucketsOf_games key matches :
  sumZ (bk_games <$> (bucketsOf key matches).*2) = Z.of_nat (length matches).
Proof.
  unfold bucketsOf. rewrite (grouped_sum _ _ _ bk_games (λ _, 1)) by done.
  unfold sumZ. induction matches as [|m l IH]; [done|].
  rewrite fmap_cons. cbn [foldr length]. rewrite IH. lia.
Qed.

Lemma bucketWinRate_percent (stats : Bucket) :
  0 < bk_games stats → 0 ≤ bk_wins stats ≤ bk_games stats →
  isPercentage (bucketWinRate stats) ∧
  isPercentOf (bucketWinRate stats) (bk_wins stats) (bk_games stats).
Proof. apply percentage_spec. Qed.

Lemma bucketsOf_row key matches (i : nat) k stats :
  bucketsOf key matches !! i = Some (k, stats) →
  rowOf key matches
    (k, bk_games stats, bk_wins stats, bk_games stats - bk_wins stats, bucketWinRate stats).
Proof.
  intros (Hne & Hg & Hw)%bucketsOf_lookup.
  pose proof (countIf_bounds won (under key k matches)) as Hb.
  assert (Hpos : 0 < bk_games stats).
  { rewrite Hg. destruct (under key k matches); [done|simpl; lia]. }
  destruct (bucketWinRate_percent stats) as [Hp Hq]; [lia..|].
  unfold rowOf. split_and!; [done|done|done|done|lia|lia|done|done].
Qed.

Lemma calculateTemporalTrends_tables host matches :
  ∃ t,
    calculateTemporalTrends host matches = Some t ∧
    monthlyWinRate t = (if decide (matches = []) then [] else monthTable host matches) ∧
    weeklyPerformance t = (if decide (matches = []) then [] else weekTable host matches).
Proof.
  destruct (decide (matches = [])) as [->|Hne]; [by eexists|].
  eexists. split; [by apply calculateTemporalTrends_nonempty|done].
Qed.

Lemma monthTable_elem_of host matches (e : MonthlyData) :
  e ∈ monthTable host matches →
  ∃ (i : nat) stats,
    bucketsOf (monthOf host) matches !! i = Some (month e, stats) ∧
    e = toMonthlyData (month e, stats).
Proof.
  unfold monthTable. rewrite Array_sort_elem_of.
  intros ([k stats] & -> & Hin)%list_elem_of_fmap.
  apply list_elem_of_lookup in Hin as [i Hi]. by exists i, stats.
Qed.

Lemma weekTable_elem_of host matches (e : WeeklyData) :
  e ∈ weekTable host matches →
  ∃ (i : nat) stats,
    bucketsOf (weekOf host) matches !! i = Some (week e, stats) ∧
    e = toWeeklyData (week e, stats).
Proof.
  unfold weekTable. rewrite Array_sort_elem_of.
  intros ([k stats] & -> & Hin)%list_elem_of_fmap.
  apply list_elem_of_lookup in Hin as [i Hi]. by exists i, stats.
Qed.

Lemma monthTable_keys host matches :
  month <$> monthTable host matches ≡ₚ (bucketsOf (monthOf host) matches).*1.
Proof.
  unfold monthTable. rewrite Array_sort_Permutation, <-list_fmap_compose.
  match goal with
  | |- ?l ≡ₚ _ => replace l with ((bucketsOf (monthOf host) matches).*1)
  end; [done|].
  apply list_fmap_ext. by intros _ [k stats] _.
Qed.

Lemma weekTable_keys host matches :
  week <$> weekTable host matches ≡ₚ (bucketsOf (weekOf host) matches).*1.
Proof.
  unfold weekTable. rewrite Array_sort_Permutation, <-list_fmap_compose.
  match goal with
  | |- ?l ≡ₚ _ => replace l with ((bucketsOf (weekOf host) matches).*1)
  end; [done|].
  apply list_fmap_ext. by intros _ [k stats] _.
Qed.

Lemma monthTable_keys_NoDup host matches : NoDup (month <$> monthTable host matches).
Proof. rewrite monthTable_keys. apply grouped_keys_NoDup. Qed.

Lemma weekTable_keys_NoDup host matches : NoDup (week <$> weekTable host matches).
Proof. rewrite weekTable_keys. apply grouped_keys_NoDup. Qed.

(** X5.  The month table has one row per month in which a match falls
    and no other row.  A row counts the matches of its month and their
    wins, has [wins + losses = games], and its win rate is a finite
    number between 0 and 100, the share of its wins rounded to
    binary64, times 100 rounded again; the games of the rows add up to
    the number of matches. *)
Theorem monthly_table_counts host matches :
  ∃ t,
    calculateTemporalTrends host matches = Some t ∧
    NoDup (month <$> monthlyWinRate t) ∧
    (∀ m, m ∈ matches → monthOf host m ∈ month <$> monthlyWinRate t) ∧
    (∀ e, e ∈ monthlyWinRate t →
       let own := under (monthOf host) (month e) matches in
       own ≠ [] ∧
       md_games e = Z.of_nat (length own) ∧
       md_wins e = countIf won own ∧
       md_losses e = md_games e - md_wins e ∧
       0 ≤ md_wins e ∧ 0 ≤ md_losses e ∧
       isPercentage (md_winRate e) ∧
       isPercentOf (md_winRate e) (md_wins e) (md_games e)) ∧
    sumZ (md_games <$> monthlyWinRate t) = Z.of_nat (length matches).
Proof.
  destruct (calculateTemporalTrends_tables host matches) as (t & Ht & Hm & _).
  exists t. split; [done|]. rewrite Hm.
  destruct (decide (matches = [])) as [->|Hne].
  { split_and!; [constructor|by intros m ?%elem_of_nil|by intros e ?%elem_of_nil|done]. }
  pose proof (monthTable_keys host matches) as Hkeys.
  split_and!.
  - rewrite Hkeys. apply grouped_keys_NoDup.
  - intros m Hm'. rewrite Hkeys. apply grouped_keys_elem_of.
    apply list_elem_of_fmap. by exists m.
  - intros e (i & stats & Hi & ->)%monthTable_elem_of.
    apply bucketsOf_row in Hi. exact Hi.
  - rewrite <-(bucketsOf_games (monthOf host) matches). unfold monthTable.
    rewrite (sumZ_Permutation _ (md_games <$> (toMonthlyData <$>
               bucketsOf (monthOf host) matches)))
      by apply fmap_Permutation, Array_sort_Permutation.
    rewrite <-!list_fmap_compose. f_equal. apply list_fmap_ext. by intros _ [k stats] _.
Qed.

(** X6.  The week table has one row per week in which a match falls
    and no other row, with the same counts and the same rates, finite
    and rounded twice, as the month table. *)
Theorem weekly_table_counts host matches :
  ∃ t,
    calculateTemporalTrends host matches = Some t ∧
    NoDup (week <$> weeklyPerformance t) ∧
    (∀ m, m ∈ matches → weekOf host m ∈ week <$> weeklyPerformance t) ∧
    (∀ e, e ∈ weeklyPerformance t →
       let own := under (weekOf host) (week e) matches in
       own ≠ [] ∧
       wd_games e = Z.of_nat (length own) ∧
       wd_wins e = countIf won own ∧
       wd_losses e = wd_games e - wd_wins e ∧
       0 ≤ wd_wins e ∧ 0 ≤ wd_losses e ∧
       isPercentage (wd_winRate e) ∧
       isPercentOf (wd_winRate e) (wd_wins e) (wd_games e)) ∧
    sumZ (wd_games <$> weeklyPerformance t) = Z.of_nat (length matches).
Proof.
  destruct (calculateTemporalTrends_tables host matches) as (t & Ht & _ & Hw).
  exists t. split; [done|]. rewrite Hw.
  destruct (decide (matches = [])) as [->|Hne].
  { split_and!; [constructor|by intros m ?%elem_of_nil|by intros e ?%elem_of_nil|done]. }
  pose proof (weekTable_keys host matches) as Hkeys.
  split_and!.
  - rewrite Hkeys. apply grouped_keys_NoDup.
  - intros m Hm'. rewrite Hkeys. apply grouped_keys_elem_of.
    apply list_elem_of_fmap. by exists m.
  - intros e (i & stats & Hi & ->)%weekTable_elem_of.
    apply bucketsOf_row in Hi. exact Hi.
  - rewrite <-(bucketsOf_games (weekOf host) matches). unfold weekTable.
    rewrite (sumZ_Permutation _ (wd_games <$> (toWeeklyData <$>
               bucketsOf (weekOf host) matches)))
      by apply fmap_Permutation, Array_sort_Permutation.
    rewrite <-!list_fmap_compose. f_equal. apply list_fmap_ext. by intros _ [k stats] _.
Qed.

(** ** Order of the tables *)

Lemma string_compare_trans (a b c : string) :
  String.compare a b ≠ Gt → String.compare b c ≠ Gt → String.compare a c ≠ Gt.
Proof.
  revert b c. induction a as [|x a IH]; intros [|y b] [|z c]; simpl; try done.
  unfold Ascii.compare.
  destruct (N.compare_spec (N_of_ascii x) (N_of_ascii y)) as [Hxy|Hxy|Hxy];
  destruct (N.compare_spec (N_of_ascii y) (N_of_ascii z)) as [Hyz|Hyz|Hyz];
  destruct (N.compare_spec (N_of_ascii x) (N_of_ascii z)) as [Hxz|Hxz|Hxz];
  try done; try lia.
  apply IH.
Qed.

Lemma utcHost_consistentCompare : consistentCompare utcHost.
Proof.
  split.
  - intros a b. cbn [localeCompare utcHost]. rewrite (String.compare_antisym b a).
    destruct (String.compare a b); simpl; lia.
  - intros a b c. cbn [localeCompare utcHost].
    pose proof (string_compare_trans a b c) as Ht.
    destruct (String.compare a b), (String.compare b c), (String.compare a c);
      try lia; intros _ _; exfalso; by apply Ht.
Qed.

Lemma Array_sort_by_compare {A : Type} (host : Host) (key : A → string) (l : list A) :
  consistentCompare host →
  StronglySorted (λ a b, localeCompare host (key a) (key b) ≤ 0)
    (Array_sort (λ a b, ofZ (localeCompare host (key a) (key b))) l).
Proof.
  intros [Hanti Htrans]. apply Array_sort_sorted.
  - intros x y z. apply Htrans.
  - intros x y _ _. unfold decides.
    destruct (gt _ _) eqn:E; [apply gt_ofZ in E; by apply Hanti|by apply gt_ofZ_false in E].
Qed.

(** X7.  When the host's [localeCompare] orders the strings, the month
    table and the week table are in ascending order of their keys: of
    two rows the earlier one has a key that is not after the later
    one's, and the two keys differ. *)
Theorem tables_in_key_order host matches :
  consistentCompare host →
  ∃ t,
    calculateTemporalTrends host matches = Some t ∧
    (∀ (i j : nat) a b,
       monthlyWinRate t !! i = Some a → monthlyWinRate t !! j = Some b → (i < j)%nat →
       localeCompare host (month a) (month b) ≤ 0 ∧ month a ≠ month b) ∧
    (∀ (i j : nat) a b,
       weeklyPerformance t !! i = Some a → weeklyPerformance t !! j = Some b → (i < j)%nat →
       localeCompare host (week a) (week b) ≤ 0 ∧ week a ≠ week b).
Proof.
  intros Hhost.
  destruct (calculateTemporalTrends_tables host matches) as (t & Ht & Hm & Hw).
  exists t. split; [done|]. rewrite Hm, Hw.
  destruct (decide (matches = [])) as [->|Hne]; [done|].
  split.
  - intros i j a b Hi Hj Hlt. split.
    + apply (StronglySorted_lookup _ _ i j a b
               (Array_sort_by_compare host month _ Hhost) Hi Hj Hlt).
    + intros Heq.
      pose proof (NoDup_lookup _ i j (month a) (monthTable_keys_NoDup host matches)) as Hnd.
      rewrite !list_lookup_fmap, Hi, Hj in Hnd. simpl in Hnd. rewrite Heq in Hnd.
      specialize (Hnd eq_refl eq_refl). lia.
  - intros i j a b Hi Hj Hlt. split.
    + apply (StronglySorted_lookup _ _ i j a b
               (Array_sort_by_compare host week _ Hhost) Hi Hj Hlt).
    + intros Heq.
      pose proof (NoDup_lookup _ i j (week a) (weekTable_keys_NoDup host matches)) as Hnd.
      rewrite !list_lookup_fmap, Hi, Hj in Hnd. simpl in Hnd. rewrite Heq in Hnd.
      specialize (Hnd eq_refl eq_refl). lia.
Qed.

Lemma tables_in_key_order_witness :
  ∃ t,
    calculateTemporalTrends utcHost januaryAndFebruary = Some t ∧
    ∀ (i j : nat) a b,
      monthlyWinRate t !! i = Some a → monthlyWinRate t !! j = Some b → (i < j)%nat →
      localeCompare utcHost (month a) (month b) ≤ 0 ∧ month a ≠ month b.
Proof.
  destruct (tables_in_key_order utcHost januaryAndFebruary utcHost_consistentCompare)
    as (t & Ht & Hm & _).
  exists t. split; [exact Ht|exact Hm].
Defined.

(** ** Month and week keys *)

Lemma length_append (s t : string) :
  String.length (s +:+ t) = (String.length s + String.length t)%nat.
Proof. induction s as [|c s IH]; simpl; [done|]. by rewrite IH. Qed.

(** Two concatenations with tails of the same length are equal part by
    part. *)
Lemma append_inj_tail (s1 s2 t1 t2 : string) :
  String.length t1 = String.length t2 → s1 +:+ t1 = s2 +:+ t2 → s1 = s2 ∧ t1 = t2.
Proof.
  intros Hlen. revert s2. induction s1 as [|c s1 IH]; intros [|d s2] Heq; simpl in Heq.
  - done.
  - exfalso. apply (f_equal String.length) in Heq.
    rewrite !length_append in Heq. simpl in Heq. lia.
  - exfalso. apply (f_equal String.length) in Heq.
    rewrite !length_append in Heq. simpl in Heq. lia.
  - injection Heq as -> Heq. destruct (IH s2 Heq) as [-> ->]. done.
Qed.

Lemma to_int_nonnil (z : Z) :
  Z.to_int z ≠ Decimal.Pos Decimal.Nil ∧ Z.to_int z ≠ Decimal.Neg Decimal.Nil.
Proof.
  destruct z as [|p|p]; simpl; split; try done;
    intros [= H]; by apply DecimalPos.Unsigned.to_uint_nonnil in H.
Qed.

(** [String] does not confuse two integers. *)
Lemma String__inj (a b : Z) : String_ a = String_ b → a = b.
Proof.
  unfold String_. intros Heq. apply (f_equal NilZero.int_of_string) in Heq.
  destruct (to_int_nonnil a), (to_int_nonnil b).
  rewrite !NilZero.isi in Heq by done. injection Heq as Heq.
  by apply DecimalZ.to_int_inj.
Qed.

Lemma twoDigits_length (z : Z) : 0 ≤ z ≤ 99 → String.length (twoDigits z) = 2%nat.
Proof.
  intros Hz.
  assert (Hall : forallb (λ k, Nat.eqb (String.length (twoDigits (Z.of_nat k))) 2)
                   (seq 0 100) = true) by (vm_compute; reflexivity).
  rewrite forallb_forall in Hall.
  specialize (Hall (Z.to_nat z)). rewrite Z2Nat.id in Hall by lia.
  apply Nat.eqb_eq, Hall, in_seq. lia.
Qed.

Lemma twoDigits_inj (a b : Z) : 0 ≤ a ≤ 99 → 0 ≤ b ≤ 99 → twoDigits a = twoDigits b → a = b.
Proof.
  intros Ha Hb Heq.
  assert (Hall : forallb (λ i, forallb (λ j,
                    implb (String.eqb (twoDigits (Z.of_nat i)) (twoDigits (Z.of_nat j)))
                          (Nat.eqb i j)) (seq 0 100)) (seq 0 100) = true)
    by (vm_compute; reflexivity).
  rewrite forallb_forall in Hall.
  specialize (Hall (Z.to_nat a)). rewrite forallb_forall in Hall.
  specialize (Hall ltac:(apply in_seq; lia) (Z.to_nat b) ltac:(apply in_seq; lia)).
  rewrite !Z2Nat.id in Hall by lia.
  rewrite (proj2 (String.eqb_eq _ _) Heq) in Hall. simpl in Hall.
  apply Nat.eqb_eq in Hall. lia.
Qed.

(** X8.  A month key names one calendar month.  On a host whose
    [getMonth] answers a month index from 0 to 11 the key is the year,
    a hyphen and two digits, and two time stamps have the same key
    exactly when the host gives them the same year and the same
    month. *)
Theorem getMonthString_names_the_month host t1 t2 :
  0 ≤ getMonth host t1 ≤ 11 → 0 ≤ getMonth host t2 ≤ 11 →
  getMonthString host t1 =
    String_ (getFullYear host t1) +:+ "-" +:+ twoDigits (getMonth host t1 + 1) ∧
  String.length (twoDigits (getMonth host t1 + 1)) = 2%nat ∧
  (getMonthString host t1 = getMonthString host t2 ↔
   getFullYear host t1 = getFullYear host t2 ∧ getMonth host t1 = getMonth host t2).
Proof.
  intros H1 H2. split; [done|]. split; [apply twoDigits_length; lia|].
  assert (Hkey : ∀ t, getMonthString host t =
            String_ (getFullYear host t) +:+ ("-" +:+ twoDigits (getMonth host t + 1)))
    by done.
  rewrite !Hkey. split.
  - intros Heq. apply append_inj_tail in Heq as [Hy Hm].
    + apply String__inj in Hy. split; [done|].
      apply (String.app_inj "-") in Hm. apply twoDigits_inj in Hm; lia.
    + rewrite !length_append, !twoDigits_length by lia. done.
  - intros [Hy Hm]. by rewrite Hy, Hm.
Qed.

Lemma getMonthString_names_the_month_witness :
  getMonthString utcHost 1705276800000 = "2024-01" ∧
  (getMonthString utcHost 1705276800000 = getMonthString utcHost 1706745600000 ↔
   getFullYear utcHost 1705276800000 = getFullYear utcHost 1706745600000 ∧
   getMonth utcHost 1705276800000 = getMonth utcHost 1706745600000).
Proof.
  destruct (getMonthString_names_the_month utcHost 1705276800000 1706745600000)
    as (Hkey & _ & Hiff).
  - vm_compute. split; discriminate.
  - vm_compute. split; discriminate.
  - split; [vm_compute; reflexivity|exact Hiff].
Defined.

(** The ceiling of a quotient of integers. *)
Lemma Qceiling_quotient (a b : Z) :
  0 < b → Qceiling (inject_Z a / inject_Z b) = (a + b - 1) / b.
Proof.
  intros Hb.
  pose proof (Qle_ceiling (inject_Z a / inject_Z b)) as Hle.
  pose proof (Qceiling_lt (inject_Z a / inject_Z b)) as Hlt.
  set (n := Qceiling (inject_Z a / inject_Z b)) in *. clearbody n.
  assert (Hpos : (0 < inject_Z b)%Q) by (unfold Qlt; simpl; lia).
  assert (Hle' : a ≤ n * b).
  { apply (Qmult_le_r _ _ _ Hpos) in Hle.
    rewrite <-inject_Z_mult in Hle.
    assert (Heq : (inject_Z a / inject_Z b * inject_Z b == inject_Z a)%Q)
      by (field; unfold Qeq; simpl; lia).
    rewrite Heq in Hle. unfold Qle in Hle. simpl in Hle. lia. }
  assert (Hlt' : (n - 1) * b < a).
  { apply (Qmult_lt_r _ _ _ Hpos) in Hlt.
    rewrite <-inject_Z_mult in Hlt.
    assert (Heq : (inject_Z a / inject_Z b * inject_Z b == inject_Z a)%Q)
      by (field; unfold Qeq; simpl; lia).
    rewrite Heq in Hlt. unfold Qlt in Hlt. simpl in Hlt. lia. }
  apply (Z.div_unique _ _ _ (a + b - 1 - b * n)); lia.
Qed.

Lemma getWeekString_weekNumber host (t : Z) :
  getWeekString host t =
  String_ (getFullYear host t) +:+ "-W" +:+ twoDigits (weekNumber host t).
Proof.
  unfold getWeekString, weekNumber, twoDigits. cbv zeta. do 3 f_equal.
  set (first := newDate host (getFullYear host t) 0 1).
  set (dow := getDay host first).
  rewrite <-(Qceiling_quotient (t - first + (dow + 1) * 86400000) 604800000) by lia.
  f_equal. apply Qceiling_comp.
  rewrite !inject_Z_plus, !inject_Z_mult, inject_Z_plus.
  change (inject_Z 604800000) with (7 * inject_Z 86400000)%Q.
  change (inject_Z 1) with 1%Q.
  field.
Qed.

(** X9.  A week key is the year, [-W] and the number of the week
    counted from the first day of the year, shifted by that day's
    weekday.  For a time stamp within 366 days after the first day of
    its year, on a host whose weekdays run from 0 to 6, the week number
    lies between 1 and 54 and is written with two digits. *)
Theorem getWeekString_week_number host (t : Z) :
  let firstDayOfYear := newDate host (getFullYear host t) 0 1 in
  firstDayOfYear ≤ t → t - firstDayOfYear < 366 * 86400000 →
  0 ≤ getDay host firstDayOfYear ≤ 6 →
  getWeekString host t =
    String_ (getFullYear host t) +:+ "-W" +:+ twoDigits (weekNumber host t) ∧
  1 ≤ weekNumber host t ≤ 54 ∧
  String.length (twoDigits (weekNumber host t)) = 2%nat.
Proof.
  cbv zeta. intros Hfirst Hyear Hday.
  split; [apply getWeekString_weekNumber|].
  assert (Hn : 1 ≤ weekNumber host t ≤ 54).
  { unfold weekNumber. cbv zeta. split.
    - apply Z.div_le_lower_bound; lia.
    - apply Z.lt_succ_r, Z.div_lt_upper_bound; lia. }
  split; [done|]. apply twoDigits_length. lia.
Qed.

Lemma getWeekString_week_number_witness :
  getWeekString utcHost 1735603200000 = "2024-W53" ∧
  1 ≤ weekNumber utcHost 1735603200000 ≤ 54.
Proof.
  destruct (getWeekString_week_number utcHost 1735603200000) as (Hkey & Hn & _).
  - vm_compute. discriminate.
  - vm_compute. reflexivity.
  - vm_compute. split; discriminate.
  - split; [vm_compute; reflexivity|exact Hn].
Defined.

(** ** Performance metrics *)

Section Accuracy.
Local Open Scope Q_scope.

(** Two roundings in a row: a total by the minutes is within [2^-51]
    of sixty times the total by the seconds. *)
Lemma per_minute_accuracy (s t : Z) :
  (0 < s)%Z → safeInteger s → (0 <= t)%Z → safeInteger t →
  ∃ x, div (ofZ t) (div (ofZ s) (ofZ 60)) = Num x ∧
       Qabs (x - inject_Z (60 * t) / inject_Z s) <=
         pow2 (-51) * (inject_Z (60 * t) / inject_Z s).
Proof.
  intros Hs Hsafe Ht Htsafe.
  destruct (minutes_spec s ltac:(lia) Hsafe) as (m & Hm & _ & Hm6).
  pose proof Hm as Hm'. rewrite div_ofZ in Hm' by done.
  change (inject_Z 60) with 60 in Hm'.
  set (S := inject_Z s) in *. set (T := inject_Z t).
  assert (HS1 : 1 <= S) by (unfold S; change 1 with (inject_Z 1); rewrite <-Zle_Qle; lia).
  assert (HS53 : S <= pow2 53).
  { unfold S. rewrite pow2_Z by lia. rewrite <-Zle_Qle. unfold safeInteger in Hsafe. lia. }
  assert (HT0 : 0 <= T) by (unfold T; change 0 with (inject_Z 0); by rewrite <-Zle_Qle).
  set (u := pow2 (-53)).
  assert (Hu0 : 0 < u) by apply pow2_pos.
  assert (Hu4 : u <= 1 # 64).
  { pose proof (pow2_le (-53) (-6) ltac:(lia)) as H. assert (pow2 (-6) == 1 # 64) by reflexivity.
    unfold u. lra. }
  assert (H51 : pow2 (-51) == 4 * u) by reflexivity.
  assert (Hsmall : pow2 (-1022) <= u) by (apply pow2_le; lia).
  set (A := S / 60) in *.
  assert (HA : A * 60 == S) by (unfold A; field).
  assert (HA0 : 1 # 60 <= A) by lra.
  assert (Herr1 : Qabs (m - A) <= u * A).
  { pose proof (round64_error _ _ Hm') as H. rewrite (Qabs_pos A) in H by lra.
    apply H. lra. }
  assert (Hm1 : (1 - u) * A <= m ∧ m <= (1 + u) * A).
  { revert Herr1. apply Qabs_case; intros; split; lra. }
  destruct Hm1 as [Hmlo Hmhi].
  assert (Hmpos : 0 < m) by nra.
  rewrite Hm.
  destruct (per_minute_spec t m Htsafe Hm6) as (x & Hx & _).
  pose proof Hx as Hx'. unfold ofZ in Hx'. rewrite div_Num in Hx' by lra. fold T in Hx'.
  exists x. split; [exact Hx|].
  set (G := inject_Z (60 * t) / S).
  assert (HG : G * A == T).
  { unfold G, A, T. rewrite inject_Z_mult. change (inject_Z 60) with 60. field. lra. }
  set (B := T / m) in *.
  assert (HB : B * m == T) by (unfold B; field; lra).
  destruct (Qle_lt_or_eq _ _ HT0) as [HTpos|HT0'].
  - assert (HT1 : 1 <= T).
    { unfold T in *. change 0 with (inject_Z 0) in HTpos. rewrite <-Zlt_Qlt in HTpos.
      change 1 with (inject_Z 1). rewrite <-Zle_Qle. lia. }
    assert (HB0 : 0 < B) by (unfold B; apply Qlt_shift_div_l; lra).
    assert (Hnorm : pow2 (-1022) <= Qabs B).
    { rewrite Qabs_pos by lra. unfold B. apply Qle_shift_div_l; [done|].
      assert (m <= pow2 53) by nra.
      assert (u * pow2 53 == 1) by reflexivity.
      pose proof (pow2_pos (-1022)). pose proof (pow2_pos 53). nra. }
    pose proof (round64_error _ _ Hx' Hnorm) as Herr2.
    rewrite (Qabs_pos B) in Herr2 by lra. fold u in Herr2.
    assert (Hx1 : (1 - u) * B <= x ∧ x <= (1 + u) * B).
    { revert Herr2. apply Qabs_case; intros; split; lra. }
    destruct Hx1 as [Hxlo Hxhi].
    assert (HG0 : 0 < G).
    { assert (0 < G * A) by lra. nra. }
    assert (Ha1 : (1 - u) * B <= G).
    { assert (A * ((1 - u) * B) <= A * G) by nra. nra. }
    assert (Ha2 : G <= (1 + u) * B).
    { assert (A * G <= A * ((1 + u) * B)) by nra. nra. }
    rewrite H51. apply Qabs_case; intros _; nra.
  - assert (Hzero : T / m == 0) by (rewrite <-HT0'; field; lra).
    assert (HG0 : G == 0).
    { unfold G. rewrite inject_Z_mult. fold T. rewrite <-HT0'. field. lra. }
    assert (Hx0 : x == 0).
    { rewrite <-Hzero. apply nearest64_exact; [by apply round64_nearest|].
      destruct binary64_0 as (k & e & Hk & He & Hke).
      exists k, e. split_and!; [done|lia|lia|]. by rewrite Hzero. }
    rewrite HG0, Hx0. rewrite Qmult_0_r. discriminate.
Qed.
End Accuracy.

(** X10.  The per-minute metrics are accurate.  When the durations add
    up to a positive safe integer, each metric whose total is a safe
    integer that is not negative is a finite number within [2^-51], in
    proportion, of sixty times the total divided by the seconds: the
    two roundings of the code, of the minutes and of the quotient, cost
    no more. *)
Theorem per_minute_metrics_accurate host matches masteries :
  0 < total gameDuration matches →
  safeInteger (total gameDuration matches) →
  ∃ r,
    aggregateMatchData host matches masteries = Some r ∧
    let p := performanceMetrics r in
    let seconds := total gameDuration matches in
    let damage := total (λ m, totalDamageDealt (participant m)) matches in
    let gold := total (λ m, goldEarned (participant m)) matches in
    let cs := total (λ m, totalMinionsKilled (participant m)) matches in
    (0 ≤ damage → safeInteger damage →
     isCloseTo (avgDamagePerMinute p) (inject_Z (60 * damage) / inject_Z seconds)) ∧
    (0 ≤ gold → safeInteger gold →
     isCloseTo (avgGoldPerMinute p) (inject_Z (60 * gold) / inject_Z seconds)) ∧
    (0 ≤ cs → safeInteger cs →
     isCloseTo (avgCSPerMinute p) (inject_Z (60 * cs) / inject_Z seconds)).
Proof.
  intros Hd Hsafe.
  assert (Hne : matches ≠ []) by (intros ->; by vm_compute in Hd).
  eexists. split; [by apply aggregateMatchData_parts|].
  cbv zeta. cbn [performanceMetrics performanceOf avgDamagePerMinute avgGoldPerMinute
                 avgCSPerMinute].
  split_and!; intros H0 Hs; by apply per_minute_accuracy.
Qed.

Lemma per_minute_metrics_accurate_witness :
  ∃ r,
    aggregateMatchData utcHost tiedKills [] = Some r ∧
    isCloseTo (avgDamagePerMinute (performanceMetrics r))
      (inject_Z (60 * 36000) / inject_Z 5400).
Proof.
  destruct (per_minute_metrics_accurate utcHost tiedKills []) as (r & Hr & Hd & _).
  - vm_compute. reflexivity.
  - vm_compute. reflexivity.
  - exists r. split; [exact Hr|]. apply Hd; vm_compute; [discriminate|reflexivity].
Defined.

(** ** Streaks and totals *)

Lemma isRun_count (b : bool) (n : nat) (l : list bool) :
  isRun b n l → (n ≤ length (filter (λ x, x = b) l))%nat.
Proof.
  intros (before & after & ->). rewrite !filter_app, !length_app.
  assert (filter (λ x, x = b) (replicate n b) = replicate n b) as ->.
  { induction n as [|n IH]; [done|]. simpl. rewrite filter_cons, decide_True by done.
    by rewrite IH. }
  rewrite length_replicate. lia.
Qed.

Lemma isRun_elem_of (b : bool) (l : list bool) : b ∈ l → isRun b 1 l.
Proof. intros (before & after & ->)%list_elem_of_split. by exists before, after. Qed.

Lemma results_count (b : bool) (matches : list MatchDetails) :
  Z.of_nat (length (filter (λ x, x = b) (results matches))) =
  countIf (λ m, bool_decide (won m = b)) matches.
Proof.
  unfold countIf, results. induction matches as [|m l IH]; [done|].
  rewrite fmap_cons, filter_cons. cbn [List.filter]. unfold won at 1.
  destruct (decide (win (participant m) = b)) as [Hb|Hb].
  - rewrite bool_decide_true by done. cbn [length]. lia.
  - rewrite bool_decide_false by done. exact IH.
Qed.

Lemma countIf_Permutation (p : MatchDetails → bool) (l k : list MatchDetails) :
  l ≡ₚ k → countIf p l = countIf p k.
Proof.
  unfold countIf. induction 1 as [|x l k _ IH|x y l|l k j _ IH1 _ IH2]; simpl.
  - done.
  - destruct (p x); simpl; lia.
  - destruct (p x), (p y); simpl; lia.
  - lia.
Qed.

Lemma countIf_split (matches : list MatchDetails) :
  countIf (λ m, bool_decide (won m = true)) matches = countIf won matches ∧
  countIf (λ m, bool_decide (won m = false)) matches =
    Z.of_nat (length matches) - countIf won matches.
Proof.
  unfold countIf. induction matches as [|m l [IH1 IH2]]; [done|].
  cbn [List.filter length]. destruct (won m); simpl; lia.
Qed.

(** The streaks of a non-empty list against the numbers of wins and
    losses. *)
Lemma calculateStreaks_bounds (matches : list MatchDetails) :
  matches ≠ [] →
  let s := calculateStreaks matches in
  let wins := countIf won matches in
  let losses := Z.of_nat (length matches) - wins in
  0 ≤ longestWinStreak s ≤ wins ∧
  0 ≤ longestLossStreak s ≤ losses ∧
  1 ≤ count (currentStreak s) ∧
  count (currentStreak s) ≤
    (match type (currentStreak s) with
     | Win => longestWinStreak s
     | Loss => longestLossStreak s
     end) ∧
  (longestWinStreak s = 0 ↔ wins = 0) ∧
  (longestLossStreak s = 0 ↔ losses = 0).
Proof.
  intros Hne. cbv zeta. rewrite calculateStreaks_nonempty by done.
  cbn [longestWinStreak longestLossStreak currentStreak].
  set (sorted := chronological matches).
  assert (Hperm : sorted ≡ₚ matches) by apply Array_sort_Permutation.
  destruct (streak_scan true sorted) as (Hcw & Hpw & Hrw & Hmw).
  destruct (streak_scan false sorted) as (Hcl & Hpl & Hrl & Hml).
  cbv zeta in *. cbn [currentOf longestOf] in *.
  set (s := fold_left streakStep sorted streakSeed) in *. clearbody s.
  destruct (countIf_split matches) as [Hwins Hlosses].
  assert (Hcount : ∀ b, Z.of_nat (length (filter (λ x, x = b) (results sorted))) =
                        countIf (λ m, bool_decide (won m = b)) matches).
  { intros b. rewrite results_count. by apply countIf_Permutation. }
  assert (Hw : scan_longestWinStreak s ≤ countIf won matches).
  { apply isRun_count in Hrw. rewrite <-Hwins, <-Hcount. lia. }
  assert (Hl : scan_longestLossStreak s ≤ Z.of_nat (length matches) - countIf won matches).
  { apply isRun_count in Hrl. rewrite <-Hlosses, <-Hcount. lia. }
  assert (Htw : Z.of_nat (trailing true (results sorted)) ≤ scan_longestWinStreak s).
  { apply Hmw. destruct (isRun_trailing true (results sorted)) as [before Hb].
    exists before, []. by rewrite app_nil_r. }
  assert (Htl : Z.of_nat (trailing false (results sorted)) ≤ scan_longestLossStreak s).
  { apply Hml. destruct (isRun_trailing false (results sorted)) as [before Hb].
    exists before, []. by rewrite app_nil_r. }
  assert (Hsome : ∀ b, 0 < countIf (λ m, bool_decide (won m = b)) matches →
                       b ∈ results sorted).
  { intros b Hb. rewrite <-Hcount in Hb.
    destruct (filter (λ x, x = b) (results sorted)) as [|x l] eqn:E; [simpl in Hb; lia|].
    assert (Hx : x ∈ filter (λ x, x = b) (results sorted)) by (rewrite E; left).
    apply list_elem_of_filter in Hx as [-> Hx]. done. }
  pose proof (last_results_trailing (results sorted)) as Hlast.
  pose proof (countIf_bounds won matches) as Hb.
  split_and!; try lia.
  - rewrite Hcw, Hcl. destruct (last (results sorted)) as [[]|].
    + destruct Hlast as [Hpos _]. rewrite (proj2 (Z.ltb_lt _ _)) by lia. simpl. lia.
    + destruct Hlast as [Hpos Hzero]. simpl in Hzero. rewrite Hzero. simpl. lia.
    + exfalso. apply Hne. unfold results in Hlast. apply fmap_nil_inv in Hlast.
      apply Permutation_nil_r. by rewrite <-Hperm, Hlast.
  - rewrite Hcw, Hcl. destruct (0 <? _); simpl; lia.
  - split; [|lia]. intros Hzero.
    destruct (decide (countIf won matches = 0)) as [|Hnz]; [done|]. exfalso.
    assert (Hin : true ∈ results sorted) by (apply Hsome; lia).
    apply isRun_elem_of, Hmw in Hin. lia.
  - split; [|lia]. intros Hzero.
    destruct (decide (Z.of_nat (length matches) - countIf won matches = 0)) as [|Hnz];
      [done|]. exfalso.
    assert (Hin : false ∈ results sorted) by (apply Hsome; lia).
    apply isRun_elem_of, Hml in Hin. lia.
Qed.

(** X11.  The streaks agree with the overview.  The longest win streak
    is at most [totalWins] and the longest loss streak at most
    [totalLosses]; each of them is 0 exactly when there is no win, or
    no loss, at all.  The current streak is never longer than the
    longest streak of its kind and, when there is a match, counts at
    least one game. *)
Theorem streaks_within_totals host matches masteries :
  ∃ r,
    aggregateMatchData host matches masteries = Some r ∧
    let s := streaks r in
    let o := overview r in
    0 ≤ longestWinStreak s ≤ totalWins o ∧
    0 ≤ longestLossStreak s ≤ totalLosses o ∧
    (longestWinStreak s = 0 ↔ totalWins o = 0) ∧
    (longestLossStreak s = 0 ↔ totalLosses o = 0) ∧
    count (currentStreak s) ≤
      (match type (currentStreak s) with
       | Win => longestWinStreak s
       | Loss => longestLossStreak s
       end) ∧
    (if decide (matches = []) then count (currentStreak s) = 0
     else 1 ≤ count (currentStreak s)).
Proof.
  destruct (decide (matches = [])) as [->|Hne].
  { exists emptyAnalytics. split; [done|]. cbn. split_and!; done. }
  eexists. split; [by apply aggregateMatchData_parts|].
  unfold overviewOf. cbv zeta.
  cbn [streaks overview totalWins totalLosses].
  destruct (calculateStreaks_bounds matches Hne) as (Hw & Hl & Hone & Hcur & Hzw & Hzl).
  split_and!; [lia|lia|lia|lia|exact Hzw|exact Hzl|exact Hcur|exact Hone].
Qed.

(** ** Order of the input *)

Lemma total_Permutation (f : MatchDetails → Z) (l k : list MatchDetails) :
  l ≡ₚ k → total f l = total f k.
Proof. intros Hp. unfold total. apply sumZ_Permutation. by rewrite Hp. Qed.

Lemma overviewOf_Permutation (l k : list MatchDetails) :
  l ≡ₚ k → overviewOf l = overviewOf k.
Proof.
  intros Hp. unfold overviewOf.
  rewrite (Permutation_length Hp), (countIf_Permutation won l k Hp).
  by rewrite !(total_Permutation _ l k Hp).
Qed.

Lemma performanceOf_Permutation (l k : list MatchDetails) :
  l ≡ₚ k → performanceOf l = performanceOf k.
Proof.
  intros Hp. unfold performanceOf.
  rewrite (Permutation_length Hp). by rewrite !(total_Permutation _ l k Hp).
Qed.

Lemma calculateRoleDistribution_Permutation (l k : list MatchDetails) (label : string) :
  l ≡ₚ k → calculateRoleDistribution l !! label = calculateRoleDistribution k !! label.
Proof.
  intros Hp. rewrite !calculateRoleDistribution_lookup. cbv zeta.
  by rewrite (countIf_Permutation _ l k Hp).
Qed.

(** X12.  The overview and the performance metrics do not depend on
    the order of the matches: two lists with the same matches give the
    same two parts, and the same count under every role label, as long
    as no label is a name that every object inherits. *)
Theorem totals_ignore_order host matches matches' masteries :
  matches' ≡ₚ matches →
  ∃ r r',
    aggregateMatchData host matches masteries = Some r ∧
    aggregateMatchData host matches' masteries = Some r' ∧
    overview r' = overview r ∧
    performanceMetrics r' = performanceMetrics r ∧
    (Forall ownRole matches →
     ∀ label, roleDistribution r' !! label = roleDistribution r !! label).
Proof.
  intros Hp. destruct (decide (matches = [])) as [->|Hne].
  { apply Permutation_nil_r in Hp as ->. by exists emptyAnalytics, emptyAnalytics. }
  assert (Hne' : matches' ≠ []).
  { intros ->. apply Hne. by apply Permutation_nil_l in Hp. }
  eexists _, _.
  split; [by apply aggregateMatchData_parts|].
  split; [by apply aggregateMatchData_parts|].
  cbn [overview performanceMetrics roleDistribution].
  split_and!.
  - by apply overviewOf_Permutation.
  - by apply performanceOf_Permutation.
  - intros _ label. by apply calculateRoleDistribution_Permutation.
Qed.

Lemma totals_ignore_order_witness :
  ∃ r r',
    aggregateMatchData utcHost shuffledSeason [] = Some r ∧
    aggregateMatchData utcHost (reverse shuffledSeason) [] = Some r' ∧
    overview r' = overview r.
Proof.
  destruct (totals_ignore_order utcHost shuffledSeason (reverse shuffledSeason) [])
    as (r & r' & Hr & Hr' & Ho & _).
  - apply reverse_Permutation.
  - exists r, r'. split; [exact Hr|]. split; [exact Hr'|exact Ho].
Defined.

(** The order of the keys, which [Object.entries] shows, does follow
    the matches: a label stands where its first match created it, and
    a label that spells an array index stands before the others. *)
Example roleDistribution_key_order :
  Object_keys (calculateRoleDistribution sampleRoles) = ["UNKNOWN"; "SOLO"] ∧
  Object_keys (calculateRoleDistribution (reverse sampleRoles)) = ["SOLO"; "UNKNOWN"] ∧
  Object_keys (Object_set "7" 1 (Object_set "10" 1 (Object_set "TOP" 1 (∅ : JSObject Z)))) =
    ["7"; "10"; "TOP"] ∧
  Object_keys (Object_set "07" 1 (Object_set "TOP" 1 (∅ : JSObject Z))) = ["TOP"; "07"].
Proof. vm_compute. repeat split. Qed.

Lemma getMonthString_nonempty host (t : Z) : getMonthString host t ≠ "".
Proof.
  unfold getMonthString. cbv zeta. intros H.
  apply (f_equal String.length) in H. rewrite !length_append in H. simpl in H. lia.
Qed.

Lemma monthTable_month_nonempty host matches (e : MonthlyData) :
  e ∈ monthTable host matches → month e ≠ "".
Proof.
  intros (i & stats & Hi & _)%monthTable_elem_of.
  assert (Hk : month e ∈ (bucketsOf (monthOf host) matches).*1).
  { apply list_elem_of_fmap. exists (month e, stats). split; [done|].
    by eapply list_elem_of_lookup_2. }
  apply grouped_keys_elem_of, list_elem_of_fmap in Hk as (m & -> & _).
  apply getMonthString_nonempty.
Qed.

(** X13.  The best month is the empty string exactly when no month has
    5 games, and then so is the worst month; otherwise both are keys of
    rows of the month table that have at least 5 games.  So a caller
    that tests the best month for emptiness tests whether a month
    qualifies. *)
Theorem bestMonth_empty_iff host matches :
  ∃ t,
    calculateTemporalTrends host matches = Some t ∧
    (bestMonth t = "" ↔ ∀ e, e ∈ monthlyWinRate t → md_games e < 5) ∧
    (worstMonth t = "" ↔ bestMonth t = "") ∧
    (bestMonth t ≠ "" →
     ∃ b w,
       b ∈ monthlyWinRate t ∧ 5 ≤ md_games b ∧ bestMonth t = month b ∧
       w ∈ monthlyWinRate t ∧ 5 ≤ md_games w ∧ worstMonth t = month w).
Proof.
  destruct (decide (matches = [])) as [->|Hne].
  { eexists. split; [reflexivity|]. cbn. split_and!; try done.
    split; [by intros _ e ?%elem_of_nil|done]. }
  eexists. split; [by apply calculateTemporalTrends_nonempty|].
  cbn [bestMonth worstMonth monthlyWinRate].
  set (table := monthTable host matches).
  set (sorted := Array_sort byWinRateDesc (significant table)).
  assert (Hmem : ∀ e, e ∈ sorted ↔ e ∈ table ∧ 5 ≤ md_games e).
  { intros e. unfold sorted. rewrite Array_sort_elem_of. unfold significant.
    rewrite list_elem_of_filter. tauto. }
  assert (Hname : ∀ e, e ∈ sorted → month e ≠ "").
  { intros e [He _]%Hmem. by apply (monthTable_month_nonempty host matches). }
  destruct sorted as [|b rest] eqn:Hs.
  - cbn. split_and!; [|done|done].
    split; [|done]. intros _ e He.
    destruct (decide (md_games e < 5)) as [|Hge]; [done|]. exfalso.
    assert (Hin : e ∈ @nil MonthlyData) by (apply Hmem; split; [done|lia]).
    by apply elem_of_nil in Hin.
  - assert (Hb : b ∈ b :: rest) by left.
    assert (Hlast : ∃ w, last (b :: rest) = Some w ∧ w ∈ b :: rest).
    { destruct (last (b :: rest)) as [w|] eqn:Hl; [|by apply last_None in Hl].
      exists w. split; [done|]. apply last_Some in Hl as [init ->].
      apply elem_of_app. right. left. }
    destruct Hlast as (w & Hw & Hwin). rewrite Hw. cbn [head from_option].
    split_and!.
    + split; [by intros ?%Hname|]. intros Hall. exfalso.
      apply Hmem in Hb as [Hb Hge]. specialize (Hall b Hb). lia.
    + split; intros H; exfalso; [by apply (Hname w)|by apply (Hname b)].
    + intros _. exists b, w. apply Hmem in Hb as [? ?]. apply Hmem in Hwin as [? ?].
      done.
Qed.

(** *** The consumers: fallback insights and the summary *)

(** A loop that stopped does not depend on the fuel it was given. *)
Lemma while_fuel {S : Type} (cond : S → bool) (body : S → S) (fuel fuel' : nat) (s s' : S) :
  while fuel cond body s = Some s' → (fuel ≤ fuel')%nat →
  while fuel' cond body s = Some s'.
Proof.
  revert fuel' s. induction fuel as [|n IH]; intros fuel' s Hrun Hle.
  - destruct fuel'; simpl in *; destruct (cond s); congruence.
  - destruct fuel' as [|n']; [lia|]. simpl in *.
    destruct (cond s); [|done]. apply IH; [done|lia].
Qed.

(** A padding loop stops with the condition false. *)
Lemma while_exit {S : Type} (cond : S → bool) (body : S → S) (fuel : nat) (s s' : S) :
  while fuel cond body s = Some s' → cond s' = false.
Proof.
  revert s. induction fuel as [|n IH]; intros s; simpl; destruct (cond s) eqn:E.
  - discriminate.
  - by intros [= <-].
  - apply IH.
  - by intros [= <-].
Qed.

Section Padding.
Context {A : Type} (body : list A → list A).
Hypothesis body_push : ∀ l, ∃ x, body l = push l x.

(** A loop that pushes one element a turn until there are three only
    appends, and leaves three elements or what it was given. *)
Lemma while_pad_Some (fuel : nat) (l l' : list A) :
  while fuel (λ s, (length s <? 3)%nat) body l = Some l' →
  l `prefix_of` l' ∧ length l' = (length l `max` 3)%nat.
Proof.
  revert l. induction fuel as [|n IH]; intros l; simpl;
    destruct (length l <? 3)%nat eqn:E.
  - discriminate.
  - intros [= <-]. apply Nat.ltb_ge in E. split; [done|lia].
  - intros Hrun. apply Nat.ltb_lt in E.
    destruct (body_push l) as [x Hx]. rewrite Hx in Hrun.
    apply IH in Hrun as [Hpre Hlen]. unfold push in *. rewrite length_app in Hlen.
    split; [|simpl in Hlen; lia].
    etrans; [|exact Hpre]. by apply prefix_app_r.
  - intros [= <-]. apply Nat.ltb_ge in E. split; [done|lia].
Qed.

(** Three turns are enough. *)
Lemma while_pad_enough (fuel : nat) (l : list A) :
  (3 - length l ≤ fuel)%nat →
  ∃ l', while fuel (λ s, (length s <? 3)%nat) body l = Some l'.
Proof.
  revert l. induction fuel as [|n IH]; intros l Hfuel; simpl;
    destruct (length l <? 3)%nat eqn:E.
  - apply Nat.ltb_lt in E. lia.
  - by exists l.
  - apply Nat.ltb_lt in E. destruct (body_push l) as [x Hx]. rewrite Hx.
    apply IH. unfold push. rewrite length_app. simpl. lia.
  - by exists l.
Qed.
End Padding.

Lemma strengthFiller_push topChamp topChampGames (l : list string) :
  ∃ x, strengthFiller topChamp topChampGames l = push l x.
Proof. unfold strengthFiller. repeat case_decide; by eexists. Qed.

Lemma weaknessFiller_push (l : list string) : ∃ x, weaknessFiller l = push l x.
Proof. unfold weaknessFiller. repeat case_decide; by eexists. Qed.

Lemma take_prefix {A : Type} (n : nat) (l l' : list A) :
  l `prefix_of` l' → take n l `prefix_of` take n l'.
Proof. intros [k ->]. rewrite take_app. by apply prefix_app_r. Qed.

Lemma append_nonempty_r (s t : string) : t ≠ "" → s +:+ t ≠ "".
Proof.
  intros Ht Heq. apply (f_equal String.length) in Heq.
  rewrite length_append in Heq. destruct t; [done|]. simpl in Heq. lia.
Qed.

Lemma append_nonempty_l (s t : string) : s ≠ "" → s +:+ t ≠ "".
Proof. destruct s; [done|]. discriminate. Qed.

(** The parts of the fallback insights once both loops have stopped. *)
Lemma generateFallbackInsights_Some toFixed fuel analytics r :
  generateFallbackInsights toFixed fuel analytics = Some r →
  ∃ s w,
    while fuel (λ s, (length s <? 3)%nat)
      (strengthFiller (topChampOf (championStats analytics))
         (topChampGamesOf (championStats analytics)))
      (earnedStrengths toFixed analytics) = Some s ∧
    while fuel (λ w, (length w <? 3)%nat) weaknessFiller
      (earnedWeaknesses toFixed analytics) = Some w ∧
    strengths r = take 3 s ∧ weaknesses r = take 3 w.
Proof.
  unfold generateFallbackInsights. cbv zeta.
  destruct (while fuel _ (strengthFiller _ _) _) as [s|] eqn:Hs; [|discriminate].
  destruct (while fuel _ weaknessFiller _) as [w|] eqn:Hw; [|discriminate].
  cbn [mbind option_bind]. intros [= <-]. by exists s, w.
Qed.

Lemma earnedStrengths_length toFixed analytics :
  (length (earnedStrengths toFixed analytics) ≤ 5)%nat.
Proof.
  unfold earnedStrengths, push. cbv zeta.
  repeat match goal with
         | |- context [if ?c then _ else _] => destruct c
         | |- context [match head ?l with _ => _ end] => destruct (head l)
         end; rewrite ?length_app; simpl; lia.
Qed.

Lemma earnedWeaknesses_length toFixed analytics :
  (length (earnedWeaknesses toFixed analytics) ≤ 5)%nat.
Proof.
  unfold earnedWeaknesses, push. cbv zeta.
  repeat match goal with
         | |- context [if ?c then _ else _] => destruct c
         end; rewrite ?length_app; simpl; lia.
Qed.

(** X14.  Whatever the analytics hold and however the host prints
    numbers, the fallback insights come out once the padding loops may
    take three turns, and more turns change nothing: there are exactly
    three strengths, three weaknesses, three improvement areas and
    five coaching tips, at most two hidden gems, the summary is the
    year in review, and neither the roast nor the boast is empty. *)
Theorem fallback_insights_shape toFixed (fuel : nat) analytics :
  (3 ≤ fuel)%nat →
  ∃ r,
    generateFallbackInsights toFixed fuel analytics = Some r ∧
    generateFallbackInsights toFixed 3 analytics = Some r ∧
    length (strengths r) = 3%nat ∧
    length (weaknesses r) = 3%nat ∧
    length (improvementAreas r) = 3%nat ∧
    length (coachingTips r) = 5%nat ∧
    (length (hiddenGems r) ≤ 2)%nat ∧
    summary r = yearInReview r ∧
    roast r ≠ "" ∧
    boast r ≠ "".
Proof.
  intros Hfuel.
  set (filler := strengthFiller (topChampOf (championStats analytics))
                   (topChampGamesOf (championStats analytics))).
  destruct (while_pad_enough filler (strengthFiller_push _ _) 3
              (earnedStrengths toFixed analytics)) as [s Hs]; [lia|].
  destruct (while_pad_enough weaknessFiller weaknessFiller_push 3
              (earnedWeaknesses toFixed analytics)) as [w Hw]; [lia|].
  pose proof (while_fuel _ _ _ fuel _ _ Hs Hfuel) as Hs'.
  pose proof (while_fuel _ _ _ fuel _ _ Hw Hfuel) as Hw'.
  pose proof (while_pad_Some filler (strengthFiller_push _ _) _ _ _ Hs) as [_ Hls].
  pose proof (while_pad_Some weaknessFiller weaknessFiller_push _ _ _ Hw) as [_ Hlw].
  unfold filler in *. unfold generateFallbackInsights. cbv zeta.
  rewrite Hs, Hw, Hs', Hw'. cbn [mbind option_bind].
  eexists. split; [reflexivity|]. split; [reflexivity|].
  cbn [strengths weaknesses improvementAreas coachingTips hiddenGems summary
       yearInReview roast boast].
  split_and!.
  - rewrite length_take. lia.
  - rewrite length_take. lia.
  - reflexivity.
  - reflexivity.
  - rewrite length_fmap, length_take. lia.
  - reflexivity.
  - repeat match goal with
           | |- context [if ?c then _ else _] => destruct c
           end;
      first [apply append_nonempty_r; discriminate | discriminate].
  - repeat match goal with
           | |- context [if ?c then _ else _] => destruct c
           | |- context [match head ?l with _ => _ end] => destruct (head l)
           end;
      first [apply append_nonempty_r; discriminate | discriminate].
Qed.

Lemma fallback_insights_shape_witness :
  ∃ r,
    (aggregateMatchData utcHost goodSeason [] ≫= generateFallbackInsights toFixed_exact 3)
      = Some r ∧
    strengths r =
      ["Strong 87.5% win rate shows consistent performance";
       "Excellent 5.90 KDA demonstrates good decision-making";
       "Impressive 5-game win streak shows momentum"] ∧
    length (weaknesses r) = 3%nat ∧
    length (coachingTips r) = 5%nat.
Proof.
  let v := eval vm_compute in (aggregateMatchData utcHost goodSeason []) in
  replace (aggregateMatchData utcHost goodSeason []) with v by (vm_compute; reflexivity).
  cbn [mbind option_bind].
  match goal with
  | |- ∃ r, generateFallbackInsights _ _ ?a = _ ∧ _ =>
      destruct (fallback_insights_shape toFixed_exact 3 a)
        as (r & Hr & _ & _ & Hw & _ & Ht & _); [lia|]
  end.
  exists r. split; [exact Hr|]. split; [|split; assumption].
  vm_compute in Hr. injection Hr as <-. reflexivity.
Defined.

(** X15.  The padding never displaces what the player earned: the
    first three earned strengths (weaknesses) open the list in their
    order, the fillers come behind them, and with three or more earned
    no filler is served; with none earned the three fillers are
    served, the third naming the top champion and its games. *)
Theorem fallback_keeps_earned toFixed (fuel : nat) analytics r :
  generateFallbackInsights toFixed fuel analytics = Some r →
  take 3 (earnedStrengths toFixed analytics) `prefix_of` strengths r ∧
  take 3 (earnedWeaknesses toFixed analytics) `prefix_of` weaknesses r ∧
  ((3 ≤ length (earnedStrengths toFixed analytics))%nat →
   strengths r = take 3 (earnedStrengths toFixed analytics)) ∧
  ((3 ≤ length (earnedWeaknesses toFixed analytics))%nat →
   weaknesses r = take 3 (earnedWeaknesses toFixed analytics)) ∧
  (earnedStrengths toFixed analytics = [] →
   strengths r =
     ["Consistent gameplay throughout the season";
      "Team-oriented playstyle";
      "Dedicated " +:+ topChampOf (championStats analytics) +:+ " player with " +:+
        String_ (topChampGamesOf (championStats analytics)) +:+ " games"]) ∧
  (earnedWeaknesses toFixed analytics = [] →
   weaknesses r =
     ["Champion pool could be more diverse";
      "Objective control needs attention";
      "Map awareness could be improved"]).
Proof.
  intros (s & w & Hs & Hw & -> & ->)%generateFallbackInsights_Some.
  pose proof (while_pad_Some _ (strengthFiller_push _ _) _ _ _ Hs) as [Hps Hls].
  pose proof (while_pad_Some _ weaknessFiller_push _ _ _ Hw) as [Hpw Hlw].
  split_and!.
  - by apply take_prefix.
  - by apply take_prefix.
  - intros Hlen. destruct Hps as [k ->]. rewrite length_app in Hls.
    assert (k = []) as -> by (destruct k; [done|simpl in Hls; lia]).
    by rewrite app_nil_r.
  - intros Hlen. destruct Hpw as [k ->]. rewrite length_app in Hlw.
    assert (k = []) as -> by (destruct k; [done|simpl in Hlw; lia]).
    by rewrite app_nil_r.
  - intros He. rewrite He in Hs.
    destruct fuel as [|[|[|fuel]]]; try discriminate Hs.
    destruct fuel; simpl in Hs; injection Hs as <-; reflexivity.
  - intros He. rewrite He in Hw.
    destruct fuel as [|[|[|fuel]]]; try discriminate Hw.
    destruct fuel; simpl in Hw; injection Hw as <-; reflexivity.
Qed.

Lemma fallback_keeps_earned_witness :
  ∃ a r,
    aggregateMatchData utcHost goodSeason [] = Some a ∧
    generateFallbackInsights toFixed_exact 3 a = Some r ∧
    take 3 (earnedWeaknesses toFixed_exact a) `prefix_of` weaknesses r ∧
    weaknesses r =
      ["Low vision score - need more ward placement";
       "CS/min of 4.9 needs improvement";
       "Map awareness could be improved"].
Proof.
  eexists _, _. split; [vm_compute; reflexivity|].
  split; [vm_compute; reflexivity|].
  split; [|reflexivity].
  refine (proj1 (proj2 (fallback_keeps_earned toFixed_exact 3 _ _ _))).
  vm_compute. reflexivity.
Defined.

Lemma championStatsOf_sorted matches masteries :
  StronglySorted (λ x y, cs_games y ≤ cs_games x) (championStatsOf matches masteries).
Proof.
  unfold championStatsOf. apply Array_sort_sorted; [intros x y z; lia|].
  intros x y _ _. unfold decides, byGamesDesc.
  destruct (gt _ _) eqn:E; [apply gt_ofZ in E|apply gt_ofZ_false in E]; lia.
Qed.

Lemma championStatsOf_games matches masteries (s : ChampionStat) :
  s ∈ championStatsOf matches masteries →
  cs_games s = Z.of_nat (length (matchesOf (cs_championId s) matches)).
Proof.
  intros (i & stats & Hi & ->)%championStatsOf_elem_of.
  pose proof (championMapOf_lookup _ _ _ _ Hi) as (_ & _ & Hg & _). exact Hg.
Qed.

(** X16.  The summary shows the most-played champions of the
    aggregated matches: its total is the number of matches, it lists
    the first three champion entries (all of them when there are
    fewer), each with the number of matches played on it, and no
    champion left out has more games than a champion shown. *)
Theorem summary_top_champions toFixed host matches masteries :
  ∃ r,
    aggregateMatchData host matches masteries = Some r ∧
    let s := getAnalyticsSummary toFixed r in
    sum_totalGames s = Z.of_nat (length matches) ∧
    length (topChampions s) = (length (championStats r) `min` 3)%nat ∧
    (∀ (i : nat) t, topChampions s !! i = Some t →
       ∃ c, championStats r !! i = Some c ∧
            t = toTopChampion toFixed c ∧
            top_games t = Z.of_nat (length (matchesOf (cs_championId c) matches))) ∧
    (∀ t (j : nat) c,
       t ∈ topChampions s → championStats r !! j = Some c → (3 ≤ j)%nat →
       cs_games c ≤ top_games t).
Proof.
  destruct (aggregateMatchData_championStats host matches masteries)
    as (r & Hr & Hcs & _ & Hg & _).
  exists r. split; [done|]. cbv zeta.
  unfold getAnalyticsSummary. cbn [sum_totalGames topChampions].
  assert (Hsorted : StronglySorted (λ x y, cs_games y ≤ cs_games x) (championStats r)).
  { rewrite Hcs. case_decide; [constructor|apply championStatsOf_sorted]. }
  assert (Hgames : ∀ c, c ∈ championStats r →
            cs_games c = Z.of_nat (length (matchesOf (cs_championId c) matches))).
  { rewrite Hcs. case_decide; [by intros c ?%elem_of_nil|].
    intros c. apply championStatsOf_games. }
  split_and!.
  - exact Hg.
  - rewrite length_fmap, length_take. lia.
  - intros i t Hi.
    apply list_lookup_fmap_Some in Hi as (c & -> & Hi).
    apply lookup_take_Some in Hi as [Hi _].
    exists c. split_and!; [done|done|].
    cbn [toTopChampion top_games]. apply Hgames. by eapply list_elem_of_lookup_2.
  - intros t j c Ht Hj Hge.
    apply list_elem_of_fmap in Ht as (c' & -> & Hc').
    apply list_elem_of_lookup in Hc' as [i Hi].
    apply lookup_take_Some in Hi as [Hi Hlt].
    cbn [toTopChampion top_games].
    apply (StronglySorted_lookup _ _ i j c' c Hsorted Hi Hj). lia.
Qed.

Lemma generateFallbackInsights_csTip toFixed fuel analytics r :
  generateFallbackInsights toFixed fuel analytics = Some r →
  coachingTips r !! 3%nat =
    Some (if less (avgCSPerMinute (performanceMetrics analytics)) (ofZ 6)
          then "Practice last-hitting in practice tool to improve CS/min"
          else "Your CS is solid - focus on translating farm leads into objectives").
Proof.
  unfold generateFallbackInsights. cbv zeta.
  destruct (while fuel _ (strengthFiller _ _) _) as [s|]; [|discriminate].
  destruct (while fuel _ weaknessFiller _) as [w|]; [|discriminate].
  cbn [mbind option_bind]. by intros [= <-].
Qed.

Lemma generateFallbackInsights_enough toFixed fuel analytics :
  (3 ≤ fuel)%nat → ∃ r, generateFallbackInsights toFixed fuel analytics = Some r.
Proof.
  intros Hfuel.
  destruct (while_pad_enough _ (strengthFiller_push (topChampOf (championStats analytics))
              (topChampGamesOf (championStats analytics))) fuel
              (earnedStrengths toFixed analytics)) as [s Hs]; [lia|].
  destruct (while_pad_enough _ weaknessFiller_push fuel
              (earnedWeaknesses toFixed analytics)) as [w Hw]; [lia|].
  unfold generateFallbackInsights. cbv zeta. rewrite Hs, Hw. cbn [mbind option_bind].
  by eexists.
Qed.

(** A division by the zero minutes of a season without game time is
    never below a threshold. *)
Lemma per_minute_of_zero_not_less (x k : Z) :
  0 ≤ x → less (div (ofZ x) (div (ofZ 0) (ofZ 60))) (ofZ k) = false.
Proof.
  intros Hx. change (div (ofZ 0) (ofZ 60)) with (Num 0).
  unfold ofZ at 1. cbn [div]. change (Qeq_bool 0 0) with true. cbv iota.
  destruct (Qcompare (inject_Z x) 0) eqn:E; try reflexivity.
  exfalso. apply Qlt_alt in E. unfold Qlt in E. simpl in E. lia.
Qed.

(** X17.  The unguarded division reaches the advice: for a season
    whose matches have no recorded game time the CS per minute is not
    a finite number, no threshold test on it succeeds, and the player
    is told that the CS is solid. *)
Theorem zero_game_time_praises_cs toFixed host matches masteries (fuel : nat) :
  matches ≠ [] →
  total gameDuration matches = 0 →
  0 ≤ total (λ m, totalMinionsKilled (participant m)) matches →
  (3 ≤ fuel)%nat →
  ∃ a r,
    aggregateMatchData host matches masteries = Some a ∧
    generateFallbackInsights toFixed fuel a = Some r ∧
    (∀ q, avgCSPerMinute (performanceMetrics a) ≠ Num q) ∧
    coachingTips r !! 3%nat =
      Some "Your CS is solid - focus on translating farm leads into objectives".
Proof.
  intros Hne Hzero Hcs Hfuel.
  pose proof (aggregateMatchData_parts host matches masteries Hne) as Ha.
  match type of Ha with
  | _ = Some ?a =>
      destruct (generateFallbackInsights_enough toFixed fuel a Hfuel) as [r Hr]
  end.
  eexists _, r. split; [exact Ha|]. split; [exact Hr|].
  apply generateFallbackInsights_csTip in Hr. rewrite Hr. clear Hr.
  cbn [performanceMetrics performanceOf avgCSPerMinute]. rewrite Hzero.
  split.
  - change (div (ofZ 0) (ofZ 60)) with (Num 0).
    unfold ofZ. cbn [div]. change (Qeq_bool 0 0) with true. cbv iota.
    intros q. by destruct (Qcompare _ 0).
  - by rewrite per_minute_of_zero_not_less.
Qed.

Lemma zero_game_time_praises_cs_witness :
  ∃ a r,
    aggregateMatchData utcHost zeroLengthMatches [] = Some a ∧
    generateFallbackInsights toFixed_exact 3 a = Some r ∧
    (∀ q, avgCSPerMinute (performanceMetrics a) ≠ Num q) ∧
    coachingTips r !! 3%nat =
      Some "Your CS is solid - focus on translating farm leads into objectives".
Proof.
  apply (zero_game_time_praises_cs toFixed_exact utcHost zeroLengthMatches [] 3).
  - discriminate.
  - vm_compute. reflexivity.
  - vm_compute. discriminate.
  - lia.
Defined.

(** *** The chart labels *)

Lemma split_first (c : Ascii.ascii) (s rest : string) :
  occurs c s = false → split c (s +:+ String c rest) = s :: split c rest.
Proof.
  induction s as [|a s IH]; simpl.
  - intros _. by rewrite Ascii.eqb_refl.
  - intros [Ha Hs]%orb_false_iff. rewrite Ha, (IH Hs). reflexivity.
Qed.

Lemma string_of_uint_no_minus (d : Decimal.uint) :
  occurs "-" (NilEmpty.string_of_uint d) = false.
Proof. induction d; simpl; done. Qed.

Lemma String__no_minus (z : Z) : 0 ≤ z → occurs "-" (String_ z) = false.
Proof.
  intros Hz. unfold String_. destruct z as [|p|p]; [reflexivity| |lia].
  simpl. destruct (Pos.to_uint p); try apply string_of_uint_no_minus. reflexivity.
Qed.

Lemma String__negative (p : positive) :
  String_ (Z.neg p) = String "-" (NilEmpty.string_of_uint (Pos.to_uint p)).
Proof.
  unfold String_. simpl.
  pose proof (DecimalPos.Unsigned.to_uint_nonnil p) as Hnil.
  by destruct (Pos.to_uint p).
Qed.

(** The digits of a numeral add up to the number it writes. *)
Lemma digitsValue_acc (d : Decimal.uint) (acc : positive) :
  digitsValue 10 (NilEmpty.string_of_uint d) (Some (Z.pos acc)) =
  Some (Z.pos (Pos.of_uint_acc d acc)).
Proof.
  revert acc. induction d; intros acc; [reflexivity|..];
    read_digit; cbn [Pos.of_uint_acc default]; rewrite <-IHd; repeat f_equal; unfold id; lia.
Qed.

Lemma digitsValue_uint (d : Decimal.uint) :
  digitsValue 10 (NilEmpty.string_of_uint d) (Some 0) = Some (Z.of_N (Pos.of_uint d)).
Proof.
  induction d; [reflexivity|..]; read_digit; cbn [default Pos.of_uint]; unfold id;
    change (0 * 10 + ?x) with x.
  - exact IHd.
  - apply (digitsValue_acc d 1).
  - apply (digitsValue_acc d 2).
  - apply (digitsValue_acc d 3).
  - apply (digitsValue_acc d 4).
  - apply (digitsValue_acc d 5).
  - apply (digitsValue_acc d 6).
  - apply (digitsValue_acc d 7).
  - apply (digitsValue_acc d 8).
  - apply (digitsValue_acc d 9).
Qed.

Lemma digitsValue_first (a : Ascii.ascii) (s : string) (d : Z) :
  digitValue a = Some d → (d <? 10) = true →
  digitsValue 10 (String a s) None = digitsValue 10 (String a s) (Some 0).
Proof. intros Ha Hd. cbn [digitsValue]. by rewrite Ha, Hd. Qed.

(** [parseInt] reads a positive numeral as [String] writes it. *)
Lemma parseInt_numeral (p : positive) :
  parseInt (NilEmpty.string_of_uint (Pos.to_uint p)) = round64 (inject_Z (Z.pos p)).
Proof.
  pose proof (DecimalPos.Unsigned.of_to p) as Hof.
  pose proof (digitsValue_uint (Pos.to_uint p)) as Hval. rewrite Hof in Hval.
  pose proof (DecimalPos.Unsigned.to_uint_nonnil p) as Hnil.
  unfold parseInt.
  destruct (Pos.to_uint p) as [|d|d|d|d|d|d|d|d|d|d]; [done|..]; skip_space.
  1: destruct d; cbn [NilEmpty.string_of_uint].
  all: cbv beta iota zeta.
  all: erewrite digitsValue_first by (vm_compute; reflexivity).
  all: cbn [NilEmpty.string_of_uint] in Hval; rewrite Hval.
  all: cbn [Z.of_N]; by rewrite Z.mul_1_l.
Qed.

(** Read as a month number, a year selects a name up to 12 and
    nothing beyond. *)
Lemma monthNames_at_year (p : positive) :
  Array_at monthNames (sub (round64 (inject_Z (Z.pos p))) (ofZ 1)) =
  monthNames !! Z.to_nat (Z.pos p - 1).
Proof.
  destruct (decide (Z.pos p ≤ 12)) as [Hle|Hgt].
  - assert (Hp : (p = 1 ∨ p = 2 ∨ p = 3 ∨ p = 4 ∨ p = 5 ∨ p = 6 ∨ p = 7 ∨ p = 8 ∨
                 p = 9 ∨ p = 10 ∨ p = 11 ∨ p = 12)%positive) by lia.
    repeat (destruct Hp as [->|Hp]; [vm_compute; reflexivity|]).
    subst. vm_compute. reflexivity.
  - rewrite (lookup_ge_None_2 monthNames) by (simpl; lia).
    destruct (round64 (inject_Z (Z.pos p))) as [r| | |] eqn:Hr; [|reflexivity..].
    apply round64_nearest in Hr.
    assert (H13 : (13 <= r)%Q).
    { apply (nearest64_ge _ _ (inject_Z 13) Hr); [by apply binary64_Z|].
      rewrite <-Zle_Qle. lia. }
    unfold ofZ. cbn [sub].
    destruct (round64 (r - inject_Z 1)) as [r'| | |] eqn:Hr'; [|reflexivity..].
    apply round64_nearest in Hr'.
    assert (H12 : (12 <= r')%Q).
    { apply (nearest64_ge _ _ (inject_Z 12) Hr'); [by apply binary64_Z|].
      change (inject_Z 12) with 12%Q. change (inject_Z 1) with 1%Q. lra. }
    cbn [Array_at]. destruct (Pos.eqb (Qden r') 1 && (0 <=? Qnum r')) eqn:E; [|reflexivity].
    apply andb_true_iff in E as [Hden _]. apply Pos.eqb_eq in Hden.
    apply lookup_ge_None_2. simpl.
    destruct r' as [n d]. simpl in *. subst d. unfold Qle in H12. simpl in H12. lia.
Qed.

(** The two digits of a month number select its name. *)
Lemma month_digits_read (k : nat) :
  (k < 12)%nat →
  ∃ name,
    monthNames !! k = Some name ∧
    default "undefined"
      (Array_at monthNames
         (sub (parseInt (default "undefined"
                           (split "-" (twoDigits (Z.of_nat k + 1)) !! 0%nat)))
            (ofZ 1))) = name.
Proof.
  intros Hk.
  do 12 (destruct k as [|k]; [eexists; split; vm_compute; reflexivity|]). lia.
Qed.

(** X18.  [formatMonth] reads the month keys back: for a time stamp of
    a year that is not negative and a month index from 0 to 11, the
    label of its key is the name of its month, a space and the year.
    The year must not be negative: the sign of a negative year is
    taken for the separator, the year without its sign is read as the
    month number, and the label is the name that this number selects,
    [undefined] beyond 12, and a space, without any year. *)
Theorem formatMonth_reads_month_keys host t :
  0 ≤ getMonth host t ≤ 11 →
  (0 ≤ getFullYear host t →
   ∃ name,
     monthNames !! Z.to_nat (getMonth host t) = Some name ∧
     formatMonth (getMonthString host t) = name +:+ " " +:+ String_ (getFullYear host t)) ∧
  (getFullYear host t < 0 →
   formatMonth (getMonthString host t) =
     default "undefined" (monthNames !! Z.to_nat (- getFullYear host t - 1)) +:+ " ").
Proof.
  intros Hm. unfold getMonthString. cbv zeta. fold (twoDigits (getMonth host t + 1)).
  split.
  - intros Hy.
    destruct (month_digits_read (Z.to_nat (getMonth host t))) as (name & Hname & Hread);
      [lia|].
    rewrite Z2Nat.id in Hread by lia.
    exists name. split; [exact Hname|].
    unfold formatMonth. cbv zeta.
    change ("-" +:+ twoDigits (getMonth host t + 1))
      with (String "-" (twoDigits (getMonth host t + 1))).
    rewrite split_first by (by apply String__no_minus).
    cbn [lookup list_lookup default]. simpl (_ !! 0%nat). cbn [default].
    change ((String_ (getFullYear host t) :: split "-" (twoDigits (getMonth host t + 1)))
              !! 1%nat)
      with (split "-" (twoDigits (getMonth host t + 1)) !! 0%nat).
    rewrite <-Hread. reflexivity.
  - intros Hy. destruct (getFullYear host t) as [|p|p]; [lia|lia|].
    rewrite String__negative.
    unfold formatMonth. cbv zeta.
    set (digits := NilEmpty.string_of_uint (Pos.to_uint p)).
    change (split "-" (String "-" digits +:+ "-" +:+ twoDigits (getMonth host t + 1)))
      with ("" :: split "-" (digits +:+ String "-" (twoDigits (getMonth host t + 1)))).
    rewrite split_first by apply string_of_uint_no_minus.
    change (("" :: digits :: split "-" (twoDigits (getMonth host t + 1))) !! 0%nat)
      with (Some "").
    change (("" :: digits :: split "-" (twoDigits (getMonth host t + 1))) !! 1%nat)
      with (Some digits).
    cbn [default]. unfold digits, id. rewrite parseInt_numeral, monthNames_at_year.
    replace (- Z.neg p - 1) with (Z.pos p - 1) by lia. reflexivity.
Qed.

Lemma formatMonth_reads_month_keys_witness :
  formatMonth (getMonthString utcHost 1704103200000) = "Jan 2024" ∧
  formatMonth (getMonthString utcHost (-62250000000000)) = "Mar ".
Proof.
  split.
  - destruct (formatMonth_reads_month_keys utcHost 1704103200000) as [Hread _].
    + vm_compute. split; discriminate.
    + destruct Hread as (name & Hname & ->).
      * vm_compute. discriminate.
      * vm_compute in Hname. injection Hname as <-. vm_compute. reflexivity.
  - destruct (formatMonth_reads_month_keys utcHost (-62250000000000)) as [_ Hread].
    + vm_compute. split; discriminate.
    + rewrite Hread; vm_compute; reflexivity.
Defined.
